(** * EvoMusic: the prompt search engine of [EvoMusic/evolution/searchers.py]

    A shallow embedding of the text-oracle client ([LLMPromptGenerator]),
    the operator stage ([LLMEvolutionOperator]), the search engine
    ([PromptSearcher]) and the evaluation problem
    ([MusicOptimizationProblem]), with the properties the specification
    states about them. *)

From Stdlib Require Import Ascii String DecimalString.
From Stdlib Require Import List Arith Lia Bool ZArith QArith Qround.
From Stdlib Require Import SpecFloat.
From Stdlib Require Import Permutation Sorted.
Import ListNotations.

Set Implicit Arguments.

Close Scope Q_scope.
Close Scope Z_scope.
Open Scope nat_scope.

(* ===================================================================== *)
(** ** Python strings

    A Python [str] is modelled as a [string] whose characters are the code
    points below 256.  The functions are the ones [parse_llm_response] and
    [generate_prompts] call: [count], [split], [in], [index], slicing from an
    offset and [strip]. *)
(* ===================================================================== *)

Module PyStr.

Local Open Scope string_scope.

(** [s.startswith(p)] *)
Fixpoint startswith (p s : string) : bool :=
  match p, s with
  | EmptyString, _ => true
  | String _ _, EmptyString => false
  | String a p', String b s' => Ascii.eqb a b && startswith p' s'
  end.

(** The scanner behind [count]: [skip] is the number of characters still
    covered by the occurrence found last, which [count] does not revisit
    (occurrences are counted without overlap). *)
Fixpoint count_from (sub : string) (skip : nat) (s : string) : nat :=
  match s with
  | EmptyString => 0
  | String _ s' =>
      match skip with
      | S k => count_from sub k s'
      | O => if startswith sub s
             then S (count_from sub (String.length sub - 1) s')
             else count_from sub 0 s'
      end
  end.

(** [s.count(sub)] for a non-empty [sub]. *)
Definition count (sub s : string) : nat := count_from sub 0 s.

(** The scanner behind [split]: [cur] is the piece being collected. *)
Fixpoint split_from (sep : string) (skip : nat) (cur s : string) : list string :=
  match s with
  | EmptyString => [cur]
  | String c s' =>
      match skip with
      | S k => split_from sep k cur s'
      | O => if startswith sep s
             then cur :: split_from sep (String.length sep - 1) EmptyString s'
             else split_from sep 0 (cur ++ String c EmptyString) s'
      end
  end.

(** [s.split(sep)] for a non-empty [sep]. *)
Definition split (sep s : string) : list string := split_from sep 0 EmptyString s.

(** [s.find(sub)]: the lowest index at which [sub] occurs, if any. *)
Fixpoint find (sub s : string) : option nat :=
  if startswith sub s then Some 0
  else match s with
       | EmptyString => None
       | String _ s' => option_map S (find sub s')
       end.

(** [sub in s] *)
Definition contains (sub s : string) : bool :=
  match find sub s with Some _ => true | None => false end.

(** [s[n:]] *)
Fixpoint drop (n : nat) (s : string) : string :=
  match n, s with
  | O, _ => s
  | S _, EmptyString => EmptyString
  | S k, String _ s' => drop k s'
  end.

(** [str.isspace] on one character, for the code points below 256. *)
Definition is_space (c : ascii) : bool :=
  let n := nat_of_ascii c in
  (Nat.leb 9 n && Nat.leb n 13) || (Nat.leb 28 n && Nat.leb n 32)
  || Nat.eqb n 133 || Nat.eqb n 160.

Fixpoint lstrip (s : string) : string :=
  match s with
  | EmptyString => EmptyString
  | String c s' => if is_space c then lstrip s' else s
  end.

Fixpoint rstrip (s : string) : string :=
  match s with
  | EmptyString => EmptyString
  | String c s' =>
      match rstrip s' with
      | EmptyString => if is_space c then EmptyString else String c EmptyString
      | r => String c r
      end
  end.

(** [s.strip()] *)
Definition strip (s : string) : string := rstrip (lstrip s).

End PyStr.

(* ===================================================================== *)
(** ** The text oracle client: [LLMPromptGenerator] *)
(* ===================================================================== *)

Local Open Scope string_scope.
Local Open Scope list_scope.

Definition open_tag : string := "<prompt>".
Definition close_tag : string := "</prompt>".

(** The body of the [for answer in response.split("</prompt>")] loop, for
    one [answer]: if it holds an opening tag, the text after the first
    one, stripped.  ([index] finds the tag that [in] has seen.) *)
Definition extract (answer : string) : option string :=
  if PyStr.contains open_tag answer then
    match PyStr.find open_tag answer with
    | Some index => Some (PyStr.strip (PyStr.drop (index + 8) answer))
    | None => None
    end
  else None.

Fixpoint extract_all (answers : list string) : list string :=
  match answers with
  | [] => []
  | a :: rest =>
      match extract a with
      | Some p => p :: extract_all rest
      | None => extract_all rest
      end
  end.

(** [LLMPromptGenerator.parse_llm_response] *)
Definition parse_llm_response (response : string) : list string :=
  if negb (Nat.eqb (PyStr.count open_tag response) (PyStr.count close_tag response))
  then []
  else extract_all (PyStr.split close_tag response).

(** *** Exceptions and results

    Python code either returns a value or raises.  Loops that wait for the
    oracle have no bound in the source; the model runs them on fuel, and
    [OutOfFuel] stands for a loop that is still running. *)

Inductive exn : Type :=
| AssertionError | ValueError | IndexError | KeyError | TypeError
| AttributeError | RuntimeError | OverflowError | ZeroDivisionError
| ConnectionError | HTTPError | JSONDecodeError.

Inductive result (A : Type) : Type :=
| Ok (a : A)
| Raise (e : exn)
| OutOfFuel.

Arguments Ok {A} a.
Arguments Raise {A} e.
Arguments OutOfFuel {A}.

Definition rbind {A B} (r : result A) (k : A -> result B) : result B :=
  match r with
  | Ok a => k a
  | Raise e => Raise e
  | OutOfFuel => OutOfFuel
  end.

(** *** The transport: one HTTP exchange and the JSON it carries *)

(** A decoded JSON document, as [response.json()] returns it: [None],
    [bool], number, [str], [list] and [dict] (string keys). *)
#[warnings="-register-all"]
Inductive json : Type :=
| JNull
| JBool (b : bool)
| JNum (q : Q)
| JStr (s : string)
| JArr (items : list json)
| JObj (fields : list (string * json)).

(** What [requests.post] met: no response at all, or a response with its
    status code and its body, [None] when the body is not JSON. *)
Inductive transport : Type :=
| NoResponse
| Response (status : nat) (body : option json).

Fixpoint assoc (k : string) (fields : list (string * json)) : option json :=
  match fields with
  | [] => None
  | (k', v) :: rest => if String.eqb k k' then Some v else assoc k rest
  end.

(** [j[key]] for a string key. *)
Definition getitem_key (j : json) (key : string) : result json :=
  match j with
  | JObj fields =>
      match assoc key fields with
      | Some v => Ok v
      | None => Raise KeyError
      end
  | _ => Raise TypeError
  end.

(** [j[0]] *)
Definition getitem_0 (j : json) : result json :=
  match j with
  | JArr (x :: _) => Ok x
  | JArr [] => Raise IndexError
  | JStr (String c _) => Ok (JStr (String c EmptyString))
  | JStr EmptyString => Raise IndexError
  | JObj _ => Raise KeyError
  | _ => Raise TypeError
  end.

(** [j.strip()] *)
Definition json_strip (j : json) : result string :=
  match j with
  | JStr s => Ok (PyStr.strip s)
  | _ => Raise AttributeError
  end.

(** [response.raise_for_status()] *)
Definition raise_for_status (status : nat) : result unit :=
  if Nat.leb 400 status && Nat.ltb status 600 then Raise HTTPError else Ok tt.

(** The [try] block of [query_llm]. *)
Definition try_request (t : transport) : result string :=
  match t with
  | NoResponse => Raise ConnectionError
  | Response status body =>
      rbind (raise_for_status status) (fun _ =>
      rbind (match body with Some j => Ok j | None => Raise JSONDecodeError end)
        (fun j =>
      rbind (getitem_key j "choices") (fun choices =>
      rbind (getitem_0 choices) (fun first =>
      rbind (getitem_key first "message") (fun message =>
      rbind (getitem_key message "content") (fun content =>
      json_strip content))))))
  end.

Definition fallback : string := "A default music prompt.".

(** [LLMPromptGenerator.query_llm]; [post] is what the transport does
    with the request that carries the instruction [prompt].
    [except Exception] turns every exception of the [try] block into the
    fallback text. *)
Definition query_llm (post : string -> transport) (prompt : string) : result string :=
  match try_request (post prompt) with
  | Ok llm_response => Ok llm_response
  | Raise _ => Ok fallback
  | OutOfFuel => OutOfFuel
  end.

(* ===================================================================== *)
(** ** The environment and the state of a run

    Everything the code takes from outside is an input of the model: what
    the transport does with the i-th request, what the random generator
    draws, and what the i-th evaluation returns and how long it takes.
    The state counts how much of each has been consumed, next to the
    progress bookkeeping of [MusicOptimizationProblem]. *)
(* ===================================================================== *)

(** A fitness score.  [None] is the unset (NaN) score of a solution that
    has not been evaluated. *)
Definition score : Type := option Q.

Record World : Type := {
  transport_of : nat -> string -> transport;  (* the i-th request, by instruction *)
  rand_of : nat -> Q;                  (* the i-th [np.random.rand()] *)
  perm_of : nat -> nat -> list nat;    (* the i-th draw: a shuffle of [range(n)] *)
  fitness_of : nat -> string -> result Q;  (* the i-th evaluation *)
  duration_of : nat -> Q;              (* the seconds the i-th evaluation takes *)
  weights_ok : list score -> spec_float -> nat -> bool
    (* [np.random.choice] accepts softmax(fitness / temperature) as the
       weights of a sample of this size *)
}.

(** The attributes [sample_time], [current_time], [generated] and
    [total_generated] of [MusicOptimizationProblem]. *)
Record Progress : Type := {
  sample_time : Q;
  current_time : Q;
  generated : nat;
  total_generated : nat
}.

Record St : Type := {
  calls : nat;        (* requests sent to the oracle so far *)
  draws : nat;        (* draws taken from the random generator so far *)
  evaluated : nat;    (* evaluations run so far *)
  progress : Progress
}.

(** The bookkeeping of a new problem. *)
Definition init_progress : Progress :=
  {| sample_time := 0%Q; current_time := 0%Q; generated := 0; total_generated := 0 |}.

(** The state at the start of a run. *)
Definition init_St : St :=
  {| calls := 0; draws := 0; evaluated := 0; progress := init_progress |}.

(** A computation reads the state and returns a value with the new state,
    raises, or is still running when the fuel is spent. *)
Definition M (A : Type) : Type := St -> result (A * St).

Definition ret {A} (a : A) : M A := fun st => Ok (a, st).

Definition bind {A B} (m : M A) (k : A -> M B) : M B :=
  fun st =>
    match m st with
    | Ok (a, st') => k a st'
    | Raise e => Raise e
    | OutOfFuel => OutOfFuel
    end.

Definition raise {A} (e : exn) : M A := fun _ => Raise e.

Definition lift {A} (r : result A) : M A :=
  fun st => match r with
            | Ok a => Ok (a, st)
            | Raise e => Raise e
            | OutOfFuel => OutOfFuel
            end.

Declare Scope monad_scope.
Delimit Scope monad_scope with monad.
Notation "x <- m ;; k" := (bind m (fun x => k))
  (at level 61, m at next level, right associativity) : monad_scope.
Local Open Scope monad_scope.

Fixpoint mapM {A B} (f : A -> M B) (l : list A) : M (list B) :=
  match l with
  | [] => ret []
  | a :: rest => b <- f a ;; bs <- mapM f rest ;; ret (b :: bs)
  end.

(** [l[i]] for a position [i]. *)
Definition getitem {A} (l : list A) (i : nat) : result A :=
  match nth_error l i with
  | Some a => Ok a
  | None => Raise IndexError
  end.

(** [[g(l[i]) for i in idx]] *)
Definition select {A B} (g : A -> B) (l : list A) (idx : list nat) : M (list B) :=
  mapM (fun i => x <- lift (getitem l i) ;; ret (g x)) idx.

(** [l[:n]] for an integer [n]: a negative [n] counts from the end. *)
Definition slice_to {A} (n : Z) (l : list A) : list A :=
  if (0 <=? n)%Z then firstn (Z.to_nat n) l
  else firstn (length l - Z.to_nat (- n)) l.

(** *** Floating-point numbers

    A Python [float] is a binary64 number: a [spec_float] of precision 53
    and exponent bound 1024, with the operations of IEEE 754 as the
    Standard Library specifies them. *)

Definition float : Type := spec_float.

(** The float nearest to [m * 2^e]. *)
Definition float_lit (m e : Z) : float := binary_normalize 53 1024 m e false.

(** [float(z)] for an integer, as the multiplication of an [int] by a
    [float] converts it: the nearest float, or an [OverflowError]. *)
Definition float_of_int (z : Z) : result float :=
  match binary_normalize 53 1024 z 0 false with
  | S754_infinity _ => Raise OverflowError
  | x => Ok x
  end.

(** [x * y] on floats. *)
Definition float_mul (x y : float) : float := SFmul 53 1024 x y.

(** [x == 0] *)
Definition float_is_zero (x : float) : bool :=
  match x with
  | S754_zero _ => true
  | _ => false
  end.

(** [int(x)]: truncation towards zero; an infinity is an
    [OverflowError], a NaN a [ValueError]. *)
Definition py_int (x : float) : result Z :=
  match x with
  | S754_zero _ => Ok 0%Z
  | S754_finite sign m e =>
      let magnitude := if (0 <=? e)%Z then (Zpos m * 2 ^ e)%Z
                       else (Zpos m / 2 ^ (- e))%Z in
      Ok (if sign then (- magnitude)%Z else magnitude)
  | S754_infinity _ => Raise OverflowError
  | S754_nan => Raise ValueError
  end.

(** The exact value of a float that is a number. *)
Definition float_value (x : float) : Q :=
  match x with
  | S754_finite sign m e =>
      let magnitude := if (0 <=? e)%Z then inject_Z (Zpos m * 2 ^ e)
                       else Qmake (Zpos m) (Z.to_pos (2 ^ (- e))) in
      if sign then Qopp magnitude else magnitude
  | _ => 0%Q
  end.

Section Run.

Variable W : World.

(** One call of [query_llm]: the request is the next one the transport
    sees. *)
Definition ask (prompt : string) : M string :=
  fun st =>
    match query_llm (transport_of W (calls st)) prompt with
    | Ok r => Ok (r, {| calls := S (calls st); draws := draws st;
                        evaluated := evaluated st; progress := progress st |})
    | Raise e => Raise e
    | OutOfFuel => OutOfFuel
    end.

(** [np.random.rand()] *)
Definition np_rand : M Q :=
  fun st => Ok (rand_of W (draws st),
                {| calls := calls st; draws := S (draws st);
                   evaluated := evaluated st; progress := progress st |}).

(** [np.random.choice(n, size, replace=False)]: the first [size] entries
    of a shuffle of [range(n)]; a sample larger than the population is a
    [ValueError]. *)
Definition choice_index (n size : nat) : M (list nat) :=
  fun st =>
    if Nat.ltb n size then Raise ValueError
    else Ok (firstn size (perm_of W (draws st) n),
             {| calls := calls st; draws := S (draws st);
                evaluated := evaluated st; progress := progress st |}).

(** [np.random.choice(a, size, replace=False).tolist()] *)
Definition choice {A} (a : list A) (size : nat) : M (list A) :=
  idx <- choice_index (length a) size ;;
  select (fun x => x) a idx.

(** The prompts of one answer, added to [prompts] one by one until
    [num_prompts] are there: the [for] loop of [generate_prompts] with its
    [break]. *)
Fixpoint collect (num_prompts : Z) (prompts answers : list string) : list string :=
  match answers with
  | [] => prompts
  | answer :: rest =>
      let prompts' :=
        match extract answer with
        | Some p => prompts ++ [p]
        | None => prompts
        end in
      if (num_prompts <=? Z.of_nat (length prompts'))%Z then prompts'
      else collect num_prompts prompts' rest
  end.

(** [str(n)] for an integer. *)
Definition decimal (n : Z) : string := NilZero.string_of_int (Z.to_int n).

(** The instruction of [generate_prompts]. *)
Definition generate_instruction (missing : Z) : string :=
  ("Generate " ++ decimal missing
   ++ " diverse prompts for generating music, they should span multiple generes, moods, ...")%string.

(** The [while] loop of [generate_prompts]. *)
Fixpoint generate_loop (fuel : nat) (num_prompts : Z) (prompts : list string)
  : M (list string) :=
  if (Z.of_nat (length prompts) <? num_prompts)%Z then
    match fuel with
    | O => fun _ => OutOfFuel
    | S fuel' =>
        answers <- ask (generate_instruction
                          (num_prompts - Z.of_nat (length prompts))) ;;
        if negb (Nat.eqb (PyStr.count open_tag answers)
                         (PyStr.count close_tag answers))
        then generate_loop fuel' num_prompts prompts
        else generate_loop fuel' num_prompts
               (collect num_prompts prompts (PyStr.split close_tag answers))
    end
  else ret prompts.

(** [LLMPromptGenerator.generate_prompts] *)
Definition generate_prompts (fuel : nat) (num_prompts : Z) : M (list string) :=
  generate_loop fuel num_prompts [].

End Run.

(* ===================================================================== *)
(** ** Ranking by fitness: [np.argsort] *)
(* ===================================================================== *)

(** The order in which [np.argsort] ranks scores: ascending, with the
    unset score (NaN) after every number. *)
Definition score_leb (a b : score) : bool :=
  match a, b with
  | Some x, Some y => Qle_bool x y
  | _, None => true
  | None, Some _ => false
  end.

Section Argsort.

Variable K : Type.
Variable leb : K -> K -> bool.

(** Insertion of an entry in front of the first one that is not below
    it; entries are (position, key). *)
Fixpoint insert (x : nat * K) (l : list (nat * K)) : list (nat * K) :=
  match l with
  | [] => [x]
  | y :: rest => if leb (snd x) (snd y) then x :: l else y :: insert x rest
  end.

Fixpoint isort (l : list (nat * K)) : list (nat * K) :=
  match l with
  | [] => []
  | x :: rest => insert x (isort rest)
  end.

(** The positions of [keys], ranked by key in ascending order. *)
Definition argsort_by (keys : list K) : list nat :=
  map fst (isort (combine (seq 0 (length keys)) keys)).

End Argsort.

(** [np.argsort(fitness)] *)
Definition argsort (fitness : list score) : list nat :=
  argsort_by score_leb fitness.

(** [SolutionBatch.argsort] of the optimisation library ranks the
    members of a batch from best to worst.  The problem is declared with
    [objective_sense="max"] ([MusicOptimizationProblem.__init__]), and
    [full_LLM_step] reads the first entry as the best of the population:
    the ranking is by descending score. *)
Definition batch_argsort (fitness : list score) : list nat :=
  argsort_by (fun a b => score_leb b a) fitness.

(* ===================================================================== *)
(** ** Configuration *)
(* ===================================================================== *)

(** [LLMPromptOperator]: the arities, the trigger probability and the
    instruction template of one operator stage.  A template is the
    function [prompt.format(prompts=...)] computes: from the numbered
    inputs to the instruction, or to the exception [str.format] raises
    on a template it cannot fill (a [KeyError] for another placeholder,
    an [IndexError] for a positional one, a [ValueError] for a single
    brace). *)
Record LLMPromptOperator : Type := {
  input : nat;
  output : nat;
  probability : Q;
  prompt : list string -> result string
}.

(** [searchConf].  The template [full_LLM_prompt] is the function
    [full_LLM_prompt.format(ranking=..., num_generate=...)] computes; the
    ranking it receives is the list of the report's lines: number, prompt
    and score; like [prompt], it returns the instruction or the exception
    of [str.format]. *)
Record searchConf : Type := {
  mode : string;
  population_size : nat;
  elites : float;
  novel_prompts : float;
  sample : bool;
  temperature : float;
  tournament_size : nat;
  LLM_genetic_operators : list LLMPromptOperator;
  full_LLM_prompt : list (nat * string * score) -> nat -> result string
}.

(** A member of the population: its value and its score. *)
Record Solution : Type := {
  values : string;
  evals : score
}.

Definition SolutionBatch : Type := list Solution.

(** [SolutionBatch.set_values]: the batch keeps its size; the new values
    replace the old ones slot by slot and every score becomes unset.  A
    sequence of another length does not fit the slots. *)
Definition set_values (batch : SolutionBatch) (new_values : list string)
  : result SolutionBatch :=
  if Nat.eqb (length new_values) (length batch)
  then Ok (map (fun v => {| values := v; evals := None |}) new_values)
  else Raise ValueError.

(* ===================================================================== *)
(** ** The operator stage and the search engine *)
(* ===================================================================== *)

Section Engine.

Variable W : World.

(** [SolutionBatch.argsort] of the population: the ranking the batch
    itself computes from its scores.  It belongs to the optimisation
    library, so the engine is parametrised by it; [batch_argsort] is the
    ranking of the library for this problem. *)
Variable population_argsort : list score -> list nat.

(** The text [f"\n{i+1}. {inputs[i]}"] of one input. *)
Definition numbered (i : nat) (text : string) : string :=
  (String (ascii_of_nat 10) (decimal (Z.of_nat (i + 1))) ++ ". " ++ text)%string.

(** The [while] loop of [LLMEvolutionOperator.apply]. *)
Fixpoint apply_loop (fuel : nat) (config : LLMPromptOperator) (inputs out : list string)
  : M (list string) :=
  if Nat.ltb (length out) (output config) then
    match fuel with
    | O => fun _ => OutOfFuel
    | S fuel' =>
        let prompts := map (fun i => numbered i (nth i inputs EmptyString))
                         (seq 0 (length inputs)) in
        LLM_prompt <- lift (prompt config prompts) ;;
        answers <- ask W LLM_prompt ;;
        let generated_prompts := parse_llm_response answers in
        apply_loop fuel' config inputs
          (out ++ firstn (output config - length out) generated_prompts)
    end
  else ret out.

(** [LLMEvolutionOperator.apply] *)
Definition apply (fuel : nat) (config : LLMPromptOperator) (inputs : list string)
  : M (list string) :=
  if negb (Nat.eqb (length inputs) (input config)) then raise AssertionError
  else
    u <- np_rand W ;;
    let execute := negb (Qle_bool (probability config) u) in
    if negb execute then choice W inputs (output config)
    else apply_loop fuel config inputs [].

(** The [for operator in self.operators] loop of [LLM_evolve_step]. *)
Fixpoint apply_all (fuel : nat) (operators : list LLMPromptOperator)
  (selected_population : list string) : M (list string) :=
  match operators with
  | [] => ret selected_population
  | operator :: rest =>
      selected <- apply fuel operator selected_population ;;
      apply_all fuel rest selected
  end.

Variable config : searchConf.

(** [PromptSearcher.sample_population], on one score per prompt.  With
    [sample] the draw is weighted by the softmax of fitness / temperature:
    [np.random.choice] raises a [ValueError] on weights it does not accept
    (a NaN, a sum that is not 1, fewer non-zero weights than the sample
    has members), on a negative size and on a sample larger than the
    population; the weights it accepts bear on how likely a group is, and
    the model takes the group from the shuffle drawn.  Without [sample]
    the scores are ranked by [np.argsort]. *)
Definition sample_population (population : list string) (fitness : list score)
  (n : Z) (sample : bool) : M (list string) :=
  if (n =? 0)%Z then ret []
  else if sample then
    (* one weight per prompt *)
    if (n <? 0)%Z then raise ValueError
    else if negb (Nat.eqb (length fitness) (length population)) then raise ValueError
    else if negb (weights_ok W fitness (temperature config) (Z.to_nat n))
    then raise ValueError
    else choice W population (Z.to_nat n)
  else
    let indices := argsort fitness in
    select (fun x => x) population (slice_to n indices).

(** [int(self.config.elites * self.config.population_size)] *)
Definition num_elites : result Z :=
  rbind (float_of_int (Z.of_nat (population_size config))) (fun size =>
  py_int (float_mul (elites config) size)).

(** [int(self.config.population_size * self.config.novel_prompts)] *)
Definition num_novel : result Z :=
  rbind (float_of_int (Z.of_nat (population_size config))) (fun size =>
  py_int (float_mul size (novel_prompts config))).

(** [PromptSearcher.get_elites] *)
Definition get_elites (population : SolutionBatch) : M (list string) :=
  if float_is_zero (elites config) then ret []
  else
    count <- lift num_elites ;;
    if sample config then
      sample_population (map values population) (map evals population)
        count (sample config)
    else
      let indices := population_argsort (map evals population) in
      let indices := slice_to count indices in
      select values population indices.

(** [PromptSearcher.get_novel_prompts] *)
Definition get_novel_prompts (fuel : nat) : M (list string) :=
  if float_is_zero (novel_prompts config) then ret []
  else
    count <- lift num_novel ;;
    generate_prompts W fuel count.

(** The [while] loop of [full_LLM_step]. *)
Fixpoint regenerate_loop (fuel : nat) (ranking : list (nat * string * score))
  (new_prompts : list string) : M (list string) :=
  if Nat.ltb (length new_prompts) (population_size config) then
    match fuel with
    | O => fun _ => OutOfFuel
    | S fuel' =>
        LLM_prompt <-
          lift (full_LLM_prompt config ranking
                  (population_size config - length new_prompts)) ;;
        answers <- ask W LLM_prompt ;;
        let generated_prompts := parse_llm_response answers in
        regenerate_loop fuel' ranking
          (new_prompts
             ++ firstn (population_size config - length new_prompts) generated_prompts)
    end
  else ret new_prompts.

(** [PromptSearcher.full_LLM_step].  The ranking report is read off the
    population entry by entry. *)
Definition full_LLM_step (fuel : nat) (population : SolutionBatch) : M SolutionBatch :=
  let indices := population_argsort (map evals population) in
  best_idx <- lift (getitem indices 0) ;;
  let pop_values := map values population in
  pop_evals <- select evals population (seq 0 (length indices)) ;;
  ranking <- mapM (fun i => v <- lift (getitem pop_values i) ;;
                            e <- lift (getitem pop_evals i) ;;
                            ret (i + 1, v, e)) indices ;;
  best <- lift (getitem pop_values best_idx) ;;
  elite <- get_elites population ;;
  novel <- get_novel_prompts fuel ;;
  new_prompts <- regenerate_loop fuel ranking (elite ++ novel) ;;
  lift (set_values population new_prompts).

(** [PromptSearcher.tournament_selection]; the number of contestants is
    the configured tournament size. *)
Definition tournament_selection (population : list string) (fitness : list score)
  (n : Z) : M (list string) :=
  selected_idx <- choice_index W (length population) (tournament_size config) ;;
  selected_population <- select (fun x => x) population selected_idx ;;
  selected_fitness <- select (fun x => x) fitness selected_idx ;;
  sample_population selected_population selected_fitness n (sample config).

(** The [while] loop of [LLM_evolve_step]. *)
Fixpoint evolve_loop (fuel : nat) (old_population : list string)
  (old_pop_evals : list score) (new_population : list string) : M (list string) :=
  if Nat.ltb (length new_population) (population_size config) then
    match fuel with
    | O => fun _ => OutOfFuel
    | S fuel' =>
        first <- lift (getitem (LLM_genetic_operators config) 0) ;;
        selected <- tournament_selection old_population old_pop_evals
                      (Z.of_nat (input first)) ;;
        selected <- apply_all fuel (LLM_genetic_operators config) selected ;;
        evolve_loop fuel' old_population old_pop_evals
          (new_population
             ++ firstn (population_size config - length new_population) selected)
    end
  else ret new_population.

(** [PromptSearcher.LLM_evolve_step] *)
Definition LLM_evolve_step (fuel : nat) (population : SolutionBatch) : M SolutionBatch :=
  elite <- get_elites population ;;
  novel <- get_novel_prompts fuel ;;
  let old_population := map values population in
  let old_pop_evals := map evals population in
  new_population <- evolve_loop fuel old_population old_pop_evals (elite ++ novel) ;;
  lift (set_values population new_population).

End Engine.

(* ===================================================================== *)
(** ** The evaluation problem: [MusicOptimizationProblem] *)
(* ===================================================================== *)

(** [evoConf], as far as the problem reads it. *)
Record evoConf : Type := {
  search : searchConf;
  max_seq_len : nat
}.

(** The conversion of a prompt: a tensor of [shape[0]] rows. *)
Definition tensor : Type := list (list Q).

(** [self.text_mode] *)
Definition text_mode (evo_config : evoConf) : bool :=
  String.eqb (mode (search evo_config)) "full LLM"
  || String.eqb (mode (search evo_config)) "LLM evolve".

(** The time bookkeeping of [_evaluate], once the evaluation has taken
    [generation_time] seconds; [generated] has been incremented already.
    Times are measured durations: they are kept as exact numbers, and the
    rounding of their sums and products is not part of the model. *)
Definition record_time (population_size : nat) (generation_time : Q) (p : Progress)
  : Progress :=
  let sample_time' :=
    if Qeq_bool (sample_time p) 0 then generation_time
    else (sample_time p * (9 # 10) + generation_time * (1 # 10))%Q in
  let current_time' := (current_time p + generation_time)%Q in
  if Nat.leb population_size (generated p) then
    {| sample_time := sample_time'; current_time := 0%Q; generated := 0;
       total_generated := total_generated p + population_size |}
  else
    {| sample_time := sample_time'; current_time := current_time';
       generated := generated p; total_generated := total_generated p |}.

(** [self.generated += 1] *)
Definition count_generated (p : Progress) : Progress :=
  {| sample_time := sample_time p; current_time := current_time p;
     generated := generated p + 1; total_generated := total_generated p |}.

Section Problem.

Variable W : World.
Variable evo_config : evoConf.

(** [music_generator.preprocess_text] and [get_embedding_size]: the
    conversion of prompts into tensors is the generator's. *)
Variable preprocess_text : list string -> nat -> list tensor.
Variable embedding_size : nat.

(** [MusicOptimizationProblem._evaluate].  The progress bar it prints
    divides by [population_size], which is a [ZeroDivisionError] for a
    population size of zero, once the fitness is there. *)
Definition _evaluate (solution : Solution) : M Solution :=
  fun st =>
    let counted := count_generated (progress st) in
    match fitness_of W (evaluated st) (values solution) with
    | Ok fitness =>
        let generation_time := duration_of W (evaluated st) in
        if Nat.eqb (population_size (search evo_config)) 0
        then Raise ZeroDivisionError
        else
          Ok ({| values := values solution; evals := Some fitness |},
              {| calls := calls st; draws := draws st;
                 evaluated := S (evaluated st);
                 progress := record_time (population_size (search evo_config))
                               generation_time counted |})
    | Raise e => Raise e
    | OutOfFuel => OutOfFuel
    end.

(** [Problem.evaluate] on a batch: every member in turn. *)
Definition evaluate (batch : SolutionBatch) : M SolutionBatch :=
  mapM _evaluate batch.

(** The [while] loop of [_fill]; [process] is what the mode does with a
    batch of prompts. *)
Fixpoint fill_loop {X : Type} (process : list string -> list X) (fuel fuel_inner : nat)
  (population : nat) (prompts : list string) (processed_prompts : list X)
  : M (list string * list X) :=
  if Nat.ltb (length processed_prompts) population then
    match fuel with
    | O => fun _ => OutOfFuel
    | S fuel' =>
        prompts' <- generate_prompts W fuel_inner (Z.of_nat population) ;;
        let processed := process prompts' in
        fill_loop process fuel' fuel_inner population prompts'
          (processed_prompts
             ++ firstn (population - length processed_prompts) processed)
    end
  else ret (prompts, processed_prompts).

(** [values.set_item(i, prompt)] on the slots of a batch. *)
Definition set_item {A} (slots : list A) (i : nat) (x : A) : result (list A) :=
  if Nat.ltb i (length slots)
  then Ok (firstn i slots ++ x :: skipn (S i) slots)
  else Raise IndexError.

Fixpoint set_items {A} (slots : list A) (i : nat) (xs : list A) : result (list A) :=
  match xs with
  | [] => Ok slots
  | x :: rest => rbind (set_item slots i x) (fun slots' => set_items slots' (S i) rest)
  end.

(** [_fill] in text mode, on the [population] slots of a new batch (a
    slot holds the empty text until it is set). *)
Definition _fill_text (fuel : nat) (population : nat) : M (list string) :=
  r <- fill_loop (fun prompts => prompts) fuel fuel population [] [] ;;
  lift (set_items (repeat EmptyString population) 0 (fst r)).

(** The filter of [_fill]: the conversions with [max_seq_len] rows. *)
Definition valid_length (processed : list tensor) : list tensor :=
  filter (fun prompt => Nat.eqb (length prompt) (max_seq_len evo_config)) processed.

(** Two tensors have the same rows, length by length. *)
Definition same_shape (a b : tensor) : bool :=
  if list_eq_dec Nat.eq_dec (map (@length Q) a) (map (@length Q) b) then true else false.

(** [torch.stack]: the tensors must be there and agree in shape. *)
Definition stack (ts : list tensor) : result (list tensor) :=
  match ts with
  | [] => Raise RuntimeError
  | t :: rest => if forallb (same_shape t) rest then Ok ts else Raise RuntimeError
  end.

(** [stacked.view(population, -1)]: one flat row per stacked tensor; the
    row length cannot be inferred for a tensor without entries. *)
Definition view (stacked : list tensor) : result (list (list Q)) :=
  let rows := map (@concat Q) stacked in
  if Nat.eqb (length (concat rows)) 0 then Raise RuntimeError else Ok rows.

(** [values.copy_(rows)] into a batch of rows of [solution_length]
    entries: a row takes a source row of its length, or a single entry
    repeated. *)
Definition copy_row (solution_length : nat) (flat : list Q) : result (list Q) :=
  if Nat.eqb (length flat) solution_length then Ok flat
  else match flat with
       | [x] => Ok (repeat x solution_length)
       | _ => Raise RuntimeError
       end.

Fixpoint copy_rows (solution_length : nat) (rows : list (list Q))
  : result (list (list Q)) :=
  match rows with
  | [] => Ok []
  | flat :: rest =>
      rbind (copy_row solution_length flat) (fun r =>
      rbind (copy_rows solution_length rest) (fun rs => Ok (r :: rs)))
  end.

(** [solution_length] of the problem in vector mode. *)
Definition solution_length : nat := max_seq_len evo_config * embedding_size.

(** The candidates [_fill] admits in vector mode. *)
Definition fill_candidates (fuel : nat) (population : nat) : M (list tensor) :=
  r <- fill_loop
         (fun prompts => valid_length (preprocess_text prompts (max_seq_len evo_config)))
         fuel fuel population [] [] ;;
  ret (snd r).

(** [_fill] in vector mode. *)
Definition _fill_vector (fuel : nat) (population : nat) : M (list (list Q)) :=
  processed_prompts <- fill_candidates fuel population ;;
  stacked <- lift (stack processed_prompts) ;;
  rows <- lift (view stacked) ;;
  lift (copy_rows solution_length rows).

(** [Problem.generate_batch] in text mode: a batch of [popsize] unscored
    members, filled by [_fill]. *)
Definition generate_batch (fuel : nat) (popsize : nat) : M SolutionBatch :=
  vs <- _fill_text fuel popsize ;;
  ret (map (fun v => {| values := v; evals := None |}) vs).

(** *** [PromptSearcher._step] *)

Variable population_argsort : list score -> list nat.

Definition _step (fuel : nat) (population : option SolutionBatch) : M SolutionBatch :=
  let config := search evo_config in
  batch <-
    match population with
    | None => generate_batch fuel (population_size config)
    | Some batch =>
        if String.eqb (mode config) "full LLM"
        then full_LLM_step W population_argsort config fuel batch
        else if String.eqb (mode config) "LLM evolve"
        then LLM_evolve_step W population_argsort config fuel batch
        else raise ValueError
    end ;;
  evaluate batch.

(** [n] steps from a searcher in state [population]. *)
Fixpoint run (fuel : nat) (n : nat) (population : option SolutionBatch)
  : M (option SolutionBatch) :=
  match n with
  | O => ret population
  | S n' => batch <- _step fuel population ;; run fuel n' (Some batch)
  end.

End Problem.


(* ===================================================================== *)
(** ** Vocabulary of the properties and a sample run *)
(* ===================================================================== *)

(** The first character of [s] is white space. *)
Definition head_space (s : string) : bool :=
  match s with
  | EmptyString => false
  | String c _ => PyStr.is_space c
  end.

(** The last character of [s] is white space. *)
Fixpoint last_space (s : string) : bool :=
  match s with
  | EmptyString => false
  | String c EmptyString => PyStr.is_space c
  | String _ s' => last_space s'
  end.

(** The state after one more request to the oracle. *)
Definition called (st : St) : St :=
  {| calls := S (calls st); draws := draws st;
     evaluated := evaluated st; progress := progress st |}.

(** The random generator draws what it is asked for: a shuffle of
    [range(n)], and a number in [0, 1). *)
Definition rng_ok (W : World) : Prop :=
  (forall i n, Permutation (perm_of W i n) (seq 0 n))
  /\ (forall i, (0 <= rand_of W i)%Q /\ (rand_of W i < 1)%Q).

(** The ways to take one entry out of a list: the entry and the rest. *)
Fixpoint selections (l : list nat) : list (nat * list nat) :=
  match l with
  | [] => []
  | x :: r => (x, r) :: map (fun yr => (fst yr, x :: snd yr)) (selections r)
  end.

(** The orderings of the [n] entries of [l]. *)
Fixpoint shuffles_of (n : nat) (l : list nat) : list (list nat) :=
  match n with
  | O => [[]]
  | S m => flat_map (fun xr => map (cons (fst xr)) (shuffles_of m (snd xr)))
             (selections l)
  end.

(** The shuffles of [range(n)]. *)
Definition shuffles (n : nat) : list (list nat) := shuffles_of n (seq 0 n).

(** [p] starts with [ps]. *)
Definition starts_with (ps p : list nat) : bool :=
  if list_eq_dec Nat.eq_dec (firstn (length ps) p) ps then true else false.

(** The number of entries of [l] that satisfy [f]. *)
Definition tally {A} (f : A -> bool) (l : list A) : nat := length (filter f l).

(** The state after one more draw from the random generator. *)
Definition drawn (st : St) : St :=
  {| calls := calls st; draws := S (draws st);
     evaluated := evaluated st; progress := progress st |}.

(** The gate of a stage does not fire on the draw [u]. *)
Definition gate_closed (config : LLMPromptOperator) (u : Q) : Prop :=
  Qle_bool (probability config) u = true.

(** [idx] ranks the positions of [fitness] in ascending order of score. *)
Definition ascending_ranking (fitness : list score) (idx : list nat) : Prop :=
  Permutation idx (seq 0 (length fitness))
  /\ StronglySorted
       (fun i j => score_leb (nth i fitness None) (nth j fitness None) = true) idx.

(** [idx] ranks the positions of [fitness] from best to worst: in
    descending order of score. *)
Definition best_first_ranking (fitness : list score) (idx : list nat) : Prop :=
  Permutation idx (seq 0 (length fitness))
  /\ StronglySorted
       (fun i j => score_leb (nth j fitness None) (nth i fitness None) = true) idx.

(** The content of a slot that no index reaches. *)
Definition unset : Solution := {| values := EmptyString; evals := None |}.

(** The bookkeeping of one [_evaluate] that takes [g] seconds. *)
Definition tick (population_size : nat) (g : Q) (p : Progress) : Progress :=
  record_time population_size g (count_generated p).

(** The bookkeeping of consecutive evaluations. *)
Definition ticks (population_size : nat) (gs : list Q) (p : Progress) : Progress :=
  fold_left (fun p g => tick population_size g p) gs p.

(** The sum of the measurements [gs]. *)
Definition Qsum (gs : list Q) : Q := fold_right Qplus 0%Q gs.

(** What a computation returns, without the state it leaves. *)
Definition returned {A} (r : result (A * St)) : result A :=
  match r with
  | Ok (a, _) => Ok a
  | Raise e => Raise e
  | OutOfFuel => OutOfFuel
  end.

(** Every answer of the oracle is balanced and carries a prompt. *)
Definition responsive (W : World) : Prop :=
  forall i instruction r,
    query_llm (transport_of W i) instruction = Ok r ->
    PyStr.count open_tag r = PyStr.count close_tag r
    /\ extract_all (PyStr.split close_tag r) <> [].


(** The fitness source returns a score for every solution. *)
Definition scoring (W : World) : Prop :=
  forall i solution, exists f, fitness_of W i solution = Ok f.

(** Every member has a score. *)
Definition scored (batch : SolutionBatch) : Prop :=
  Forall (fun s => evals s <> None) batch.

(** A well-formed answer of the transport carrying [text]. *)
Definition reply (text : string) : transport :=
  Response 200
    (Some (JObj [("choices",
                  JArr [JObj [("message", JObj [("content", JStr text)])]])])).

(** An environment: the oracle always answers with the same two prompts,
    the generator draws 1/2 and the reversed range, the score of a prompt
    is its length plus the number of the evaluation, which takes 2 s. *)
Definition demo_world : World :=
  {| transport_of := fun _ _ =>
       reply "1. <prompt> slow jazz </prompt> 2. <prompt> fast techno </prompt>";
     rand_of := fun _ => (1 # 2)%Q;
     perm_of := fun _ n => rev (seq 0 n);
     fitness_of := fun i s => Ok (inject_Z (Z.of_nat (String.length s + i)));
     duration_of := fun _ => 2%Q;
     weights_ok := fun _ _ _ => true |}.

(** A stage from three prompts to two that never triggers. *)
Definition demo_stage : LLMPromptOperator :=
  {| input := 3; output := 2; probability := 0%Q;
     prompt := fun prompts => Ok (String.concat "" prompts) |}.

(** A stage from one prompt to two that never triggers. *)
Definition demo_short_stage : LLMPromptOperator :=
  {| input := 1; output := 2; probability := 0%Q;
     prompt := fun prompts => Ok (String.concat "" prompts) |}.

(** A regeneration search over four prompts: two elites, one novel. *)
Definition demo_search : searchConf :=
  {| mode := "full LLM"; population_size := 4;
     elites := float_lit 1 (-1); novel_prompts := float_lit 1 (-2);
     sample := false; temperature := float_lit 1 0; tournament_size := 3;
     LLM_genetic_operators := [demo_stage];
     full_LLM_prompt :=
       fun ranking num_generate => Ok (decimal (Z.of_nat num_generate)) |}.

(** The problem configuration of the sample search. *)
Definition demo_evo : evoConf := {| search := demo_search; max_seq_len := 2 |}.

(** A scored population of four prompts. *)
Definition demo_population : SolutionBatch :=
  [ {| values := "a"; evals := Some 3%Q |};
    {| values := "b"; evals := Some 1%Q |};
    {| values := "c"; evals := Some 2%Q |};
    {| values := "d"; evals := Some (1 # 2)%Q |} ].

(** A converter to tensors of [rows] rows of two entries. *)
Definition demo_preprocess (prompts : list string) (rows : nat) : list tensor :=
  map (fun _ => repeat [1%Q; 2%Q] rows) prompts.

(** *** Vocabulary of the further properties *)

(** A text without white space at either end. *)
Definition trimmed (p : string) : Prop :=
  head_space p = false /\ last_space p = false.

(** From [st] to [st'] nothing happened but requests to the oracle. *)
Definition only_asked (st st' : St) : Prop :=
  draws st' = draws st /\ evaluated st' = evaluated st
  /\ progress st' = progress st /\ calls st <= calls st'.

(** No request gets an answer the client can read: the [try] block of
    [query_llm] raises every time. *)
Definition never_answers (W : World) : Prop :=
  forall i instruction, exists e,
    try_request (transport_of W i instruction) = Raise e.

(** A computation that is still running when the fuel is spent. *)
Definition still_running {A} (r : result A) : Prop := r = OutOfFuel.

(** A computation that does not raise. *)
Definition no_exception {A} (r : result A) : Prop := forall e, r <> Raise e.

(** The arities of a pipeline chain from a group of [size] prompts: every
    stage takes what the one before returns. *)
Fixpoint chained (operators : list LLMPromptOperator) (size : nat) : Prop :=
  match operators with
  | [] => True
  | operator :: rest => size = input operator /\ chained rest (output operator)
  end.

(** The size of the group a chained pipeline returns. *)
Definition final_size (operators : list LLMPromptOperator) (size : nat) : nat :=
  fold_left (fun _ operator => output operator) operators size.

(** A stage from two prompts to three that always triggers. *)
Definition demo_eager_stage : LLMPromptOperator :=
  {| input := 2; output := 3; probability := 1%Q;
     prompt := fun prompts => Ok (String.concat "" prompts) |}.

(** An evolution search whose tournament of two is smaller than the
    three inputs of its only stage. *)
Definition demo_narrow_search : searchConf :=
  {| mode := "LLM evolve"; population_size := 4;
     elites := float_lit 1 (-1); novel_prompts := float_lit 0 0;
     sample := false; temperature := float_lit 1 0; tournament_size := 2;
     LLM_genetic_operators := [demo_stage];
     full_LLM_prompt :=
       fun ranking num_generate => Ok (decimal (Z.of_nat num_generate)) |}.

(** A chat completion that carries [text]: a body of the shape
    [{"choices": [{"message": {"content": text}}, ...], ...}]. *)
Definition completion (body : json) (text : string) : Prop :=
  exists fields first_fields rest message_fields,
    body = JObj fields
    /\ assoc "choices" fields = Some (JArr (JObj first_fields :: rest))
    /\ assoc "message" first_fields = Some (JObj message_fields)
    /\ assoc "content" message_fields = Some (JStr text).

(** The status codes [raise_for_status] raises on. *)
Definition error_status (status : nat) : bool :=
  Nat.leb 400 status && Nat.ltb status 600.

(** A conversion that cuts every prompt down to no row at all. *)
Definition demo_empty_preprocess (prompts : list string) (rows : nat) : list tensor :=
  map (fun _ => []) prompts.

(** From [st] to [st'] nothing was evaluated: the evaluation counter and
    the progress bookkeeping are the same, and requests and draws were
    only added. *)
Definition quiet (st st' : St) : Prop :=
  evaluated st' = evaluated st /\ progress st' = progress st
  /\ calls st <= calls st' /\ draws st <= draws st'.

(** A computation that evaluates nothing, from whatever state. *)
Definition quiet_run {A} (m : M A) : Prop :=
  forall st r st', m st = Ok (r, st') -> quiet st st'.

(** A search over ten prompts with the elite fraction 0.7: the float
    nearest to 7/10, which lies below it. *)
Definition demo_rounding_search : searchConf :=
  {| mode := "full LLM"; population_size := 10;
     elites := float_lit 6305039478318694 (-53); novel_prompts := float_lit 0 0;
     sample := false; temperature := float_lit 1 0; tournament_size := 3;
     LLM_genetic_operators := [];
     full_LLM_prompt :=
       fun ranking num_generate => Ok (decimal (Z.of_nat num_generate)) |}.

(** A search over fifty prompts with the elite fraction 0.58: the float
    nearest to 58/100. *)
Definition demo_truncating_search : searchConf :=
  {| mode := "full LLM"; population_size := 50;
     elites := float_lit 5224175567749775 (-53); novel_prompts := float_lit 0 0;
     sample := false; temperature := float_lit 1 0; tournament_size := 3;
     LLM_genetic_operators := [];
     full_LLM_prompt :=
       fun ranking num_generate => Ok (decimal (Z.of_nat num_generate)) |}.

(** A scored population of ten prompts, the i-th with score i. *)
Definition demo_ten : SolutionBatch :=
  map (fun i => {| values := decimal (Z.of_nat i);
                   evals := Some (inject_Z (Z.of_nat i)) |}) (seq 0 10).

(** The template of a stage can be filled, whatever the inputs. *)
Definition stage_formats (config : LLMPromptOperator) : Prop :=
  forall prompts, exists instruction, prompt config prompts = Ok instruction.

(** The template of the regeneration step can be filled. *)
Definition report_formats (config : searchConf) : Prop :=
  forall ranking num_generate, exists instruction,
    full_LLM_prompt config ranking num_generate = Ok instruction.

(** The numbered inputs a stage hands to its template. *)
Definition listing (inputs : list string) : list string :=
  map (fun i => numbered i (nth i inputs EmptyString)) (seq 0 (length inputs)).

(** An environment in which no request is answered. *)
Definition silent_world : World :=
  {| transport_of := fun _ _ => NoResponse;
     rand_of := rand_of demo_world;
     perm_of := perm_of demo_world;
     fitness_of := fitness_of demo_world;
     duration_of := duration_of demo_world;
     weights_ok := weights_ok demo_world |}.

(** A stage whose template has a placeholder that is never given. *)
Definition demo_broken_stage : LLMPromptOperator :=
  {| input := 2; output := 3; probability := 1%Q;
     prompt := fun prompts => Raise KeyError |}.




(* ===================================================================== *)
(** * Properties *)
(* ===================================================================== *)

(** ** Parsing the oracle's answers *)

Lemma lstrip_head s : head_space (PyStr.lstrip s) = false.
Proof.
  induction s as [|c s IH]; simpl; trivial.
  destruct (PyStr.is_space c) eqn:E; simpl; auto.
Qed.

Lemma rstrip_last s : last_space (PyStr.rstrip s) = false.
Proof.
  induction s as [|c s IH]; simpl; trivial.
  destruct (PyStr.rstrip s) as [|d r] eqn:E.
  - destruct (PyStr.is_space c) eqn:Ec; simpl; trivial.
  - exact IH.
Qed.

Lemma rstrip_head s : head_space s = false -> head_space (PyStr.rstrip s) = false.
Proof.
  destruct s as [|c s]; simpl; trivial.
  intros Hc. destruct (PyStr.rstrip s); [rewrite Hc|]; simpl; trivial.
Qed.

Lemma lstrip_fixed s : head_space s = false -> PyStr.lstrip s = s.
Proof.
  destruct s as [|c s]; simpl; trivial.
  intros ->. reflexivity.
Qed.

Lemma rstrip_fixed s : last_space s = false -> PyStr.rstrip s = s.
Proof.
  induction s as [|c s IH]; trivial.
  destruct s as [|d s'].
  - simpl. intros ->. reflexivity.
  - intros H. change (last_space (String d s') = false) in H.
    specialize (IH H).
    change (PyStr.rstrip (String c (String d s')))
      with (match PyStr.rstrip (String d s') with
            | EmptyString =>
                if PyStr.is_space c then EmptyString else String c EmptyString
            | r => String c r
            end).
    rewrite IH. reflexivity.
Qed.

Lemma strip_trimmed s :
  head_space (PyStr.strip s) = false /\ last_space (PyStr.strip s) = false.
Proof.
  unfold PyStr.strip. split.
  - apply rstrip_head, lstrip_head.
  - apply rstrip_last.
Qed.

Lemma strip_fixed s :
  head_space s = false -> last_space s = false -> PyStr.strip s = s.
Proof.
  intros Hh Hl. unfold PyStr.strip. rewrite (lstrip_fixed _ Hh).
  apply rstrip_fixed, Hl.
Qed.

Lemma extract_trimmed answer p :
  extract answer = Some p -> head_space p = false /\ last_space p = false.
Proof.
  unfold extract. destruct (PyStr.contains open_tag answer); [|discriminate].
  destruct (PyStr.find open_tag answer); [|discriminate].
  intros [= <-]. apply strip_trimmed.
Qed.

Lemma extract_all_In answers p :
  In p (extract_all answers) -> exists a, In a answers /\ extract a = Some p.
Proof.
  induction answers as [|a rest IH]; simpl; [tauto|].
  destruct (extract a) as [q|] eqn:E.
  - intros [<- | H].
    + exists a. auto.
    + destruct (IH H) as (b & Hb & Eb). exists b. auto.
  - intros H. destruct (IH H) as (b & Hb & Eb). exists b. auto.
Qed.

Lemma parse_In response p :
  In p (parse_llm_response response) ->
  exists a, In a (PyStr.split close_tag response) /\ extract a = Some p.
Proof.
  unfold parse_llm_response.
  destruct (negb _); [intros []|]. apply extract_all_In.
Qed.

(** C4: a response whose numbers of opening and closing tags differ parses
    to the empty list; the balanced two-prompt response of the
    specification parses to its two prompts, the unbalanced one to
    nothing. *)
Theorem parse_unbalanced_is_empty :
  (forall response,
      PyStr.count open_tag response <> PyStr.count close_tag response ->
      parse_llm_response response = [])
  /\ parse_llm_response "<prompt>A</prompt><prompt>B</prompt>" = ["A"; "B"]
  /\ parse_llm_response "<prompt>A</prompt><prompt>B" = [].
Proof.
  split; [|split; reflexivity].
  intros response Hne. unfold parse_llm_response.
  destruct (Nat.eqb_spec (PyStr.count open_tag response)
                         (PyStr.count close_tag response)) as [E|_].
  - contradiction.
  - reflexivity.
Qed.

Lemma parse_unbalanced_is_empty_witness :
  PyStr.count open_tag "<prompt>A</prompt><prompt>B"
    <> PyStr.count close_tag "<prompt>A</prompt><prompt>B"
  /\ parse_llm_response "<prompt>A</prompt><prompt>B" = [].
Proof.
  split.
  - vm_compute. discriminate.
  - apply (proj1 parse_unbalanced_is_empty). vm_compute. discriminate.
Defined.

(** C10: the acceptance check of the parser compares the two tag counts
    and nothing else: whenever they agree the response is split at the
    closing tags and every piece with an opening tag yields a prompt,
    whatever the order of the tags, so a closing tag in front of an
    opening one is accepted; and every prompt the parser returns has no
    white space left at either end. *)
Theorem parse_counts_only_and_strips :
  parse_llm_response "</prompt><prompt>A" = ["A"]
  /\ (forall response,
         PyStr.count open_tag response = PyStr.count close_tag response ->
         parse_llm_response response
         = extract_all (PyStr.split close_tag response))
  /\ (forall response p,
         In p (parse_llm_response response) ->
         head_space p = false /\ last_space p = false /\ PyStr.strip p = p).
Proof.
  split; [reflexivity|]. split.
  - intros response E. unfold parse_llm_response.
    rewrite E, Nat.eqb_refl. reflexivity.
  - intros response p Hin.
    destruct (parse_In _ _ Hin) as (a & _ & Ea).
    destruct (extract_trimmed _ Ea) as [Hh Hl].
    auto using strip_fixed.
Qed.

Lemma parse_counts_only_and_strips_witness :
  In "A b" (parse_llm_response "1. <prompt>  A b  </prompt> 2. <prompt> c </prompt>")
  /\ PyStr.strip "A b" = "A b".
Proof.
  split.
  - vm_compute. left. reflexivity.
  - apply (proj2 (proj2 parse_counts_only_and_strips)
             "1. <prompt>  A b  </prompt> 2. <prompt> c </prompt>" "A b").
    vm_compute. left. reflexivity.
Defined.

(** ** The oracle client never raises *)

Ltac break_match :=
  match goal with
  | |- context [match ?x with _ => _ end] => destruct x eqn:?
  | H : context [match ?x with _ => _ end] |- _ => destruct x eqn:?
  end.

Lemma try_request_returns_or_raises t : try_request t <> OutOfFuel.
Proof.
  unfold try_request, rbind, raise_for_status, getitem_key, getitem_0, json_strip.
  repeat (break_match; try congruence).
Qed.

Lemma query_llm_cases post prompt :
  match try_request (post prompt) with
  | Ok r => query_llm post prompt = Ok r
  | _ => query_llm post prompt = Ok fallback
  end.
Proof.
  unfold query_llm.
  destruct (try_request (post prompt)) eqn:E; trivial.
  exfalso. exact (try_request_returns_or_raises _ E).
Qed.

Lemma ask_returns W prompt st :
  exists response, ask W prompt st = Ok (response, called st)
                   /\ query_llm (transport_of W (calls st)) prompt = Ok response.
Proof.
  unfold ask.
  pose proof (query_llm_cases (transport_of W (calls st)) prompt) as H.
  destruct (try_request _); rewrite H; eexists; split; reflexivity.
Qed.

(** C7: whatever the instruction and whatever the transport does with the
    request, [query_llm] returns a text and does not raise; when the
    request, the status check or the decoding of the answer raises, the
    text is the fixed fallback, and the caller, which sees the returned
    text only, goes on. *)
Theorem query_llm_never_raises :
  forall (post : string -> transport) (prompt : string),
    (exists response, query_llm post prompt = Ok response)
    /\ (forall e, try_request (post prompt) = Raise e ->
                  query_llm post prompt = Ok fallback)
    /\ (forall r, try_request (post prompt) = Ok r ->
                  query_llm post prompt = Ok r)
    /\ (forall W st, transport_of W (calls st) = post ->
                     exists response, ask W prompt st = Ok (response, called st)).
Proof.
  intros post prompt.
  pose proof (query_llm_cases post prompt) as H.
  split; [|split; [|split]].
  - destruct (try_request (post prompt)); eauto.
  - intros e E. rewrite E in H. exact H.
  - intros r E. rewrite E in H. exact H.
  - intros W st <-. destruct (ask_returns W prompt st) as (r & Hr & _). eauto.
Qed.

Lemma query_llm_never_raises_witness :
  try_request (Response 503 None) = Raise HTTPError
  /\ query_llm (fun _ => Response 503 None) "Generate 2 prompts" = Ok fallback.
Proof.
  split.
  - reflexivity.
  - apply (proj1 (proj2 (query_llm_never_raises (fun _ => Response 503 None)
                           "Generate 2 prompts")) HTTPError).
    reflexivity.
Defined.

(** ** Reasoning about computations *)

Lemma bind_Ok {A B} (m : M A) (k : A -> M B) st b st' :
  bind m k st = Ok (b, st') ->
  exists a st1, m st = Ok (a, st1) /\ k a st1 = Ok (b, st').
Proof.
  unfold bind. destruct (m st) as [[a st1]| |]; try discriminate. eauto.
Qed.

Lemma lift_Ok {A} (r : result A) st a st' :
  lift r st = Ok (a, st') -> r = Ok a /\ st' = st.
Proof.
  unfold lift. destruct r; try discriminate. intros [= -> ->]. auto.
Qed.

Lemma ret_Ok {A} (a : A) st b st' : ret a st = Ok (b, st') -> b = a /\ st' = st.
Proof. unfold ret. intros [= -> ->]. auto. Qed.

(** Inversion of a completed computation, step by step. *)
Ltac inv_run :=
  repeat match goal with
    | H : bind _ _ _ = Ok _ |- _ =>
        let a := fresh "a" in let st := fresh "st" in
        let H1 := fresh "Hrun" in let H2 := fresh "Hrun" in
        apply bind_Ok in H; destruct H as (a & st & H1 & H2)
    | H : lift _ _ = Ok _ |- _ =>
        let H1 := fresh "Hval" in
        apply lift_Ok in H; destruct H as [H1 ->]
    | H : ret _ _ = Ok _ |- _ =>
        apply ret_Ok in H; destruct H as [-> ->]
    | H : raise _ _ = Ok _ |- _ => discriminate H
    end.

Lemma getitem_Ok {A} (l : list A) i a d :
  getitem l i = Ok a -> i < length l /\ nth i l d = a.
Proof.
  unfold getitem. destruct (nth_error l i) eqn:E; [|discriminate].
  intros [= ->]. split.
  - apply nth_error_Some. congruence.
  - apply nth_error_nth. exact E.
Qed.

Lemma getitem_nth {A} (l : list A) i d : i < length l -> getitem l i = Ok (nth i l d).
Proof.
  intros Hi. unfold getitem.
  destruct (nth_error l i) eqn:E.
  - f_equal. symmetry. apply nth_error_nth. exact E.
  - apply nth_error_None in E. lia.
Qed.

Lemma select_ok {A B} (g : A -> B) (l : list A) d idx st :
  Forall (fun i => i < length l) idx ->
  select g l idx st = Ok (map (fun i => g (nth i l d)) idx, st).
Proof.
  unfold select. induction 1 as [|i idx Hi _ IH]; [reflexivity|].
  cbn [mapM map]. unfold bind, lift, ret in *.
  rewrite (getitem_nth l d Hi), IH. reflexivity.
Qed.

Lemma select_Ok {A B} (g : A -> B) (l : list A) d idx st r st' :
  select g l idx st = Ok (r, st') ->
  st' = st /\ Forall (fun i => i < length l) idx
  /\ r = map (fun i => g (nth i l d)) idx.
Proof.
  unfold select. revert r st'.
  induction idx as [|i idx IH]; cbn [mapM map]; intros r st' H.
  - inv_run. auto.
  - apply bind_Ok in H as (b & st1 & H1 & H2).
    apply bind_Ok in H1 as (x & st2 & H1 & H3).
    apply bind_Ok in H2 as (bs & st3 & H2 & H4).
    inv_run. destruct (getitem_Ok _ _ d Hval) as [Hi <-].
    destruct (IH _ _ H2) as (-> & Hall & ->). auto.
Qed.

Lemma select_length {A B} (g : A -> B) (l : list A) idx st r st' :
  select g l idx st = Ok (r, st') -> length r = length idx.
Proof.
  destruct l as [|d l].
  - destruct idx as [|i idx]; unfold select; cbn [mapM]; intros H; inv_run; trivial.
    destruct i; discriminate.
  - intros H. destruct (select_Ok _ _ d _ _ H) as (_ & _ & ->).
    apply length_map.
Qed.

(** ** Counts of elites and of novel prompts *)

Lemma py_int_of_zero_product x y k :
  float_is_zero x = true \/ float_is_zero y = true ->
  py_int (float_mul x y) = Ok k -> k = 0%Z.
Proof.
  unfold float_mul.
  intros [H|H]; destruct x, y; try discriminate H; cbn [SFmul py_int];
    intros E; try discriminate E; injection E as <-; reflexivity.
Qed.

Lemma generate_loop_eq W fuel num prompts :
  generate_loop W fuel num prompts =
  if (Z.of_nat (length prompts) <? num)%Z then
    match fuel with
    | O => fun _ => OutOfFuel
    | S fuel' =>
        bind (ask W (generate_instruction (num - Z.of_nat (length prompts))))
          (fun answers =>
             if negb (Nat.eqb (PyStr.count open_tag answers)
                              (PyStr.count close_tag answers))
             then generate_loop W fuel' num prompts
             else generate_loop W fuel' num
                    (collect num prompts (PyStr.split close_tag answers)))
    end
  else ret prompts.
Proof. destruct fuel; reflexivity. Qed.

Lemma collect_bounds num answers prompts :
  (Z.of_nat (length prompts) < num)%Z ->
  length prompts <= length (collect num prompts answers)
  /\ (Z.of_nat (length (collect num prompts answers)) <= num)%Z.
Proof.
  revert prompts. induction answers as [|a rest IH]; intros prompts Hlt; simpl.
  - lia.
  - set (prompts' := match extract a with
                     | Some p => prompts ++ [p]
                     | None => prompts
                     end).
    assert (Hlen : length prompts <= length prompts' <= S (length prompts)).
    { subst prompts'. destruct (extract a); [rewrite length_app; simpl|]; lia. }
    destruct (Z.leb_spec num (Z.of_nat (length prompts'))) as [Hge|Hlt'].
    + lia.
    + destruct (IH prompts' Hlt'). lia.
Qed.

Lemma generate_loop_length W num fuel :
  forall prompts st r st',
    (Z.of_nat (length prompts) <= num)%Z ->
    generate_loop W fuel num prompts st = Ok (r, st') ->
    Z.of_nat (length r) = num.
Proof.
  induction fuel as [|fuel IH]; intros prompts st r st' Hle;
    rewrite generate_loop_eq;
    destruct (Z.ltb_spec (Z.of_nat (length prompts)) num) as [Hlt|Hge].
  - discriminate.
  - intros H. inv_run. lia.
  - intros H. apply bind_Ok in H as (answers & st1 & _ & H).
    destruct (negb _).
    + eapply IH; eauto.
    + eapply IH; [|exact H]. apply collect_bounds. exact Hlt.
  - intros H. inv_run. lia.
Qed.

Lemma generate_prompts_nothing W fuel num st :
  (num <= 0)%Z -> generate_prompts W fuel num st = Ok ([], st).
Proof.
  intros H. unfold generate_prompts. rewrite generate_loop_eq.
  destruct (Z.ltb_spec (Z.of_nat (length (@nil string))) num) as [Hlt|_].
  - simpl in Hlt. lia.
  - reflexivity.
Qed.

Lemma choice_index_Ok W n size st idx st' :
  choice_index W n size st = Ok (idx, st') ->
  size <= n /\ idx = firstn size (perm_of W (draws st) n)
  /\ calls st' = calls st /\ draws st' = S (draws st).
Proof.
  unfold choice_index. destruct (Nat.ltb_spec n size); [discriminate|].
  intros [= <- <-]. auto.
Qed.

Lemma choice_Ok {A} W (a : list A) size st r st' :
  rng_ok W ->
  choice W a size st = Ok (r, st') ->
  length r = size /\ calls st' = calls st.
Proof.
  intros [Hperm _] H. unfold choice in H.
  apply bind_Ok in H as (idx & st1 & H1 & H2).
  apply choice_index_Ok in H1 as (Hsize & -> & Hcalls & _).
  pose proof (select_length _ _ _ _ H2) as Hlen.
  assert (st' = st1) as ->.
  { destruct a as [|d a].
    - revert H2. destruct (firstn size _) as [|i idx]; unfold select; cbn [mapM];
        intros H2; inv_run; trivial. destruct i; discriminate.
    - apply (select_Ok _ _ d) in H2. tauto. }
  split; [|exact Hcalls].
  rewrite Hlen, length_firstn, (Permutation_length (Hperm _ _)), length_seq. lia.
Qed.

Lemma select_state {A B} (g : A -> B) (l : list A) idx st r st' :
  select g l idx st = Ok (r, st') -> st' = st.
Proof.
  unfold select. revert r st'.
  induction idx as [|i idx IH]; cbn [mapM]; intros r st' H.
  - inv_run. trivial.
  - apply bind_Ok in H as (b & st1 & H1 & H2).
    apply bind_Ok in H1 as (x & st2 & H1 & H3).
    apply bind_Ok in H2 as (bs & st3 & H2 & H4).
    inv_run. eauto.
Qed.

Lemma slice_to_nonneg {A} (n : Z) (l : list A) :
  (0 <= n)%Z -> slice_to n l = firstn (Z.to_nat n) l.
Proof.
  intros H. unfold slice_to. destruct (Z.leb_spec 0 n); [reflexivity|lia].
Qed.

Lemma sample_population_Ok W config population fitness n smp st r st' :
  rng_ok W -> (0 <= n)%Z ->
  (smp = false -> Z.to_nat n <= length fitness) ->
  sample_population W config population fitness n smp st = Ok (r, st') ->
  Z.of_nat (length r) = n /\ calls st' = calls st.
Proof.
  intros Hrng Hn Hfit. unfold sample_population.
  destruct (Z.eqb_spec n 0) as [->|Hn0].
  - intros H. inv_run. auto.
  - destruct smp.
    + destruct (Z.ltb_spec n 0); [discriminate|].
      destruct (negb (Nat.eqb _ _)); [discriminate|].
      destruct (negb (weights_ok _ _ _ _)); [discriminate|].
      intros Hrun. apply (choice_Ok _ _ _ Hrng) in Hrun as [Hlen Hcalls].
      split; [lia|exact Hcalls].
    + intros H. pose proof (select_length _ _ _ _ H) as Hlen.
      apply select_state in H as ->. split; [|reflexivity].
      rewrite Hlen, (slice_to_nonneg _ Hn), length_firstn.
      unfold argsort, argsort_by. rewrite length_map.
      assert (Hs : forall l : list (nat * score),
                 length (isort score_leb l) = length l).
      { induction l as [|x l IHl]; simpl; trivial.
        rewrite <- IHl. generalize (isort score_leb l) as s.
        induction s as [|y s IHs]; simpl; trivial.
        destruct (score_leb (snd x) (snd y)); simpl; auto. }
      rewrite Hs, length_combine, length_seq. specialize (Hfit eq_refl). lia.
Qed.

Section Counts.

Variable W : World.
Variable population_argsort : list score -> list nat.
Variable config : searchConf.

Lemma num_elites_of_zero k :
  float_is_zero (elites config) = true -> num_elites config = Ok k -> k = 0%Z.
Proof.
  unfold num_elites. intros Hz.
  destruct (float_of_int (Z.of_nat (population_size config))) as [size| |];
    [|discriminate|discriminate].
  cbn [rbind]. apply py_int_of_zero_product. left. exact Hz.
Qed.

Lemma num_novel_of_zero k :
  float_is_zero (novel_prompts config) = true -> num_novel config = Ok k ->
  k = 0%Z.
Proof.
  unfold num_novel. intros Hz.
  destruct (float_of_int (Z.of_nat (population_size config))) as [size| |];
    [|discriminate|discriminate].
  cbn [rbind]. apply py_int_of_zero_product. right. exact Hz.
Qed.

Lemma sample_population_sampled population fitness n st r st' :
  rng_ok W ->
  sample_population W config population fitness n true st = Ok (r, st') ->
  Z.of_nat (length r) = n /\ calls st' = calls st.
Proof.
  intros Hrng. unfold sample_population.
  destruct (Z.eqb_spec n 0) as [->|Hn0].
  - intros H. inv_run. auto.
  - destruct (Z.ltb_spec n 0); [discriminate|].
    destruct (negb (Nat.eqb _ _)); [discriminate|].
    destruct (negb (weights_ok _ _ _ _)); [discriminate|].
    intros Hrun. apply (choice_Ok _ _ _ Hrng) in Hrun as [Hlen Hcalls].
    split; [lia|exact Hcalls].
Qed.

Lemma get_elites_count population k st r st' :
  rng_ok W ->
  num_elites config = Ok k ->
  (sample config = false -> (0 <= k <= Z.of_nat (population_size config))%Z) ->
  length population = population_size config ->
  length (population_argsort (map evals population)) = length population ->
  get_elites W population_argsort config population st = Ok (r, st') ->
  Z.of_nat (length r) = k /\ calls st' = calls st.
Proof.
  intros Hrng Hk Hbounds Hpop Hrank.
  unfold get_elites.
  destruct (float_is_zero (elites config)) eqn:E.
  - intros H. inv_run. split; [|reflexivity].
    rewrite (num_elites_of_zero E Hk). reflexivity.
  - rewrite Hk. unfold bind at 1. cbn [lift].
    destruct (sample config) eqn:Es.
    + apply sample_population_sampled; trivial.
    + destruct (Hbounds eq_refl) as [Hn0 HnP].
      intros H. pose proof (select_length _ _ _ _ H) as Hlen.
      apply select_state in H as ->. split; [|reflexivity].
      rewrite Hlen, (slice_to_nonneg _ Hn0), length_firstn, Hrank, Hpop. lia.
Qed.

Lemma get_novel_count fuel k st r st' :
  num_novel config = Ok k ->
  get_novel_prompts W config fuel st = Ok (r, st') ->
  Z.of_nat (length r) = Z.max 0 k.
Proof.
  intros Hk. unfold get_novel_prompts.
  destruct (float_is_zero (novel_prompts config)) eqn:E.
  - intros H. inv_run. rewrite (num_novel_of_zero E Hk). reflexivity.
  - rewrite Hk. unfold bind at 1. cbn [lift]. intros H.
    destruct (Z.le_gt_cases 0 k) as [Hpos|Hneg].
    + unfold generate_prompts in H. apply generate_loop_length in H; [lia|].
      simpl. exact Hpos.
    + rewrite generate_prompts_nothing in H by lia.
      injection H as <- _. simpl. lia.
Qed.

Lemma get_elites_none population st :
  num_elites config = Ok 0%Z ->
  get_elites W population_argsort config population st = Ok ([], st).
Proof.
  intros Hz. unfold get_elites.
  destruct (float_is_zero (elites config)); [reflexivity|].
  rewrite Hz. unfold bind at 1. cbn [lift].
  destruct (sample config); reflexivity.
Qed.

Lemma get_novel_none fuel st :
  num_novel config = Ok 0%Z ->
  get_novel_prompts W config fuel st = Ok ([], st).
Proof.
  intros Hz. unfold get_novel_prompts.
  destruct (float_is_zero (novel_prompts config)); [reflexivity|].
  rewrite Hz. unfold bind at 1. cbn [lift].
  apply generate_prompts_nothing. lia.
Qed.

End Counts.

(** ** Shuffles: the sample space of a draw without replacement *)

Lemma selections_perm l x r : In (x, r) (selections l) -> Permutation l (x :: r).
Proof.
  revert x r. induction l as [|a l IH]; simpl; intros x r H; [tauto|].
  destruct H as [[= <- <-]|H]; [reflexivity|].
  apply in_map_iff in H as ([y r'] & [= <- <-] & Hin). simpl.
  rewrite (IH _ _ Hin). apply perm_swap.
Qed.

Lemma selections_fst l : map fst (selections l) = l.
Proof.
  induction l as [|a l IH]; simpl; trivial.
  rewrite map_map. simpl. f_equal. exact IH.
Qed.

Lemma selections_In l x : In x l -> exists r, In (x, r) (selections l).
Proof.
  intros H. rewrite <- (selections_fst l) in H.
  apply in_map_iff in H as ([y r] & <- & H). eauto.
Qed.

Lemma shuffles_of_perm n : forall l p, In p (shuffles_of n l) ->
  length l = n -> Permutation p l.
Proof.
  induction n as [|n IH]; simpl; intros l p H Hlen.
  - destruct H as [<-|[]]. destruct l; [reflexivity|discriminate].
  - apply in_flat_map in H as ([x r] & Hsel & H). simpl in H.
    apply in_map_iff in H as (q & <- & Hq).
    pose proof (selections_perm _ _ _ Hsel) as Hp.
    rewrite Hp. apply perm_skip, IH; trivial.
    apply Permutation_length in Hp. simpl in Hp. lia.
Qed.

Lemma shuffles_of_complete n : forall l p, Permutation p l ->
  length l = n -> In p (shuffles_of n l).
Proof.
  induction n as [|n IH]; simpl; intros l p Hp Hlen.
  - destruct l; [|discriminate]. apply Permutation_sym, Permutation_nil in Hp. auto.
  - destruct p as [|x p].
    { apply Permutation_length in Hp. simpl in Hp. lia. }
    assert (Hx : In x l) by (eapply Permutation_in; [exact Hp|left; trivial]).
    destruct (selections_In _ _ Hx) as [r Hr].
    apply in_flat_map. exists (x, r). split; [exact Hr|]. simpl.
    apply in_map. pose proof (selections_perm _ _ _ Hr) as Hl.
    apply IH.
    + apply Permutation_cons_inv with x. rewrite Hp. exact Hl.
    + apply Permutation_length in Hl. simpl in Hl. lia.
Qed.

Lemma tally_app {A} (f : A -> bool) l1 l2 :
  tally f (l1 ++ l2) = tally f l1 + tally f l2.
Proof. unfold tally. rewrite filter_app, length_app. reflexivity. Qed.

Lemma tally_flat_map {A B} (f : B -> bool) (g : A -> list B) l :
  tally f (flat_map g l) = list_sum (map (fun x => tally f (g x)) l).
Proof.
  induction l as [|a l IH]; simpl; trivial.
  rewrite tally_app, IH. reflexivity.
Qed.

Lemma starts_with_cons x ps y q :
  starts_with (x :: ps) (y :: q) = Nat.eqb y x && starts_with ps q.
Proof.
  unfold starts_with. cbn [length firstn].
  destruct (list_eq_dec Nat.eq_dec (y :: firstn (length ps) q) (x :: ps)) as [E|E];
    destruct (Nat.eqb_spec y x) as [Ex|Ex];
    destruct (list_eq_dec Nat.eq_dec (firstn (length ps) q) ps) as [Eq|Eq];
    simpl; trivial; congruence.
Qed.

Lemma tally_cons_head x ps y X :
  tally (starts_with (x :: ps)) (map (cons y) X)
  = if Nat.eqb y x then tally (starts_with ps) X else 0.
Proof.
  unfold tally. induction X as [|q X IH]; simpl.
  - destruct (Nat.eqb y x); reflexivity.
  - rewrite starts_with_cons.
    destruct (Nat.eqb y x); simpl in *; [|exact IH].
    destruct (starts_with ps q); simpl; rewrite IH; reflexivity.
Qed.

Lemma sum_matching (sel : list (nat * list nat)) (F : nat * list nat -> nat) x c :
  (forall yr, In yr sel -> F yr = if Nat.eqb (fst yr) x then c else 0) ->
  list_sum (map F sel) = c * count_occ Nat.eq_dec (map fst sel) x.
Proof.
  induction sel as [|yr sel IH]; simpl; intros H; [lia|].
  rewrite (H yr) by auto. rewrite IH by auto.
  destruct (Nat.eqb_spec (fst yr) x) as [E|E];
    destruct (Nat.eq_dec (fst yr) x); try contradiction; lia.
Qed.

Lemma sum_constant {A} (l : list A) (F : A -> nat) c :
  (forall a, In a l -> F a = c) -> list_sum (map F l) = length l * c.
Proof.
  induction l as [|a l IH]; simpl; intros H; trivial.
  rewrite (H a), IH by auto. reflexivity.
Qed.

Lemma tally_all {A} (f : A -> bool) l :
  (forall a, f a = true) -> tally f l = length l.
Proof.
  intros H. unfold tally. induction l as [|a l IH]; simpl; trivial.
  rewrite H. simpl. congruence.
Qed.

Lemma shuffles_of_length n : forall l, length l = n ->
  length (shuffles_of n l) = fact n.
Proof.
  induction n as [|n IH]; simpl; intros l Hlen; trivial.
  rewrite <- (tally_all (fun _ => true)) by trivial.
  rewrite tally_flat_map.
  rewrite sum_constant with (c := fact n).
  - rewrite <- (length_map fst), selections_fst, Hlen. lia.
  - intros [x r] Hsel. simpl. rewrite tally_all by trivial.
    rewrite length_map. apply IH.
    apply selections_perm, Permutation_length in Hsel. simpl in Hsel. lia.
Qed.

(** Among the orderings of a list without repetition, those that start
    with a given selection of [k] of its entries number (n - k)!. *)
Lemma shuffles_of_prefix n : forall l ps,
  NoDup l -> length l = n -> NoDup ps -> incl ps l ->
  tally (starts_with ps) (shuffles_of n l) = fact (n - length ps).
Proof.
  induction n as [|n IH]; intros l ps Hl Hlen Hps Hincl.
  - destruct l; [|discriminate]. destruct ps as [|x ps].
    + reflexivity.
    + destruct (Hincl x). left. trivial.
  - destruct ps as [|x ps].
    + rewrite tally_all.
      * rewrite Nat.sub_0_r. apply shuffles_of_length, Hlen.
      * intros p. unfold starts_with. simpl.
        destruct (list_eq_dec Nat.eq_dec [] []); congruence.
    + cbn [shuffles_of]. rewrite tally_flat_map.
      rewrite sum_matching with (x := x) (c := fact (n - length ps)).
      * rewrite selections_fst.
        rewrite (proj1 (NoDup_count_occ' Nat.eq_dec l) Hl x).
        -- simpl. lia.
        -- apply Hincl. left. trivial.
      * intros [y r] Hsel. cbn [fst snd]. rewrite tally_cons_head.
        destruct (Nat.eqb_spec y x) as [->|_]; trivial.
        pose proof (selections_perm _ _ _ Hsel) as Hp.
        assert (Hxr : NoDup (x :: r)) by (eapply Permutation_NoDup; eauto).
        apply IH.
        -- inversion Hxr. trivial.
        -- apply Permutation_length in Hp. simpl in Hp. lia.
        -- inversion Hps. trivial.
        -- intros z Hz.
           assert (Hzl : In z (x :: r)).
           { eapply Permutation_in; [exact Hp|]. apply Hincl. right. trivial. }
           destruct Hzl as [<-|Hzr]; trivial.
           inversion Hps. contradiction.
Qed.

Lemma count_occ_tally (L : list (list nat)) p :
  (forall q, In q L -> length q = length p) ->
  count_occ (list_eq_dec Nat.eq_dec) L p = tally (starts_with p) L.
Proof.
  unfold tally. induction L as [|q L IH]; simpl; intros Hlen; trivial.
  assert (Hq : firstn (length p) q = q).
  { rewrite <- (Hlen q) by auto. apply firstn_all. }
  unfold starts_with at 1. rewrite Hq.
  destruct (list_eq_dec Nat.eq_dec q p); simpl; rewrite IH by auto; trivial.
Qed.

(** Every ordering is listed once. *)
Lemma shuffles_of_NoDup n l :
  NoDup l -> length l = n -> NoDup (shuffles_of n l).
Proof.
  intros Hl Hlen. apply (NoDup_count_occ (list_eq_dec Nat.eq_dec)). intros p.
  destruct (in_dec (list_eq_dec Nat.eq_dec) p (shuffles_of n l)) as [Hin|Hout].
  - pose proof (@shuffles_of_perm _ _ _ Hin Hlen) as Hp.
    rewrite count_occ_tally.
    + rewrite shuffles_of_prefix; trivial.
      * rewrite (Permutation_length Hp), Hlen, Nat.sub_diag. simpl. lia.
      * eapply Permutation_NoDup; [symmetry; exact Hp|exact Hl].
      * intros z Hz. eapply Permutation_in; eauto.
    + intros q Hq. pose proof (@shuffles_of_perm _ _ _ Hq Hlen) as Hq'.
      rewrite (Permutation_length Hp), (Permutation_length Hq'). trivial.
  - apply (count_occ_not_In (list_eq_dec Nat.eq_dec)) in Hout. lia.
Qed.

(** The draw of [choice_index] is uniform: the shuffles of [range(n)] are
    the permutations of [range(n)], each listed once, and every ordered
    selection of [k] distinct positions is the head of the same number of
    them. *)
Lemma choice_uniform n :
  (forall p, In p (shuffles n) <-> Permutation p (seq 0 n))
  /\ NoDup (shuffles n)
  /\ length (shuffles n) = fact n
  /\ (forall ps, NoDup ps -> Forall (fun i => i < n) ps ->
                 tally (starts_with ps) (shuffles n) = fact (n - length ps)).
Proof.
  unfold shuffles. split; [|split; [|split]].
  - intros p. split.
    + intros H. apply (@shuffles_of_perm _ _ _ H). apply length_seq.
    + intros H. apply shuffles_of_complete; [exact H|apply length_seq].
  - apply shuffles_of_NoDup; [apply seq_NoDup|apply length_seq].
  - apply shuffles_of_length, length_seq.
  - intros ps Hps Hrange. apply shuffles_of_prefix; trivial.
    + apply seq_NoDup.
    + apply length_seq.
    + intros z Hz. apply in_seq. rewrite Forall_forall in Hrange.
      specialize (Hrange z Hz). lia.
Qed.

(** ** The pass-through branch of an operator stage *)

Lemma apply_pass_through W fuel config inputs st :
  length inputs = input config ->
  gate_closed config (rand_of W (draws st)) ->
  apply W fuel config inputs st = choice W inputs (output config) (drawn st).
Proof.
  intros Hlen Hgate. unfold apply. rewrite Hlen, Nat.eqb_refl. simpl.
  unfold bind at 1. unfold np_rand. fold (drawn st).
  unfold gate_closed in Hgate. rewrite Hgate. reflexivity.
Qed.

Lemma In_firstn {A} (x : A) k l : In x (firstn k l) -> In x l.
Proof.
  intros H. rewrite <- (firstn_skipn k l). apply in_or_app. left. exact H.
Qed.

Lemma choice_too_large {A} W (a : list A) size st :
  length a < size -> choice W a size st = Raise ValueError.
Proof.
  intros H. unfold choice, bind, choice_index.
  destruct (Nat.ltb_spec (length a) size); [reflexivity|lia].
Qed.

Lemma choice_ok {A} W (a : list A) d size st :
  rng_ok W -> size <= length a ->
  choice W a size st
  = Ok (map (fun i => nth i a d) (firstn size (perm_of W (draws st) (length a))),
        drawn st).
Proof.
  intros [Hperm _] Hsize. unfold choice, bind, choice_index.
  destruct (Nat.ltb_spec (length a) size); [lia|]. fold (drawn st).
  rewrite (select_ok (fun x => x) a d).
  - reflexivity.
  - apply Forall_forall. intros i Hi. apply In_firstn in Hi.
    apply (Permutation_in _ (Hperm _ _)) in Hi. apply in_seq in Hi. lia.
Qed.

Lemma gate_closed_at_zero W config i :
  rng_ok W -> (probability config == 0)%Q -> gate_closed config (rand_of W i).
Proof.
  intros [_ Hrand] Hp. apply Qle_bool_iff. rewrite Hp. apply Hrand.
Qed.

Lemma firstn_shuffle_distinct W i n k :
  rng_ok W -> k <= n ->
  let positions := firstn k (perm_of W i n) in
  length positions = k /\ NoDup positions /\ Forall (fun j => j < n) positions.
Proof.
  intros [Hperm _] Hk positions. subst positions.
  pose proof (Hperm i n) as Hp. split; [|split].
  - rewrite length_firstn, (Permutation_length Hp), length_seq. lia.
  - assert (Hnd : NoDup (perm_of W i n)).
    { eapply Permutation_NoDup; [symmetry; exact Hp|apply seq_NoDup]. }
    rewrite <- (firstn_skipn k (perm_of W i n)) in Hnd.
    apply NoDup_app_remove_r in Hnd. exact Hnd.
  - apply Forall_forall. intros j Hj. apply In_firstn in Hj.
    apply (Permutation_in _ Hp) in Hj. apply in_seq in Hj. lia.
Qed.

(** C5 (amended): a stage with trigger probability 0 whose output arity
    does not exceed its input arity returns, for every input group of its
    input arity, exactly [output] of the inputs, taken at the pairwise
    distinct positions that head the shuffle drawn; no request reaches
    the oracle; and the draw is uniform, every ordered choice of [output]
    distinct positions heading the same number of shuffles. *)
Theorem stage_never_triggered_subsamples :
  forall (W : World) (fuel : nat) (config : LLMPromptOperator)
         (inputs : list string) (st : St),
    rng_ok W ->
    (probability config == 0)%Q ->
    length inputs = input config ->
    output config <= input config ->
    exists positions,
      apply W fuel config inputs st
      = Ok (map (fun i => nth i inputs EmptyString) positions, drawn (drawn st))
      /\ positions = firstn (output config) (perm_of W (S (draws st)) (input config))
      /\ length positions = output config
      /\ NoDup positions
      /\ Forall (fun i => i < input config) positions
      /\ calls (drawn (drawn st)) = calls st
      /\ In (perm_of W (S (draws st)) (input config)) (shuffles (input config))
      /\ (forall ps, length ps = output config -> NoDup ps ->
                     Forall (fun i => i < input config) ps ->
                     tally (starts_with ps) (shuffles (input config))
                     = fact (input config - output config)).
Proof.
  intros W fuel config inputs st Hrng Hp Hlen Hout.
  exists (firstn (output config) (perm_of W (S (draws st)) (input config))).
  destruct (firstn_shuffle_distinct (S (draws st)) Hrng Hout) as (H1 & H2 & H3).
  split; [|repeat split; trivial].
  - rewrite apply_pass_through; trivial.
    + rewrite (choice_ok inputs EmptyString); trivial; [|lia].
      rewrite Hlen. reflexivity.
    + apply gate_closed_at_zero; trivial.
  - apply (proj1 (choice_uniform (input config))). apply Hrng.
  - intros ps Hk Hnd Hrange. rewrite <- Hk.
    apply (proj2 (proj2 (proj2 (choice_uniform (input config))))); trivial.
Qed.

(** C9: when the gate of a stage does not fire, the stage draws [output]
    of its [input] inputs without replacement; with more outputs than
    inputs that draw is a [ValueError] and no group is returned.  With a
    trigger probability below 1 there are draws on which the gate does
    not fire. *)
Theorem stage_pass_through_needs_enough_inputs :
  forall (config : LLMPromptOperator) (inputs : list string),
    length inputs = input config ->
    input config < output config ->
    (forall W fuel st,
        gate_closed config (rand_of W (draws st)) ->
        apply W fuel config inputs st = Raise ValueError)
    /\ ((probability config < 1)%Q ->
        exists u, (0 <= u)%Q /\ (u < 1)%Q /\ gate_closed config u).
Proof.
  intros config inputs Hlen Hout. split.
  - intros W fuel st Hgate.
    rewrite apply_pass_through; trivial.
    apply choice_too_large. lia.
  - intros Hp. destruct (Qlt_le_dec (probability config) 0) as [Hneg|Hpos].
    + exists 0%Q. split; [apply Qle_refl|]. split; [reflexivity|].
      apply Qle_bool_iff. apply Qlt_le_weak. exact Hneg.
    + exists (probability config). split; [exact Hpos|]. split; [exact Hp|].
      apply Qle_bool_iff. apply Qle_refl.
Qed.

(** ** Ranking: [argsort] is ascending *)

Lemma score_leb_total a b : score_leb a b = false -> score_leb b a = true.
Proof.
  destruct a as [x|], b as [y|]; simpl; trivial; try discriminate.
  intros H. apply Qle_bool_iff.
  destruct (Qlt_le_dec y x) as [Hlt|Hle].
  - apply Qlt_le_weak, Hlt.
  - apply Qle_bool_iff in Hle. congruence.
Qed.

Lemma score_leb_trans a b c :
  score_leb a b = true -> score_leb b c = true -> score_leb a c = true.
Proof.
  destruct a as [x|], b as [y|], c as [z|]; simpl; trivial; try discriminate.
  rewrite !Qle_bool_iff. apply Qle_trans.
Qed.

Section ArgsortFacts.

Variable K : Type.
Variable leb : K -> K -> bool.
Hypothesis leb_total : forall a b, leb a b = false -> leb b a = true.
Hypothesis leb_trans : forall a b c, leb a b = true -> leb b c = true -> leb a c = true.

Let below (x y : nat * K) : Prop := leb (snd x) (snd y) = true.

Lemma insert_perm x l : Permutation (insert leb x l) (x :: l).
Proof.
  induction l as [|y l IH]; simpl; [reflexivity|].
  destruct (leb (snd x) (snd y)); [reflexivity|].
  rewrite IH. apply perm_swap.
Qed.

Lemma isort_perm l : Permutation (isort leb l) l.
Proof.
  induction l as [|x l IH]; simpl; [reflexivity|].
  rewrite insert_perm. apply perm_skip, IH.
Qed.

Lemma insert_sorted x l :
  StronglySorted below l -> StronglySorted below (insert leb x l).
Proof.
  induction 1 as [|y l Hs IH Hy]; simpl.
  - repeat constructor.
  - destruct (leb (snd x) (snd y)) eqn:E.
    + constructor; [constructor; trivial|].
      constructor; [exact E|].
      eapply Forall_impl; [|exact Hy]. intros z Hz. unfold below in *. eauto.
    + constructor; [exact IH|].
      apply Forall_forall. intros z Hz.
      apply (Permutation_in _ (insert_perm x l)) in Hz.
      destruct Hz as [<-|Hz].
      * apply leb_total, E.
      * rewrite Forall_forall in Hy. auto.
Qed.

Lemma isort_sorted l : StronglySorted below (isort leb l).
Proof.
  induction l as [|x l IH]; simpl; [constructor|]. apply insert_sorted, IH.
Qed.

Lemma combine_seq_nth (keys : list K) d : forall start i k,
  In (i, k) (combine (seq start (length keys)) keys) ->
  start <= i /\ nth (i - start) keys d = k.
Proof.
  induction keys as [|k0 keys IH]; simpl; intros start i k H; [tauto|].
  destruct H as [[= <- <-]|H].
  - rewrite Nat.sub_diag. auto.
  - apply IH in H as [Hle Hn]. split; [lia|].
    replace (i - start) with (S (i - S start)) by lia. exact Hn.
Qed.

Lemma map_fst_combine_seq (keys : list K) start :
  map fst (combine (seq start (length keys)) keys) = seq start (length keys).
Proof.
  revert start. induction keys as [|k keys IH]; simpl; intros start; trivial.
  f_equal. apply IH.
Qed.

Lemma argsort_by_perm keys : Permutation (argsort_by leb keys) (seq 0 (length keys)).
Proof.
  unfold argsort_by.
  apply Permutation_trans with (map fst (combine (seq 0 (length keys)) keys)).
  - apply Permutation_map, isort_perm.
  - rewrite map_fst_combine_seq. reflexivity.
Qed.

Lemma argsort_by_sorted keys d :
  StronglySorted (fun i j => leb (nth i keys d) (nth j keys d) = true)
    (argsort_by leb keys).
Proof.
  unfold argsort_by.
  pose proof (isort_sorted (combine (seq 0 (length keys)) keys)) as Hs.
  assert (Hin : forall e, In e (isort leb (combine (seq 0 (length keys)) keys)) ->
                          nth (fst e) keys d = snd e).
  { intros [i k] He. apply (Permutation_in _ (isort_perm _)) in He.
    apply (combine_seq_nth keys d) in He as [_ He].
    rewrite Nat.sub_0_r in He. exact He. }
  revert Hs Hin. generalize (isort leb (combine (seq 0 (length keys)) keys)).
  induction 1 as [|e l Hs IH He]; simpl; intros Hin; constructor.
  - apply IH. auto.
  - apply Forall_forall. intros j Hj.
    apply in_map_iff in Hj as (e' & <- & He').
    rewrite !Hin by auto. rewrite Forall_forall in He. exact (He e' He').
Qed.

End ArgsortFacts.

Lemma argsort_ascending fitness : ascending_ranking fitness (argsort fitness).
Proof.
  split.
  - apply argsort_by_perm.
  - apply argsort_by_sorted.
    + exact score_leb_total.
    + exact score_leb_trans.
Qed.



Lemma ascending_ranking_range fitness idx :
  ascending_ranking fitness idx -> Forall (fun i => i < length fitness) idx.
Proof.
  intros [Hp _]. apply Forall_forall. intros i Hi.
  apply (Permutation_in _ Hp) in Hi. apply in_seq in Hi. lia.
Qed.

Lemma Forall_firstn_of {A} (Pr : A -> Prop) k l : Forall Pr l -> Forall Pr (firstn k l).
Proof.
  rewrite !Forall_forall. intros H x Hx. apply H. eapply In_firstn, Hx.
Qed.

Lemma batch_argsort_best_first fitness :
  best_first_ranking fitness (batch_argsort fitness).
Proof.
  split.
  - apply argsort_by_perm.
  - apply (argsort_by_sorted (fun a b => score_leb b a)).
    + intros a b. apply score_leb_total.
    + intros a b c Hab Hbc. exact (score_leb_trans _ _ _ Hbc Hab).
Qed.


Lemma Forall_slice_to {A} (Pr : A -> Prop) n l :
  Forall Pr l -> Forall Pr (slice_to n l).
Proof. unfold slice_to. destruct (0 <=? n)%Z; apply Forall_firstn_of. Qed.

Lemma sample_population_by_rank W config population fitness k st :
  length population = length fitness ->
  sample_population W config population fitness (Z.of_nat k) false st
  = Ok (map (fun i => nth i population EmptyString) (firstn k (argsort fitness)), st).
Proof.
  intros Hlen. unfold sample_population.
  destruct (Z.eqb_spec (Z.of_nat k) 0) as [E|E].
  - assert (k = 0) as -> by lia. reflexivity.
  - rewrite slice_to_nonneg by lia. rewrite Nat2Z.id.
    apply (select_ok (fun x => x)). apply Forall_firstn_of.
    rewrite Hlen. apply ascending_ranking_range, argsort_ascending.
Qed.

Lemma get_elites_by_rank W population_argsort config population k st :
  Permutation (population_argsort (map evals population))
    (seq 0 (length population)) ->
  sample config = false ->
  num_elites config = Ok k ->
  get_elites W population_argsort config population st
  = Ok (map (fun i => values (nth i population unset))
          (slice_to k (population_argsort (map evals population))), st).
Proof.
  intros Hrank Hs Hk. unfold get_elites.
  destruct (float_is_zero (elites config)) eqn:E.
  - rewrite (num_elites_of_zero config E Hk). reflexivity.
  - rewrite Hk, Hs. unfold bind at 1. cbn [lift].
    apply select_ok. apply Forall_slice_to.
    apply Forall_forall. intros i Hi.
    apply (Permutation_in _ Hrank) in Hi. apply in_seq in Hi. lia.
Qed.



(** ** The progress bookkeeping of an evaluation *)

Lemma tick_sample_time P g p :
  sample_time (tick P g p)
  = if Qeq_bool (sample_time p) 0 then g
    else (sample_time p * (9 # 10) + g * (1 # 10))%Q.
Proof.
  unfold tick, record_time. simpl.
  destruct (Nat.leb P (generated p + 1)); reflexivity.
Qed.

Lemma tick_within P g p :
  generated p + 1 < P ->
  generated (tick P g p) = generated p + 1
  /\ current_time (tick P g p) = (current_time p + g)%Q
  /\ total_generated (tick P g p) = total_generated p.
Proof.
  intros H. unfold tick, record_time. simpl.
  destruct (Nat.leb_spec P (generated p + 1)); [lia|]. simpl. auto.
Qed.

Lemma tick_reset P g p :
  P <= generated p + 1 ->
  generated (tick P g p) = 0
  /\ current_time (tick P g p) = 0%Q
  /\ total_generated (tick P g p) = total_generated p + P.
Proof.
  intros H. unfold tick, record_time. simpl.
  destruct (Nat.leb_spec P (generated p + 1)); [|lia]. simpl. auto.
Qed.

Lemma ticks_within P gs : forall p,
  generated p + length gs < P ->
  generated (ticks P gs p) = generated p + length gs
  /\ (current_time (ticks P gs p) == current_time p + Qsum gs)%Q
  /\ total_generated (ticks P gs p) = total_generated p.
Proof.
  induction gs as [|g gs IH]; simpl; intros p H.
  - repeat split; try lia. ring.
  - destruct (@tick_within P g p) as (Hg & Hc & Ht); [lia|].
    destruct (IH (tick P g p)) as (Hg' & Hc' & Ht'); [lia|].
    unfold ticks in *. rewrite Hg', Hc', Ht', Hg, Hc, Ht.
    repeat split; try lia. ring.
Qed.

Lemma ticks_full_pass P gs p :
  generated p = 0 -> current_time p = 0%Q -> length gs = P ->
  generated (ticks P gs p) = 0
  /\ current_time (ticks P gs p) = 0%Q
  /\ total_generated (ticks P gs p) = total_generated p + P.
Proof.
  intros Hp Hc Hlen.
  destruct (Nat.eq_dec P 0) as [HP|HP].
  { destruct gs; [|simpl in Hlen; lia].
    simpl. split; [exact Hp|]. split; [exact Hc|]. lia. }
  destruct (exists_last (l := gs)) as (gs' & g & ->).
  { intros ->. simpl in Hlen. lia. }
  rewrite length_app in Hlen. simpl in Hlen.
  unfold ticks. rewrite fold_left_app. simpl.
  destruct (@ticks_within P gs' p) as (Hg & _ & Ht); [lia|].
  fold (ticks P gs' p).
  destruct (@tick_reset P g (ticks P gs' p)) as (Hg' & Hc' & Ht'); [lia|].
  rewrite Hg', Hc', Ht', Ht. auto.
Qed.

Lemma evaluate_values W evo_config batch : forall st r st',
  evaluate W evo_config batch st = Ok (r, st') ->
  map values r = map values batch
  /\ Forall (fun s => evals s <> None) r
  /\ calls st' = calls st.
Proof.
  unfold evaluate. induction batch as [|s batch IH]; cbn [mapM]; intros st r st' H.
  - inv_run. simpl. auto.
  - apply bind_Ok in H as (s' & st1 & H1 & H2).
    apply bind_Ok in H2 as (r' & st2 & H2 & H3). inv_run.
    destruct (IH _ _ _ H2) as (Hv & He & Hc).
    unfold _evaluate in H1.
    destruct (fitness_of W (evaluated st) (values s)); try discriminate.
    destruct (Nat.eqb (population_size (search evo_config)) 0);
      [discriminate|].
    injection H1 as <- <-. simpl in *.
    repeat split; [congruence| |exact Hc].
    constructor; [discriminate|exact He].
Qed.

(** C8 (amended): an evaluation that finds the latency estimate non-zero
    replaces it by 0.9 of the old value plus 0.1 of the new measurement;
    one that finds it zero sets it to the measurement.  Within a pass the
    evaluation counter grows by one and the accumulated time by the
    measurement; starting from zero, both return to zero at the
    evaluation that completes [population_size] evaluations, and not
    before.
    The score an evaluation returns is the one the fitness source gives,
    whatever the bookkeeping holds, and a batch keeps its order. *)
Theorem progress_bookkeeping :
  forall (P : nat) (g : Q) (p : Progress),
    (Qeq_bool (sample_time p) 0 = false ->
     sample_time (tick P g p) = (sample_time p * (9 # 10) + g * (1 # 10))%Q)
    /\ (Qeq_bool (sample_time p) 0 = true -> sample_time (tick P g p) = g)
    /\ (generated p + 1 < P ->
        generated (tick P g p) = generated p + 1
        /\ current_time (tick P g p) = (current_time p + g)%Q
        /\ ((0 <= g)%Q -> (current_time p <= current_time (tick P g p))%Q))
    /\ (P <= generated p + 1 ->
        generated (tick P g p) = 0 /\ current_time (tick P g p) = 0%Q)
    /\ (forall gs, generated p = 0 -> current_time p = 0%Q ->
          (length gs < P ->
           generated (ticks P gs p) = length gs
           /\ (current_time (ticks P gs p) == current_time p + Qsum gs)%Q)
          /\ (length gs = P ->
              generated (ticks P gs p) = 0 /\ current_time (ticks P gs p) = 0%Q))
    /\ (forall W evo_config solution st st2,
          evaluated st = evaluated st2 ->
          returned (_evaluate W evo_config solution st)
          = returned (_evaluate W evo_config solution st2))
    /\ (forall W evo_config solution st s st',
          _evaluate W evo_config solution st = Ok (s, st') ->
          values s = values solution
          /\ exists f, fitness_of W (evaluated st) (values solution) = Ok f
                       /\ evals s = Some f)
    /\ (forall W evo_config batch st r st',
          evaluate W evo_config batch st = Ok (r, st') ->
          map values r = map values batch).
Proof.
  intros P g p.
  split; [|split; [|split; [|split; [|split; [|split; [|split]]]]]].
  - intros E. rewrite tick_sample_time, E. reflexivity.
  - intros E. rewrite tick_sample_time, E. reflexivity.
  - intros H. destruct (@tick_within P g p H) as (Hg & Hc & _).
    split; [exact Hg|]. split; [exact Hc|].
    intros H0. rewrite Hc. rewrite <- (Qplus_0_r (current_time p)) at 1.
    apply Qplus_le_r. exact H0.
  - intros H. destruct (@tick_reset P g p H) as (Hg & Hc & _). auto.
  - intros gs Hp Hc0. split.
    + intros Hlen. destruct (@ticks_within P gs p) as (Hg & Hc & _); [lia|].
      split; [lia|exact Hc].
    + intros Hlen. destruct (@ticks_full_pass P gs p Hp Hc0 Hlen) as (Hg & Hc & _).
      auto.
  - intros W evo_config solution st st2 E. unfold _evaluate. rewrite <- E.
    destruct (fitness_of W (evaluated st) (values solution)); try reflexivity.
    destruct (Nat.eqb (population_size (search evo_config)) 0); reflexivity.
  - intros W evo_config solution st s st'. unfold _evaluate.
    destruct (fitness_of W (evaluated st) (values solution)) as [f| |];
      try discriminate.
    destruct (Nat.eqb (population_size (search evo_config)) 0);
      [discriminate|].
    intros [= <- <-]. simpl. eauto.
  - intros W evo_config batch st r st' H.
    apply (evaluate_values _ _ _ _ H).
Qed.

(** C8, as stated, fails on the first evaluation of a run: the estimate
    is zero, and the evaluation sets it to the measurement instead of
    averaging. *)
Lemma first_evaluation_is_not_averaged :
  ~ (sample_time (tick 4 1 init_progress)
     == sample_time init_progress * (9 # 10) + 1 * (1 # 10))%Q.
Proof. vm_compute. discriminate. Qed.

(** ** Initial generation in vector mode *)

Lemma fill_loop_eq {X} W (process : list string -> list X) fuel fuel_inner
      population prompts processed_prompts :
  fill_loop W process fuel fuel_inner population prompts processed_prompts =
  if Nat.ltb (length processed_prompts) population then
    match fuel with
    | O => fun _ => OutOfFuel
    | S fuel' =>
        bind (generate_prompts W fuel_inner (Z.of_nat population))
          (fun prompts' =>
             fill_loop W process fuel' fuel_inner population prompts'
               (processed_prompts
                  ++ firstn (population - length processed_prompts)
                       (process prompts')))
    end
  else ret (prompts, processed_prompts).
Proof. destruct fuel; reflexivity. Qed.








Section FillVector.

Variable W : World.
Variable evo_config : evoConf.
Variable preprocess_text : list string -> nat -> list tensor.
Variable embedding_size : nat.



End FillVector.

(** *** Termination with a responsive oracle *)

Lemma collect_grows num answers : forall prompts,
  (Z.of_nat (length prompts) < num)%Z ->
  extract_all answers <> [] ->
  length prompts < length (collect num prompts answers).
Proof.
  induction answers as [|a rest IH]; simpl; intros prompts Hlt Hne.
  - contradiction.
  - destruct (extract a) as [p|] eqn:E.
    + assert (Hlen : length (prompts ++ [p]) = S (length prompts)).
      { rewrite length_app. simpl. lia. }
      destruct (Z.leb_spec num (Z.of_nat (length (prompts ++ [p])))) as [_|Hlt'].
      * lia.
      * destruct (collect_bounds rest (prompts ++ [p]) Hlt'). lia.
    + destruct (Z.leb_spec num (Z.of_nat (length prompts))); [lia|].
      apply IH; trivial.
Qed.

Lemma generate_loop_terminates W num :
  responsive W ->
  forall fuel prompts st,
    (Z.of_nat (length prompts) <= num)%Z ->
    (num - Z.of_nat (length prompts) <= Z.of_nat fuel)%Z ->
    exists r st', generate_loop W fuel num prompts st = Ok (r, st')
                  /\ Z.of_nat (length r) = num.
Proof.
  intros Hresp. induction fuel as [|fuel IH]; intros prompts st Hle Hfuel;
    rewrite generate_loop_eq;
    destruct (Z.ltb_spec (Z.of_nat (length prompts)) num) as [Hlt|Hge].
  - lia.
  - exists prompts, st. split; [reflexivity|lia].
  - destruct (ask_returns W (generate_instruction (num - Z.of_nat (length prompts))) st)
      as (r & Hask & Hq).
    unfold bind at 1. rewrite Hask.
    destruct (Hresp _ _ _ Hq) as [Hbal Hne].
    rewrite Hbal, Nat.eqb_refl. simpl.
    pose proof (collect_bounds (PyStr.split close_tag r) prompts Hlt) as [_ Hub].
    pose proof (collect_grows (PyStr.split close_tag r) prompts Hlt Hne) as Hgrow.
    apply IH; lia.
  - exists prompts, st. split; [reflexivity|lia].
Qed.

(** *** The groups of elites and of novel prompts *)

Lemma get_elites_total W population_argsort config population k st :
  rng_ok W ->
  num_elites config = Ok k ->
  (0 <= k <= Z.of_nat (population_size config))%Z ->
  length population = population_size config ->
  Permutation (population_argsort (map evals population))
    (seq 0 (length population)) ->
  (sample config = true ->
   weights_ok W (map evals population) (temperature config) (Z.to_nat k) = true) ->
  exists r st',
    get_elites W population_argsort config population st = Ok (r, st')
    /\ Z.of_nat (length r) = k
    /\ calls st' = calls st.
Proof.
  intros Hrng Hk [Hn0 HnP] Hpop Hrank Hweights.
  assert (Hlen : length (population_argsort (map evals population))
                 = length population).
  { rewrite (Permutation_length Hrank). apply length_seq. }
  assert (Hsome : exists r st',
             get_elites W population_argsort config population st = Ok (r, st')).
  { unfold get_elites.
    destruct (float_is_zero (elites config)); [unfold ret; eauto|].
    rewrite Hk. unfold bind at 1. cbn [lift].
    destruct (sample config).
    - unfold sample_population.
      destruct (Z.eqb_spec k 0); [unfold ret; eauto|].
      destruct (Z.ltb_spec k 0); [lia|].
      rewrite !length_map, Nat.eqb_refl, (Hweights eq_refl). simpl.
      rewrite (choice_ok (map values population) EmptyString); trivial; eauto.
      rewrite length_map. lia.
    - rewrite (select_ok values population unset); eauto.
      apply Forall_slice_to.
      apply Forall_forall. intros i Hi.
      apply (Permutation_in _ Hrank) in Hi. apply in_seq in Hi. lia. }
  destruct Hsome as (r & st' & Hrun). exists r, st'. split; [exact Hrun|].
  eapply get_elites_count; eauto.
Qed.

Lemma get_novel_total W config fuel k st :
  responsive W ->
  num_novel config = Ok k ->
  (k <= Z.of_nat fuel)%Z ->
  exists r st',
    get_novel_prompts W config fuel st = Ok (r, st')
    /\ Z.of_nat (length r) = Z.max 0 k.
Proof.
  intros Hresp Hk Hfuel.
  assert (Hsome : exists r st', get_novel_prompts W config fuel st = Ok (r, st')).
  { unfold get_novel_prompts.
    destruct (float_is_zero (novel_prompts config)); [unfold ret; eauto|].
    rewrite Hk. unfold bind at 1. cbn [lift].
    destruct (Z.le_gt_cases 0 k) as [Hpos|Hneg].
    - destruct (generate_loop_terminates (num := k) Hresp fuel [] st)
        as (r & st' & Hrun & _); simpl; try lia.
      unfold generate_prompts. eauto.
    - rewrite generate_prompts_nothing by lia. eauto. }
  destruct Hsome as (r & st' & Hrun). exists r, st'. split; [exact Hrun|].
  eapply get_novel_count; eauto.
Qed.

(** C3 (amended): the number of elites is [int()] of the product of the
    fraction and the population size as floats: the binary64 product,
    rounded, then cut towards zero; the number of novel prompts
    likewise.  These are the sizes of the groups: of the elites
    [get_elites] returns on a population of the configured size that the
    batch ranks (without sampling it always returns, and the count is
    the size of the group when it lies between 0 and the population
    size), and of the novel prompts
    [get_novel_prompts] returns, which it does with a responsive oracle.
    When a count is zero, or the fraction itself, the group is empty and
    the call leaves the state as it was: no request reaches the oracle,
    whatever the fuel. *)
Theorem elite_and_novel_counts_are_truncated_float_products :
  forall (W : World) (population_argsort : list score -> list nat)
         (config : searchConf),
    (forall size,
        float_of_int (Z.of_nat (population_size config)) = Ok size ->
        num_elites config = py_int (float_mul (elites config) size)
        /\ num_novel config = py_int (float_mul size (novel_prompts config)))
    /\ (forall population k st r st',
           rng_ok W ->
           num_elites config = Ok k ->
           (sample config = false ->
            (0 <= k <= Z.of_nat (population_size config))%Z) ->
           length population = population_size config ->
           Permutation (population_argsort (map evals population))
             (seq 0 (length population)) ->
           get_elites W population_argsort config population st = Ok (r, st') ->
           Z.of_nat (length r) = k /\ calls st' = calls st)
    /\ (forall population k st,
           sample config = false ->
           num_elites config = Ok k ->
           Permutation (population_argsort (map evals population))
             (seq 0 (length population)) ->
           exists r,
             get_elites W population_argsort config population st = Ok (r, st))
    /\ (forall fuel k st r st',
           num_novel config = Ok k ->
           get_novel_prompts W config fuel st = Ok (r, st') ->
           Z.of_nat (length r) = Z.max 0 k)
    /\ (forall fuel k st,
           responsive W ->
           num_novel config = Ok k ->
           (k <= Z.of_nat fuel)%Z ->
           exists r st',
             get_novel_prompts W config fuel st = Ok (r, st')
             /\ Z.of_nat (length r) = Z.max 0 k)
    /\ (num_elites config = Ok 0%Z \/ float_is_zero (elites config) = true ->
        forall population st,
          get_elites W population_argsort config population st = Ok ([], st))
    /\ (num_novel config = Ok 0%Z \/ float_is_zero (novel_prompts config) = true ->
        forall fuel st,
          get_novel_prompts W config fuel st = Ok ([], st)).
Proof.
  intros W population_argsort config.
  split; [|split; [|split; [|split; [|split; [|split]]]]].
  - intros size Hsize. unfold num_elites, num_novel. rewrite Hsize. split; reflexivity.
  - intros population k st r st' Hrng Hk Hrange Hlen Hrank Hrun.
    eapply get_elites_count; eauto.
    rewrite (Permutation_length Hrank). apply length_seq.
  - intros population k st Hs Hk Hrank. eexists.
    apply get_elites_by_rank; eauto.
  - intros fuel k st r st' Hk Hrun. eapply get_novel_count; eauto.
  - intros fuel k st Hresp Hk Hfuel. apply get_novel_total; trivial.
  - intros [Hz|Hz] population st.
    + apply get_elites_none, Hz.
    + unfold get_elites. rewrite Hz. reflexivity.
  - intros [Hz|Hz] fuel st.
    + apply get_novel_none, Hz.
    + unfold get_novel_prompts. rewrite Hz. reflexivity.
Qed.















(** ** The population across steps *)

Lemma set_values_Ok batch new_values batch' :
  set_values batch new_values = Ok batch' ->
  length batch' = length batch /\ length new_values = length batch
  /\ map values batch' = new_values.
Proof.
  unfold set_values.
  destruct (Nat.eqb_spec (length new_values) (length batch)) as [E|E];
    [|discriminate].
  intros [= <-]. rewrite length_map, map_map. simpl. rewrite map_id. auto.
Qed.

Lemma set_item_length {A} (slots : list A) i x slots' :
  set_item slots i x = Ok slots' -> length slots' = length slots.
Proof.
  unfold set_item. destruct (Nat.ltb_spec i (length slots)); [|discriminate].
  intros [= <-]. rewrite length_app. cbn [length].
  change (match slots with [] => [] | _ :: l => skipn i l end)
    with (skipn (S i) slots).
  rewrite length_firstn, length_skipn. lia.
Qed.

Lemma set_items_length {A} (xs : list A) : forall slots i slots',
  set_items slots i xs = Ok slots' -> length slots' = length slots.
Proof.
  induction xs as [|x xs IH]; simpl; intros slots i slots' H.
  - injection H as <-. reflexivity.
  - unfold rbind in H. destruct (set_item slots i x) as [s1| |] eqn:E;
      try discriminate.
    apply IH in H. apply set_item_length in E. congruence.
Qed.

Section Steps.

Variable W : World.
Variable evo_config : evoConf.
Variable population_argsort : list score -> list nat.

Let P : nat := population_size (search evo_config).

Lemma generate_batch_Ok fuel popsize st batch st' :
  generate_batch W fuel popsize st = Ok (batch, st') -> length batch = popsize.
Proof.
  unfold generate_batch, _fill_text. intros H.
  apply bind_Ok in H as (vs & st1 & H & Hret).
  apply ret_Ok in Hret as [-> ->].
  apply bind_Ok in H as (r & st2 & _ & H).
  apply lift_Ok in H as [H _].
  apply set_items_length in H. rewrite length_map, H. apply repeat_length.
Qed.

Lemma full_LLM_step_Ok fuel batch st batch' st' :
  full_LLM_step W population_argsort (search evo_config) fuel batch st
  = Ok (batch', st') ->
  length batch' = length batch.
Proof.
  unfold full_LLM_step. intros H.
  repeat (apply bind_Ok in H as (? & ? & _ & H)).
  apply lift_Ok in H as [H _]. apply set_values_Ok in H. tauto.
Qed.

Lemma LLM_evolve_step_Ok fuel batch st batch' st' :
  LLM_evolve_step W population_argsort (search evo_config) fuel batch st
  = Ok (batch', st') ->
  length batch' = length batch.
Proof.
  unfold LLM_evolve_step. intros H.
  repeat (apply bind_Ok in H as (? & ? & _ & H)).
  apply lift_Ok in H as [H _]. apply set_values_Ok in H. tauto.
Qed.

Lemma _step_Ok fuel population st batch st' :
  _step W evo_config population_argsort fuel population st = Ok (batch, st') ->
  scored batch
  /\ length batch = match population with
                    | None => P
                    | Some old => length old
                    end.
Proof.
  unfold _step. intros H.
  apply bind_Ok in H as (b & st1 & Hb & He).
  apply evaluate_values in He as (Hv & Hs & _).
  split; [exact Hs|].
  rewrite <- (length_map values), Hv, length_map.
  destruct population as [old|].
  - destruct (String.eqb (mode (search evo_config)) "full LLM").
    + eapply full_LLM_step_Ok, Hb.
    + destruct (String.eqb (mode (search evo_config)) "LLM evolve").
      * eapply LLM_evolve_step_Ok, Hb.
      * discriminate.
  - eapply generate_batch_Ok, Hb.
Qed.

Lemma run_Ok fuel n : forall population st r st',
  match population with Some old => length old = P | None => True end ->
  run W evo_config population_argsort fuel (S n) population st = Ok (r, st') ->
  exists batch, r = Some batch /\ length batch = P /\ scored batch.
Proof.
  induction n as [|n IH]; intros population st r st' Hinv H; cbn [run] in H.
  - apply bind_Ok in H as (batch & st1 & Hstep & Hret).
    apply ret_Ok in Hret as [-> ->].
    apply _step_Ok in Hstep as [Hs Hl].
    exists batch. repeat split; trivial.
    destruct population; congruence.
  - apply bind_Ok in H as (batch & st1 & Hstep & Hrun).
    apply _step_Ok in Hstep as [Hs Hl].
    apply (IH (Some batch) st1 r st'); trivial.
    destruct population; congruence.
Qed.

End Steps.

(** *** Steps that complete *)

Lemma bind_intro {A B} (m : M A) (k : A -> M B) st a st1 :
  m st = Ok (a, st1) -> bind m k st = k a st1.
Proof. intros H. unfold bind. rewrite H. reflexivity. Qed.

Arguments bind_intro {A B m} k {st a st1} _.

Lemma mapM_total {A B} (f : A -> M B) (l : list A) :
  (forall x, In x l -> forall st, exists b, f x st = Ok (b, st)) ->
  forall st, exists bs, mapM f l st = Ok (bs, st) /\ length bs = length l.
Proof.
  induction l as [|x l IH]; intros Hf st; cbn [mapM].
  - exists []. auto.
  - destruct (Hf x (or_introl eq_refl) st) as [b Hb].
    destruct (IH (fun y Hy => Hf y (or_intror Hy)) st) as (bs & Hbs & Hlen).
    exists (b :: bs). rewrite (bind_intro _ Hb), (bind_intro _ Hbs).
    simpl. auto.
Qed.

Lemma evaluate_total W evo_config batch :
  scoring W -> 1 <= population_size (search evo_config) ->
  forall st, exists r st', evaluate W evo_config batch st = Ok (r, st').
Proof.
  intros Hscore HP. unfold evaluate.
  induction batch as [|s batch IH]; intros st; cbn [mapM].
  - unfold ret. eauto.
  - assert (Hs : exists s' st1, _evaluate W evo_config s st = Ok (s', st1)).
    { unfold _evaluate. destruct (Hscore (evaluated st) (values s)) as [f ->].
      destruct (Nat.eqb_spec (population_size (search evo_config)) 0); [lia|].
      eauto. }
    destruct Hs as (s' & st1 & Hs). destruct (IH st1) as (r & st' & Hr).
    rewrite (bind_intro _ Hs), (bind_intro _ Hr). unfold ret. eauto.
Qed.

Lemma set_items_total {A} (xs : list A) : forall slots i,
  i + length xs <= length slots -> exists slots', set_items slots i xs = Ok slots'.
Proof.
  induction xs as [|x xs IH]; intros slots i Hlen; cbn [set_items length] in *;
    [eauto|].
  unfold set_item. destruct (Nat.ltb_spec i (length slots)); [|lia].
  cbn [rbind]. apply IH. rewrite length_app. cbn [length].
  rewrite length_firstn, length_skipn. lia.
Qed.

Lemma generate_batch_total W fuel popsize st :
  responsive W -> popsize <= fuel ->
  exists batch st', generate_batch W fuel popsize st = Ok (batch, st').
Proof.
  intros Hresp Hfuel. unfold generate_batch, _fill_text.
  assert (Hloop : exists prompts processed st1,
             fill_loop W (fun prompts => prompts) fuel fuel popsize [] [] st
             = Ok ((prompts, processed), st1)
             /\ length prompts <= popsize).
  { rewrite fill_loop_eq.
    destruct (Nat.ltb_spec (length (@nil string)) popsize) as [Hlt|Hge].
    - destruct fuel as [|fuel']; [simpl in Hlt; lia|].
      destruct (generate_loop_terminates (num := Z.of_nat popsize) Hresp
                  (S fuel') [] st) as (prompts & st1 & Hgen & Hlen);
        simpl; try lia.
      unfold generate_prompts. rewrite (bind_intro _ Hgen).
      rewrite fill_loop_eq.
      match goal with
      | |- context [Nat.ltb ?a ?b] => destruct (Nat.ltb_spec a b) as [Hlt'|_]
      end.
      + simpl in Hlt'. rewrite length_firstn in Hlt'. lia.
      + unfold ret. do 3 eexists. split; [reflexivity|lia].
    - unfold ret. do 3 eexists. split; [reflexivity|simpl; lia]. }
  destruct Hloop as (prompts & processed & st1 & Hloop & Hlen).
  destruct (@set_items_total string prompts (repeat EmptyString popsize) 0)
    as [slots Hslots].
  { rewrite repeat_length. simpl. lia. }
  unfold bind. rewrite Hloop. cbn [fst]. unfold lift. rewrite Hslots.
  unfold ret. eauto.
Qed.

Section Regeneration.

Variable W : World.
Variable population_argsort : list score -> list nat.
Variable config : searchConf.

Let P : nat := population_size config.

Lemma regenerate_loop_eq fuel ranking new_prompts :
  regenerate_loop W config fuel ranking new_prompts =
  if Nat.ltb (length new_prompts) P then
    match fuel with
    | O => fun _ => OutOfFuel
    | S fuel' =>
        bind (lift (full_LLM_prompt config ranking (P - length new_prompts)))
          (fun LLM_prompt =>
        bind (ask W LLM_prompt)
          (fun answers =>
             regenerate_loop W config fuel' ranking
               (new_prompts
                  ++ firstn (P - length new_prompts) (parse_llm_response answers))))
    end
  else ret new_prompts.
Proof. destruct fuel; reflexivity. Qed.

(** The loop of [full_LLM_step] stops with exactly [population_size]
    prompts when it starts with no more than that. *)
Lemma regenerate_loop_fills ranking : forall fuel new_prompts st r st',
  length new_prompts <= P ->
  regenerate_loop W config fuel ranking new_prompts st = Ok (r, st') ->
  length r = P.
Proof.
  induction fuel as [|fuel IH]; intros new_prompts st r st' Hle;
    rewrite regenerate_loop_eq;
    destruct (Nat.ltb_spec (length new_prompts) P) as [Hlt|Hge]; intros H.
  - discriminate.
  - inv_run. lia.
  - apply bind_Ok in H as (LLM_prompt & st0 & _ & H).
    apply bind_Ok in H as (answers & st1 & _ & H).
    apply IH in H; trivial. rewrite length_app, length_firstn. lia.
  - inv_run. lia.
Qed.

Lemma regenerate_loop_terminates ranking :
  responsive W -> report_formats config ->
  forall fuel new_prompts st,
    length new_prompts <= P -> P - length new_prompts <= fuel ->
    exists r st', regenerate_loop W config fuel ranking new_prompts st = Ok (r, st')
                  /\ length r = P.
Proof.
  intros Hresp Hformat.
  induction fuel as [|fuel IH]; intros new_prompts st Hle Hfuel;
    rewrite regenerate_loop_eq;
    destruct (Nat.ltb_spec (length new_prompts) P) as [Hlt|Hge].
  - lia.
  - exists new_prompts, st. split; [reflexivity|lia].
  - destruct (Hformat ranking (P - length new_prompts)) as [LLM_prompt ->].
    unfold bind at 1. cbn [lift].
    destruct (ask_returns W LLM_prompt st) as (r & Hask & Hq).
    rewrite (bind_intro _ Hask).
    destruct (Hresp _ _ _ Hq) as [Hbal Hne].
    assert (Hparse : parse_llm_response r <> []).
    { unfold parse_llm_response. rewrite Hbal, Nat.eqb_refl. exact Hne. }
    assert (Hlen : 1 <= length (parse_llm_response r)).
    { destruct (parse_llm_response r); [contradiction|simpl; lia]. }
    apply IH; rewrite length_app, length_firstn; lia.
  - exists new_prompts, st. split; [reflexivity|lia].
Qed.

(** With a responsive oracle, a population of the configured size that
    the batch ranks, and elites and novel prompts that fit into the
    population, a regeneration step builds the new population. *)
Lemma full_LLM_step_total fuel population elite_count novel_count st :
  responsive W -> rng_ok W -> report_formats config ->
  sample config = false ->
  num_elites config = Ok elite_count -> num_novel config = Ok novel_count ->
  (0 <= elite_count)%Z -> (0 <= novel_count)%Z ->
  (elite_count + novel_count <= Z.of_nat P)%Z ->
  1 <= P -> P <= fuel ->
  length population = P ->
  Permutation (population_argsort (map evals population))
    (seq 0 (length population)) ->
  exists batch st',
    full_LLM_step W population_argsort config fuel population st = Ok (batch, st').
Proof.
  intros Hresp Hrng Hformat Hs Hke Hkn He0 Hn0 Hfit HP Hfuel Hpop Hrank.
  set (indices := population_argsort (map evals population)).
  assert (Hlen : length indices = P).
  { unfold indices. rewrite (Permutation_length Hrank), length_seq. exact Hpop. }
  assert (Hrange : forall i, In i indices -> i < P).
  { intros i Hi. apply (Permutation_in _ Hrank) in Hi. apply in_seq in Hi. lia. }
  unfold full_LLM_step. fold indices.
  destruct indices as [|best_idx rest] eqn:Ei; [simpl in Hlen; lia|].
  rewrite <- Ei in *. clearbody indices.
  assert (Hbest : lift (getitem indices 0) st = Ok (best_idx, st)).
  { rewrite Ei. reflexivity. }
  rewrite (bind_intro _ Hbest).
  set (pop_evals := map (fun i => evals (nth i population unset))
                      (seq 0 (length indices))).
  assert (Hsel : select evals population (seq 0 (length indices)) st
                 = Ok (pop_evals, st)).
  { apply select_ok. apply Forall_forall. intros i Hi. apply in_seq in Hi. lia. }
  rewrite (bind_intro _ Hsel).
  assert (Hpe : length pop_evals = P).
  { unfold pop_evals. rewrite length_map, length_seq. exact Hlen. }
  destruct (mapM_total
              (fun i => v <- lift (getitem (map values population) i) ;;
                        e <- lift (getitem pop_evals i) ;;
                        ret (i + 1, v, e)) indices) with (st := st)
    as (ranking & Hranking & _).
  { intros i Hi st0. specialize (Hrange i Hi).
    unfold bind, lift.
    rewrite (getitem_nth (map values population) EmptyString)
      by (rewrite length_map; lia).
    rewrite (getitem_nth pop_evals None) by lia. unfold ret. eauto. }
  rewrite (bind_intro _ Hranking).
  assert (Hb : lift (getitem (map values population) best_idx) st
               = Ok (nth best_idx (map values population) EmptyString, st)).
  { unfold lift. rewrite (getitem_nth (map values population) EmptyString); trivial.
    rewrite length_map, Hpop. apply Hrange. rewrite Ei. left. trivial. }
  rewrite (bind_intro _ Hb).
  destruct (@get_elites_total W population_argsort config population
              elite_count st Hrng Hke)
    as (elite & st1 & Helite & Hel & _); trivial.
  { fold P. lia. }
  { rewrite Hs. discriminate. }
  rewrite (bind_intro _ Helite).
  destruct (@get_novel_total W config fuel novel_count st1 Hresp Hkn)
    as (novel & st2 & Hnovel & Hnl); [lia|].
  rewrite (bind_intro _ Hnovel).
  destruct (@regenerate_loop_terminates ranking Hresp Hformat fuel
              (elite ++ novel) st2)
    as (new_prompts & st3 & Hloop & Hnew).
  { rewrite length_app. lia. }
  { lia. }
  rewrite (bind_intro _ Hloop).
  unfold lift, set_values. rewrite Hnew, Hpop, Nat.eqb_refl. eauto.
Qed.

End Regeneration.

(** A step of the regeneration engine completes: the first one, which
    generates the population, and the later ones, under the conditions
    of [full_LLM_step_total], when the fitness source returns scores. *)
Lemma regeneration_step_completes W evo_config population_argsort fuel population
      elite_count novel_count st :
  let config := search evo_config in
  let P := population_size config in
  responsive W -> rng_ok W -> scoring W -> report_formats config ->
  mode config = "full LLM" -> sample config = false ->
  num_elites config = Ok elite_count -> num_novel config = Ok novel_count ->
  (0 <= elite_count)%Z -> (0 <= novel_count)%Z ->
  (elite_count + novel_count <= Z.of_nat P)%Z ->
  1 <= P -> P <= fuel ->
  match population with
  | None => True
  | Some old =>
      length old = P
      /\ Permutation (population_argsort (map evals old)) (seq 0 (length old))
  end ->
  exists batch st',
    _step W evo_config population_argsort fuel population st = Ok (batch, st').
Proof.
  intros config P Hresp Hrng Hscore Hformat Hmode Hs Hke Hkn He0 Hn0 Hfit HP
    Hfuel Hpop.
  unfold _step. fold config.
  assert (Hnew : exists batch st1,
             match population with
             | None => generate_batch W fuel (population_size config)
             | Some batch =>
                 if String.eqb (mode config) "full LLM"
                 then full_LLM_step W population_argsort config fuel batch
                 else if String.eqb (mode config) "LLM evolve"
                      then LLM_evolve_step W population_argsort config fuel batch
                      else raise ValueError
             end st = Ok (batch, st1)).
  { destruct population as [old|].
    - rewrite Hmode. simpl. destruct Hpop as [Hlen Hrank].
      eapply full_LLM_step_total; eauto.
    - apply generate_batch_total; trivial. }
  destruct Hnew as (batch & st1 & Hnew).
  rewrite (bind_intro _ Hnew). apply evaluate_total; [exact Hscore|exact HP].
Qed.

(** C1: whatever the configuration, the population of the text-mode
    engine has exactly [population_size] members, each with a score,
    after every completed step: after the first one, which generates the
    initial population, after every later one, and after a step from any
    population of that size. *)
Theorem step_keeps_population_size_and_scores :
  forall (W : World) (evo_config : evoConf)
         (population_argsort : list score -> list nat) (fuel : nat),
    let P := population_size (search evo_config) in
    (forall n st r st',
        run W evo_config population_argsort fuel (S n) None st = Ok (r, st') ->
        exists batch, r = Some batch /\ length batch = P /\ scored batch)
    /\ (forall population st batch st',
           length population = P ->
           _step W evo_config population_argsort fuel (Some population) st
           = Ok (batch, st') ->
           length batch = P /\ scored batch).
Proof.
  intros W evo_config population_argsort fuel P. split.
  - intros n st r st'. apply run_Ok. exact I.
  - intros population st batch st' Hlen H.
    apply _step_Ok in H as [Hs Hl]. split; [congruence|exact Hs].
Qed.

(** ** A sample run *)

Lemma demo_world_rng_ok : rng_ok demo_world.
Proof.
  split.
  - intros i n. simpl. symmetry. apply Permutation_rev.
  - intros i. simpl. split; [discriminate|reflexivity].
Qed.

Example demo_elites_are_highest :
  get_elites demo_world batch_argsort demo_search demo_population init_St
  = Ok (["a"; "c"], init_St).
Proof. reflexivity. Qed.

Example demo_tournament_takes_lowest :
  returned (tournament_selection demo_world demo_search
              (map values demo_population) (map evals demo_population) 2 init_St)
  = Ok ["d"; "b"].
Proof. reflexivity. Qed.

Example demo_two_steps :
  returned (run demo_world demo_evo argsort 10 2 None init_St)
  = Ok (Some [ {| values := "slow jazz"; evals := Some 13%Q |};
               {| values := "slow jazz"; evals := Some 14%Q |};
               {| values := "slow jazz"; evals := Some 15%Q |};
               {| values := "slow jazz"; evals := Some 16%Q |} ]).
Proof. vm_compute. reflexivity. Qed.

Lemma step_keeps_population_size_and_scores_witness :
  exists r st',
    run demo_world demo_evo argsort 10 2 None init_St = Ok (r, st')
    /\ exists batch, r = Some batch /\ length batch = 4 /\ scored batch.
Proof.
  do 2 eexists. split.
  - vm_compute. reflexivity.
  - eapply (proj1 (@step_keeps_population_size_and_scores
                     demo_world demo_evo argsort 10) 1 init_St).
    vm_compute. reflexivity.
Defined.



Lemma elite_and_novel_counts_are_truncated_float_products_witness :
  num_elites demo_search = Ok 2%Z /\ num_novel demo_search = Ok 1%Z
  /\ exists r,
       get_elites demo_world batch_argsort demo_search demo_population init_St
       = Ok (r, init_St)
       /\ Z.of_nat (length r) = 2%Z.
Proof.
  split; [reflexivity|]. split; [reflexivity|].
  exists ["a"; "c"]. split; [reflexivity|].
  refine (proj1 (proj1 (proj2
            (@elite_and_novel_counts_are_truncated_float_products
               demo_world batch_argsort demo_search))
            demo_population 2%Z init_St _ init_St demo_world_rng_ok eq_refl
            _ eq_refl _ eq_refl)).
  - simpl. lia.
  - rewrite <- (length_map evals). apply batch_argsort_best_first.
Defined.

(** C3, as stated, fails where rounding moves the product: with the
    elite fraction 0.7 and ten prompts the float product is 7.0 and seven
    elites are kept, while the fraction lies below 7/10 and the floor of
    the exact product is 6; with the fraction 0.58 and fifty prompts the
    float product lies below 29 and 28 elites are kept, while the floor
    of 58/100 * 50 is 29. *)
Lemma float_product_count_is_not_the_floor :
  num_elites demo_rounding_search = Ok 7%Z
  /\ Qfloor (float_value (elites demo_rounding_search) * 10) = 6%Z
  /\ (exists r,
        get_elites demo_world batch_argsort demo_rounding_search demo_ten init_St
        = Ok (r, init_St)
        /\ length r = 7)
  /\ num_elites demo_truncating_search = Ok 28%Z
  /\ Qfloor ((58 # 100) * 50) = 29%Z.
Proof.
  split; [vm_compute; reflexivity|]. split; [vm_compute; reflexivity|].
  split; [eexists; split; vm_compute; reflexivity|].
  split; vm_compute; reflexivity.
Qed.

Lemma stage_never_triggered_subsamples_witness :
  rng_ok demo_world
  /\ (probability demo_stage == 0)%Q
  /\ length ["a"; "b"; "c"] = input demo_stage
  /\ output demo_stage <= input demo_stage
  /\ returned (apply demo_world 5 demo_stage ["a"; "b"; "c"] init_St)
     = Ok ["c"; "b"]
  /\ exists positions,
       apply demo_world 5 demo_stage ["a"; "b"; "c"] init_St
       = Ok (map (fun i => nth i ["a"; "b"; "c"] EmptyString) positions,
             drawn (drawn init_St))
       /\ length positions = output demo_stage /\ NoDup positions.
Proof.
  assert (Hp : (probability demo_stage == 0)%Q) by reflexivity.
  assert (Ho : output demo_stage <= input demo_stage) by (simpl; lia).
  split; [exact demo_world_rng_ok|]. split; [exact Hp|].
  split; [reflexivity|]. split; [exact Ho|]. split; [reflexivity|].
  destruct (@stage_never_triggered_subsamples demo_world 5 demo_stage
              ["a"; "b"; "c"] init_St demo_world_rng_ok Hp eq_refl Ho)
    as (positions & Hrun & _ & Hlen & Hnd & _).
  exists positions. auto.
Defined.

(** C5, as stated, fails for a stage with more outputs than inputs: with
    trigger probability 0 it raises instead of returning a subsample. *)
Lemma stage_never_triggered_may_raise :
  (probability demo_short_stage == 0)%Q
  /\ length ["a"] = input demo_short_stage
  /\ apply demo_world 5 demo_short_stage ["a"] init_St = Raise ValueError
  /\ ~ exists out st',
         apply demo_world 5 demo_short_stage ["a"] init_St = Ok (out, st')
         /\ length out = output demo_short_stage.
Proof.
  split; [reflexivity|]. split; [reflexivity|]. split; [reflexivity|].
  intros (out & st' & H & _). discriminate H.
Qed.

Lemma stage_pass_through_needs_enough_inputs_witness :
  length ["a"] = input demo_short_stage
  /\ input demo_short_stage < output demo_short_stage
  /\ gate_closed demo_short_stage (rand_of demo_world (draws init_St))
  /\ apply demo_world 5 demo_short_stage ["a"] init_St = Raise ValueError.
Proof.
  assert (Ho : input demo_short_stage < output demo_short_stage) by (simpl; lia).
  split; [reflexivity|]. split; [exact Ho|]. split; [reflexivity|].
  apply (proj1 (@stage_pass_through_needs_enough_inputs
                  demo_short_stage ["a"] eq_refl Ho) demo_world 5 init_St).
  reflexivity.
Defined.



Lemma progress_bookkeeping_witness :
  Qeq_bool (sample_time init_progress) 0 = true
  /\ sample_time (tick 4 1 init_progress) = 1%Q
  /\ generated (ticks 4 [1; 2; 3]%Q init_progress) = 3
  /\ generated (ticks 4 [1; 2; 3; 4]%Q init_progress) = 0.
Proof.
  pose proof (@progress_bookkeeping 4 1 init_progress) as H.
  split; [reflexivity|]. split.
  - apply (proj1 (proj2 H)). reflexivity.
  - destruct H as (_ & _ & _ & _ & H & _). split.
    + apply (proj1 (H [1; 2; 3]%Q eq_refl eq_refl)). simpl. lia.
    + apply (proj2 (H [1; 2; 3; 4]%Q eq_refl eq_refl)). reflexivity.
Defined.

(* ===================================================================== *)
(** * Further properties of the engine *)
(* ===================================================================== *)

(** ** [generate_prompts] *)

Lemma ask_Ok W instruction st r st' :
  ask W instruction st = Ok (r, st') ->
  st' = called st /\ query_llm (transport_of W (calls st)) instruction = Ok r.
Proof.
  destruct (ask_returns W instruction st) as (r0 & H0 & Hq).
  rewrite H0. intros [= <- <-]. auto.
Qed.

Lemma only_asked_refl st : only_asked st st.
Proof. unfold only_asked. auto. Qed.

Lemma only_asked_called st st' : only_asked (called st) st' -> only_asked st st'.
Proof. unfold only_asked, called. simpl. intuition lia. Qed.

Lemma only_asked_trans st1 st2 st3 :
  only_asked st1 st2 -> only_asked st2 st3 -> only_asked st1 st3.
Proof. unfold only_asked. intuition (try congruence; try lia). Qed.

Lemma collect_trimmed num answers : forall prompts,
  Forall trimmed prompts -> Forall trimmed (collect num prompts answers).
Proof.
  induction answers as [|a rest IH]; simpl; intros prompts Hall; trivial.
  assert (Hall' : Forall trimmed
                    match extract a with
                    | Some p => prompts ++ [p]
                    | None => prompts
                    end).
  { destruct (extract a) as [p|] eqn:E; trivial.
    apply Forall_app. split; trivial.
    constructor; [|constructor]. exact (extract_trimmed _ E). }
  destruct (_ <=? _)%Z; auto.
Qed.

(** What a run of the loop of [generate_prompts] can end in. *)
Lemma generate_loop_outcome W num fuel : forall prompts st,
  Forall trimmed prompts ->
  (Z.of_nat (length prompts) <= num)%Z ->
  match generate_loop W fuel num prompts st with
  | Ok (r, st') =>
      Z.of_nat (length r) = num /\ Forall trimmed r /\ only_asked st st'
  | Raise _ => False
  | OutOfFuel => True
  end.
Proof.
  induction fuel as [|fuel IH]; intros prompts st Hall Hle;
    rewrite generate_loop_eq;
    destruct (Z.ltb_spec (Z.of_nat (length prompts)) num) as [Hlt|Hge].
  - exact I.
  - simpl. repeat split; trivial; lia.
  - destruct (ask_returns W (generate_instruction (num - Z.of_nat (length prompts))) st)
      as (r & Hask & _).
    rewrite (bind_intro _ Hask).
    destruct (negb _).
    + specialize (IH prompts (called st) Hall Hle).
      destruct (generate_loop W fuel num prompts (called st)) as [[r' st']| |];
        trivial.
      destruct IH as (? & ? & ?). auto using only_asked_called.
    + pose proof (collect_bounds (PyStr.split close_tag r) prompts Hlt) as [_ Hub].
      specialize (IH _ (called st)
                    (collect_trimmed num (PyStr.split close_tag r) Hall) Hub).
      destruct (generate_loop W fuel num _ (called st)) as [[r' st']| |]; trivial.
      destruct IH as (? & ? & ?). auto using only_asked_called.
  - simpl. repeat split; trivial; lia.
Qed.

(** With a responsive oracle every request brings at least one prompt. *)
Lemma generate_loop_requests W num :
  responsive W ->
  forall fuel prompts st r st',
    (Z.of_nat (length prompts) <= num)%Z ->
    generate_loop W fuel num prompts st = Ok (r, st') ->
    (Z.of_nat (calls st') + Z.of_nat (length prompts)
     <= Z.of_nat (calls st) + num)%Z.
Proof.
  intros Hresp. induction fuel as [|fuel IH]; intros prompts st r st' Hle;
    rewrite generate_loop_eq;
    destruct (Z.ltb_spec (Z.of_nat (length prompts)) num) as [Hlt|Hge]; intros H.
  - discriminate.
  - inv_run. lia.
  - apply bind_Ok in H as (answers & st1 & Hask & H).
    apply ask_Ok in Hask as [-> Hq].
    destruct (Hresp _ _ _ Hq) as [Hbal Hne].
    rewrite Hbal, Nat.eqb_refl in H. simpl in H.
    pose proof (collect_bounds (PyStr.split close_tag answers) prompts Hlt)
      as [_ Hub].
    pose proof (collect_grows (PyStr.split close_tag answers) prompts Hlt Hne)
      as Hgrow.
    apply IH in H; trivial. unfold called in H. cbn [calls] in H. lia.
  - inv_run. lia.
Qed.

(** X1: [generate_prompts] never raises; when it returns, it returns
    exactly the number of prompts asked for (none for a number that is
    not positive), every prompt without white space at either end, and it
    has done nothing but send requests; with a responsive oracle it
    returns within as many requests as prompts were asked for. *)
Theorem generate_prompts_exact_and_trimmed :
  forall (W : World) (fuel : nat) (num_prompts : Z) (st : St),
    no_exception (generate_prompts W fuel num_prompts st)
    /\ (forall r st',
           generate_prompts W fuel num_prompts st = Ok (r, st') ->
           Z.of_nat (length r) = Z.max 0 num_prompts
           /\ Forall trimmed r
           /\ only_asked st st'
           /\ (responsive W ->
               (Z.of_nat (calls st') <= Z.of_nat (calls st) + Z.max 0 num_prompts)%Z))
    /\ (responsive W -> (num_prompts <= Z.of_nat fuel)%Z ->
        exists r st', generate_prompts W fuel num_prompts st = Ok (r, st')).
Proof.
  intros W fuel num st.
  destruct (Z.le_gt_cases num 0) as [Hneg|Hpos].
  - rewrite (generate_prompts_nothing W fuel st Hneg).
    split; [intros e; discriminate|]. split.
    + intros r st' [= <- <-]. simpl.
      repeat split; trivial; lia.
    + eauto.
  - unfold generate_prompts.
    pose proof (@generate_loop_outcome W num fuel [] st (Forall_nil _)) as Hout.
    simpl in Hout. specialize (Hout ltac:(lia)).
    split; [|split].
    + intros e E. rewrite E in Hout. exact Hout.
    + intros r st' E. rewrite E in Hout. destruct Hout as (Hlen & Hall & Hst).
      repeat split; trivial; try lia; try apply Hst.
      intros Hresp.
      pose proof (@generate_loop_requests W num Hresp fuel [] st r st') as Hreq.
      simpl in Hreq. specialize (Hreq ltac:(lia) E). lia.
    + intros Hresp Hfuel.
      destruct (@generate_loop_terminates W num Hresp fuel [] st)
        as (r & st' & Hr & _); simpl; try lia. eauto.
Qed.

Lemma generate_prompts_exact_and_trimmed_witness :
  responsive demo_world
  /\ returned (generate_prompts demo_world 5 3 init_St)
     = Ok ["slow jazz"; "fast techno"; "slow jazz"]
  /\ exists r st', generate_prompts demo_world 5 3 init_St = Ok (r, st').
Proof.
  assert (Hresp : responsive demo_world).
  { intros i instruction r H. vm_compute in H. injection H as <-.
    split; [reflexivity|discriminate]. }
  split; [exact Hresp|]. split; [reflexivity|].
  apply (proj2 (proj2 (@generate_prompts_exact_and_trimmed demo_world 5 3 init_St)));
    [exact Hresp|lia].
Defined.

(** ** An oracle that cannot be reached *)

Lemma ask_fallback W instruction st :
  never_answers W -> ask W instruction st = Ok (fallback, called st).
Proof.
  intros Hdown. destruct (ask_returns W instruction st) as (r & Hask & Hq).
  destruct (Hdown (calls st) instruction) as [e He].
  pose proof (query_llm_cases (transport_of W (calls st)) instruction) as Hc.
  rewrite He in Hc. rewrite Hc in Hq. injection Hq as <-. exact Hask.
Qed.

Lemma apply_loop_eq W fuel config inputs out :
  apply_loop W fuel config inputs out =
  if Nat.ltb (length out) (output config) then
    match fuel with
    | O => fun _ => OutOfFuel
    | S fuel' =>
        bind (lift (prompt config
                      (map (fun i => numbered i (nth i inputs EmptyString))
                         (seq 0 (length inputs)))))
          (fun LLM_prompt =>
        bind (ask W LLM_prompt)
          (fun answers =>
             apply_loop W fuel' config inputs
               (out ++ firstn (output config - length out)
                         (parse_llm_response answers))))
    end
  else ret out.
Proof. destruct fuel; reflexivity. Qed.

Lemma generate_loop_starves W num :
  never_answers W ->
  forall fuel prompts st,
    (Z.of_nat (length prompts) < num)%Z ->
    generate_loop W fuel num prompts st = OutOfFuel.
Proof.
  intros Hdown. induction fuel as [|fuel IH]; intros prompts st Hlt;
    rewrite generate_loop_eq;
    destruct (Z.ltb_spec (Z.of_nat (length prompts)) num) as [_|Hge];
    try lia; trivial.
  rewrite (bind_intro _ (ask_fallback _ st Hdown)).
  change (negb (Nat.eqb (PyStr.count open_tag fallback)
                        (PyStr.count close_tag fallback)))
    with false. cbv iota.
  change (PyStr.split close_tag fallback) with [fallback].
  assert (E : collect num prompts [fallback] = prompts).
  { cbn [collect]. change (extract fallback) with (@None string).
    destruct (num <=? Z.of_nat (length prompts))%Z; reflexivity. }
  rewrite E. apply IH, Hlt.
Qed.

Lemma apply_loop_starves W config inputs :
  never_answers W -> stage_formats config ->
  forall fuel out st,
    length out < output config ->
    apply_loop W fuel config inputs out st = OutOfFuel.
Proof.
  intros Hdown Hformat. induction fuel as [|fuel IH]; intros out st Hlt;
    rewrite apply_loop_eq;
    destruct (Nat.ltb_spec (length out) (output config)) as [_|Hge];
    try lia; trivial.
  match goal with
  | |- context [prompt config ?l] => destruct (Hformat l) as [LLM_prompt ->]
  end.
  unfold bind at 1. cbn [lift].
  rewrite (bind_intro _ (ask_fallback _ st Hdown)).
  change (parse_llm_response fallback) with (@nil string).
  rewrite firstn_nil, app_nil_r. apply IH, Hlt.
Qed.

Lemma regenerate_loop_starves W config ranking :
  never_answers W -> report_formats config ->
  forall fuel new_prompts st,
    length new_prompts < population_size config ->
    regenerate_loop W config fuel ranking new_prompts st = OutOfFuel.
Proof.
  intros Hdown Hformat. induction fuel as [|fuel IH]; intros new_prompts st Hlt;
    rewrite regenerate_loop_eq;
    destruct (Nat.ltb_spec (length new_prompts) (population_size config))
      as [_|Hge]; try lia; trivial.
  destruct (Hformat ranking (population_size config - length new_prompts))
    as [LLM_prompt ->].
  unfold bind at 1. cbn [lift].
  rewrite (bind_intro _ (ask_fallback _ st Hdown)).
  change (parse_llm_response fallback) with (@nil string).
  rewrite firstn_nil, app_nil_r. apply IH, Hlt.
Qed.

(** X2: the fallback text of [query_llm] holds no prompt, so with an
    oracle that cannot be reached every loop that waits for prompts goes
    on asking: [generate_prompts] for a positive number, a triggered
    operator stage with a positive output arity, the loop of
    [full_LLM_step] on a population that is short (both with a template
    that can be filled), and the generation of a first population are
    still running whatever the fuel. *)
Theorem unreachable_oracle_starves_the_loops :
  forall (W : World),
    never_answers W ->
    (forall fuel num_prompts st,
        (0 < num_prompts)%Z ->
        still_running (generate_prompts W fuel num_prompts st))
    /\ (forall fuel config inputs st,
           stage_formats config ->
           length inputs = input config ->
           ~ gate_closed config (rand_of W (draws st)) ->
           0 < output config ->
           still_running (apply W fuel config inputs st))
    /\ (forall config fuel ranking new_prompts st,
           report_formats config ->
           length new_prompts < population_size config ->
           still_running (regenerate_loop W config fuel ranking new_prompts st))
    /\ (forall fuel popsize st,
           0 < popsize ->
           still_running (generate_batch W fuel popsize st)).
Proof.
  intros W Hdown. unfold still_running. split; [|split; [|split]].
  - intros fuel num st Hnum. unfold generate_prompts.
    apply generate_loop_starves; trivial.
  - intros fuel config inputs st Hformat Hlen Hgate Hout.
    unfold apply. rewrite Hlen, Nat.eqb_refl. simpl.
    unfold bind at 1. unfold np_rand.
    unfold gate_closed in Hgate.
    destruct (Qle_bool (probability config) (rand_of W (draws st)));
      [contradiction|].
    simpl. apply apply_loop_starves; trivial.
  - intros config fuel ranking new_prompts st Hformat Hlt.
    apply regenerate_loop_starves; trivial.
  - intros fuel popsize st Hpop.
    unfold generate_batch, _fill_text, bind. rewrite fill_loop_eq.
    destruct (Nat.ltb_spec (length (@nil string)) popsize) as [_|Hge];
      [|simpl in Hge; lia].
    destruct fuel as [|fuel]; trivial.
    unfold bind, generate_prompts.
    rewrite generate_loop_starves; trivial. simpl. lia.
Qed.

Lemma unreachable_oracle_starves_the_loops_witness :
  never_answers silent_world
  /\ generate_prompts silent_world 100 2 init_St = OutOfFuel
  /\ stage_formats demo_eager_stage
  /\ apply silent_world 100 demo_eager_stage ["a"; "b"] init_St = OutOfFuel.
Proof.
  assert (Hdown : never_answers silent_world).
  { intros i instruction. exists ConnectionError. reflexivity. }
  assert (Hformat : stage_formats demo_eager_stage).
  { intros prompts. eexists. reflexivity. }
  pose proof (@unreachable_oracle_starves_the_loops silent_world Hdown)
    as (Hgen & Hstage & _).
  split; [exact Hdown|]. split; [apply Hgen; lia|]. split; [exact Hformat|].
  apply Hstage; trivial.
  - intros H. discriminate H.
  - simpl. lia.
Defined.

(** ** A triggered operator stage *)

Lemma parse_trimmed response : Forall trimmed (parse_llm_response response).
Proof.
  apply Forall_forall. intros p Hp.
  destruct (parse_In _ _ Hp) as (a & _ & Ea). exact (extract_trimmed _ Ea).
Qed.

Lemma responsive_parse W i instruction r :
  responsive W ->
  query_llm (transport_of W i) instruction = Ok r ->
  1 <= length (parse_llm_response r).
Proof.
  intros Hresp Hq. destruct (Hresp _ _ _ Hq) as [Hbal Hne].
  unfold parse_llm_response. rewrite Hbal, Nat.eqb_refl. simpl.
  destruct (extract_all _); [contradiction|simpl; lia].
Qed.

Lemma apply_loop_outcome W config inputs fuel : forall out st,
  Forall trimmed out ->
  length out <= output config ->
  match apply_loop W fuel config inputs out st with
  | Ok (r, st') =>
      length r = output config /\ Forall trimmed r /\ only_asked st st'
      /\ (length out < output config -> calls st < calls st')
  | Raise e => prompt config (listing inputs) = Raise e
  | OutOfFuel => True
  end.
Proof.
  unfold listing.
  induction fuel as [|fuel IH]; intros out st Hall Hle;
    rewrite apply_loop_eq;
    destruct (Nat.ltb_spec (length out) (output config)) as [Hlt|Hge].
  - exact I.
  - simpl. repeat split; trivial; lia.
  - unfold bind at 1.
    destruct (prompt config
                (map (fun i => numbered i (nth i inputs EmptyString))
                   (seq 0 (length inputs)))) as [LLM_prompt|e|] eqn:Eformat;
      cbn [lift]; [|reflexivity|exact I].
    match goal with
    | |- context [ask W ?i] =>
        destruct (ask_returns W i st) as (r & Hask & _);
        rewrite (bind_intro _ Hask)
    end.
    match goal with
    | |- context [apply_loop W fuel config inputs ?o ?s] =>
        specialize (IH o s);
        destruct (apply_loop W fuel config inputs o s) as [[r' st']| |]; trivial
    end.
    + destruct IH as (Hlen & Htr & Hst & _).
      * apply Forall_app. split; trivial.
        apply Forall_firstn_of, parse_trimmed.
      * rewrite length_app, length_firstn. lia.
      * split; [exact Hlen|]. split; [exact Htr|].
        split; [apply only_asked_called, Hst|].
        intros _. destruct Hst as (_ & _ & _ & Hc).
        unfold called in Hc. cbn [calls] in Hc. lia.
    + apply IH.
      * apply Forall_app. split; trivial.
        apply Forall_firstn_of, parse_trimmed.
      * rewrite length_app, length_firstn. lia.
  - simpl. repeat split; trivial; lia.
Qed.

Lemma apply_loop_terminates W config inputs :
  responsive W -> stage_formats config ->
  forall fuel out st,
    length out <= output config -> output config - length out <= fuel ->
    exists r st',
      apply_loop W fuel config inputs out st = Ok (r, st')
      /\ calls st' + length out <= calls st + output config.
Proof.
  intros Hresp Hformat. induction fuel as [|fuel IH]; intros out st Hle Hfuel;
    rewrite apply_loop_eq;
    destruct (Nat.ltb_spec (length out) (output config)) as [Hlt|Hge].
  - lia.
  - exists out, st. split; [reflexivity|lia].
  - match goal with
    | |- context [prompt config ?l] => destruct (Hformat l) as [LLM_prompt ->]
    end.
    unfold bind at 1. cbn [lift].
    match goal with
    | |- context [ask W ?i] =>
        destruct (ask_returns W i st) as (r & Hask & Hq);
        rewrite (bind_intro _ Hask)
    end.
    pose proof (responsive_parse _ _ Hresp Hq) as Hparse.
    match goal with
    | |- context [apply_loop W fuel config inputs ?o ?s] =>
        destruct (IH o s) as (r' & st' & Hr & Hc)
    end.
    + rewrite length_app, length_firstn. lia.
    + rewrite length_app, length_firstn. lia.
    + exists r', st'. split; [exact Hr|].
      rewrite length_app, length_firstn in Hc. unfold called in Hc.
      cbn [calls] in Hc. lia.
  - exists out, st. split; [reflexivity|lia].
Qed.

Lemma apply_triggered W fuel config inputs st :
  length inputs = input config ->
  ~ gate_closed config (rand_of W (draws st)) ->
  apply W fuel config inputs st = apply_loop W fuel config inputs [] (drawn st).
Proof.
  intros Hlen Hgate. unfold apply. rewrite Hlen, Nat.eqb_refl. simpl.
  unfold bind at 1. unfold np_rand. fold (drawn st).
  unfold gate_closed in Hgate.
  destruct (Qle_bool (probability config) (rand_of W (draws st)));
    [contradiction|reflexivity].
Qed.

(** X3: a stage whose trigger fires, as it always does with a trigger
    probability of 1 or more.  When it returns, the group has exactly
    [output] prompts, all parsed from answers of the oracle and without
    white space at either end, after one random draw and at least one
    request if [output] is positive.  The only exception it can raise is
    the one its template raises on the inputs, which it raises before
    any request; with a template that can be filled it never raises,
    and with a responsive oracle it returns within [output] requests. *)
Theorem triggered_stage_collects_exactly_output :
  forall (W : World) (fuel : nat) (config : LLMPromptOperator)
         (inputs : list string) (st : St),
    length inputs = input config ->
    (rng_ok W -> (1 <= probability config)%Q ->
     ~ gate_closed config (rand_of W (draws st)))
    /\ (~ gate_closed config (rand_of W (draws st)) ->
        (forall r st',
            apply W fuel config inputs st = Ok (r, st') ->
            length r = output config /\ Forall trimmed r
            /\ draws st' = S (draws st) /\ calls st <= calls st'
            /\ (0 < output config -> calls st < calls st'))
        /\ (forall e,
               apply W fuel config inputs st = Raise e ->
               prompt config (listing inputs) = Raise e)
        /\ (forall e,
               prompt config (listing inputs) = Raise e ->
               0 < output config -> 0 < fuel ->
               apply W fuel config inputs st = Raise e)
        /\ (stage_formats config ->
            no_exception (apply W fuel config inputs st)
            /\ (responsive W -> output config <= fuel ->
                exists r st',
                  apply W fuel config inputs st = Ok (r, st')
                  /\ calls st' <= calls st + output config))).
Proof.
  intros W fuel config inputs st Hlen. split.
  - intros [_ Hrand] Hp Hgate. unfold gate_closed in Hgate.
    apply Qle_bool_iff in Hgate. destruct (Hrand (draws st)) as [_ Hlt].
    apply (Qlt_irrefl 1). eapply Qle_lt_trans; [|exact Hlt].
    eapply Qle_trans; eauto.
  - intros Hgate. rewrite (apply_triggered W fuel inputs st Hlen Hgate).
    pose proof (@apply_loop_outcome W config inputs fuel [] (drawn st)
                  (Forall_nil _) (Nat.le_0_l _)) as Hout.
    split; [|split; [|split]].
    + intros r st' E. rewrite E in Hout.
      destruct Hout as (Hl & Htr & (Hd & _ & _ & Hc) & Hs).
      simpl in *. repeat split; trivial.
    + intros e E. rewrite E in Hout. exact Hout.
    + intros e E Hpos Hfuel. destruct fuel as [|fuel]; [lia|].
      rewrite apply_loop_eq. cbn [length].
      destruct (Nat.ltb_spec 0 (output config)); [|lia].
      unfold listing in E. unfold bind at 1. rewrite E. reflexivity.
    + intros Hformat. split.
      * intros e E. rewrite E in Hout.
        destruct (Hformat (listing inputs)) as [instruction Hi]. congruence.
      * intros Hresp Hfuel.
        destruct (@apply_loop_terminates W config inputs Hresp Hformat fuel []
                    (drawn st))
          as (r & st' & Hr & Hc); simpl; try lia.
        exists r, st'. split; [exact Hr|]. simpl in Hc. lia.
Qed.

Lemma demo_world_responsive : responsive demo_world.
Proof.
  intros i instruction r H. vm_compute in H. injection H as <-.
  split; [reflexivity|discriminate].
Qed.

Lemma triggered_stage_collects_exactly_output_witness :
  length ["a"; "b"] = input demo_eager_stage
  /\ ~ gate_closed demo_eager_stage (rand_of demo_world (draws init_St))
  /\ returned (apply demo_world 5 demo_eager_stage ["a"; "b"] init_St)
     = Ok ["slow jazz"; "fast techno"; "slow jazz"]
  /\ (exists r st',
        apply demo_world 5 demo_eager_stage ["a"; "b"] init_St = Ok (r, st')
        /\ calls st' <= calls init_St + output demo_eager_stage)
  /\ apply demo_world 5 demo_broken_stage ["a"; "b"] init_St = Raise KeyError.
Proof.
  assert (Hgate : ~ gate_closed demo_eager_stage
                      (rand_of demo_world (draws init_St))).
  { intros H. discriminate H. }
  assert (Hformat : stage_formats demo_eager_stage).
  { intros prompts. eexists. reflexivity. }
  assert (Hgate' : ~ gate_closed demo_broken_stage
                       (rand_of demo_world (draws init_St))).
  { intros H. discriminate H. }
  pose proof (proj2 (@triggered_stage_collects_exactly_output
                       demo_world 5 demo_eager_stage ["a"; "b"] init_St eq_refl)
                Hgate) as (_ & _ & _ & Hcompletes).
  pose proof (proj2 (@triggered_stage_collects_exactly_output
                       demo_world 5 demo_broken_stage ["a"; "b"] init_St eq_refl)
                Hgate') as (_ & _ & Hraises & _).
  split; [reflexivity|]. split; [exact Hgate|]. split; [reflexivity|]. split.
  - apply (proj2 (Hcompletes Hformat)).
    + exact demo_world_responsive.
    + simpl. lia.
  - apply Hraises.
    + reflexivity.
    + simpl. lia.
    + lia.
Defined.

(** ** The operator pipeline *)

Lemma apply_wrong_size W fuel config inputs st :
  length inputs <> input config ->
  apply W fuel config inputs st = Raise AssertionError.
Proof.
  intros Hne. unfold apply.
  destruct (Nat.eqb_spec (length inputs) (input config)); [contradiction|].
  reflexivity.
Qed.

Lemma apply_Ok W fuel config inputs st r st' :
  rng_ok W ->
  apply W fuel config inputs st = Ok (r, st') ->
  length inputs = input config /\ length r = output config.
Proof.
  intros Hrng H.
  destruct (Nat.eq_dec (length inputs) (input config)) as [Hlen|Hne].
  2:{ rewrite apply_wrong_size in H by exact Hne. discriminate. }
  split; [exact Hlen|].
  destruct (Qle_bool (probability config) (rand_of W (draws st))) eqn:Hg.
  - rewrite apply_pass_through in H; trivial.
    apply (choice_Ok _ _ _ Hrng) in H. tauto.
  - assert (Hopen : ~ gate_closed config (rand_of W (draws st))).
    { unfold gate_closed. congruence. }
    rewrite (apply_triggered W fuel inputs st Hlen Hopen) in H.
    pose proof (@apply_loop_outcome W config inputs fuel [] (drawn st)
                  (Forall_nil _) (Nat.le_0_l _)) as Hout.
    rewrite H in Hout. tauto.
Qed.

(** X4: a pipeline that returns has chained: the group it was given had
    the input arity of the first stage, every stage returned the input
    arity of the next, and the group returned has the output arity of the
    last stage.  A group of another size than the first stage expects is
    an [AssertionError], raised before any draw or request. *)
Theorem pipeline_completes_only_when_arities_chain :
  forall (W : World) (fuel : nat) (operators : list LLMPromptOperator)
         (group : list string) (st : St),
    rng_ok W ->
    (forall r st',
        apply_all W fuel operators group st = Ok (r, st') ->
        chained operators (length group)
        /\ length r = final_size operators (length group))
    /\ (~ chained operators (length group) ->
        forall r st', apply_all W fuel operators group st <> Ok (r, st'))
    /\ (forall first rest,
           operators = first :: rest -> length group <> input first ->
           apply_all W fuel operators group st = Raise AssertionError).
Proof.
  intros W fuel operators group st Hrng.
  assert (Hmain : forall ops grp s r s',
             apply_all W fuel ops grp s = Ok (r, s') ->
             chained ops (length grp) /\ length r = final_size ops (length grp)).
  { induction ops as [|op ops IH]; intros grp s r s' H; cbn [apply_all] in H.
    - inv_run. simpl. auto.
    - apply bind_Ok in H as (sel & s1 & Hop & Hrest).
      apply (apply_Ok _ _ _ _ Hrng) in Hop as [Hin Hout].
      apply IH in Hrest as [Hch Hlen]. rewrite Hout in *.
      simpl. unfold final_size in *. simpl. auto. }
  split; [|split].
  - intros r st'. apply Hmain.
  - intros Hno r st' H. apply Hno. exact (proj1 (Hmain _ _ _ _ _ H)).
  - intros first rest -> Hne. cbn [apply_all]. unfold bind.
    rewrite apply_wrong_size by exact Hne. reflexivity.
Qed.

Lemma pipeline_completes_only_when_arities_chain_witness :
  rng_ok demo_world
  /\ returned (apply_all demo_world 5 [demo_stage; demo_eager_stage]
                 ["a"; "b"; "c"] init_St)
     = Ok ["slow jazz"; "fast techno"; "slow jazz"]
  /\ chained [demo_stage; demo_eager_stage] 3
  /\ apply_all demo_world 5 [demo_stage; demo_stage] ["a"; "b"; "c"] init_St
     = Raise AssertionError.
Proof.
  split; [exact demo_world_rng_ok|]. split; [reflexivity|].
  pose proof (@pipeline_completes_only_when_arities_chain
                demo_world 5 [demo_stage; demo_eager_stage] ["a"; "b"; "c"]
                init_St demo_world_rng_ok) as (H & _ & _).
  split.
  - eapply (fun r st' E => proj1 (H r st' E)). vm_compute. reflexivity.
  - reflexivity.
Defined.

(** ** Tournament selection *)

Lemma nth_In_map_positions {A} (l : list A) d positions :
  Forall (fun i => i < length l) positions ->
  incl (map (fun i => nth i l d) positions) l.
Proof.
  intros Hall x Hx. apply in_map_iff in Hx as (i & <- & Hi).
  rewrite Forall_forall in Hall. apply nth_In. auto.
Qed.

Lemma argsort_length fitness : length (argsort fitness) = length fitness.
Proof.
  rewrite (Permutation_length (proj1 (argsort_ascending fitness))).
  apply length_seq.
Qed.

Lemma tournament_too_large W config population fitness n st :
  length population < tournament_size config ->
  tournament_selection W config population fitness n st = Raise ValueError.
Proof.
  intros H. unfold tournament_selection, bind, choice_index.
  destruct (Nat.ltb_spec (length population) (tournament_size config));
    [reflexivity|lia].
Qed.

Lemma tournament_contestants W config population fitness n st :
  rng_ok W ->
  length fitness = length population ->
  tournament_size config <= length population ->
  let contestants :=
    firstn (tournament_size config) (perm_of W (draws st) (length population)) in
  tournament_selection W config population fitness n st
  = sample_population W config
      (map (fun i => nth i population EmptyString) contestants)
      (map (fun i => nth i fitness None) contestants) n (sample config) (drawn st)
    /\ length contestants = tournament_size config
    /\ Forall (fun i => i < length population) contestants.
Proof.
  intros Hrng Hlen Hsize contestants.
  destruct (firstn_shuffle_distinct (draws st) Hrng Hsize) as (Hl & _ & Hrange).
  fold contestants in Hl, Hrange. split; [|auto].
  unfold tournament_selection, bind, choice_index.
  destruct (Nat.ltb_spec (length population) (tournament_size config)); [lia|].
  fold contestants. fold (drawn st).
  rewrite (select_ok (fun x => x) population EmptyString); [|exact Hrange].
  rewrite (select_ok (fun x => x) fitness None); [|rewrite Hlen; exact Hrange].
  reflexivity.
Qed.

Lemma tournament_without_sampling W config population fitness n st :
  rng_ok W ->
  length fitness = length population ->
  tournament_size config <= length population ->
  sample config = false ->
  exists r,
    tournament_selection W config population fitness (Z.of_nat n) st
    = Ok (r, drawn st)
    /\ length r = Nat.min n (tournament_size config)
    /\ incl r population.
Proof.
  intros Hrng Hlen Hsize Hs.
  destruct (@tournament_contestants W config population fitness (Z.of_nat n) st
              Hrng Hlen Hsize) as (Heq & Hcl & Hrange).
  set (contestants := firstn (tournament_size config)
                        (perm_of W (draws st) (length population))) in *.
  set (selected := map (fun i => nth i population EmptyString) contestants) in *.
  set (selected_fitness := map (fun i => nth i fitness None) contestants) in *.
  assert (Hsel : length selected = tournament_size config).
  { unfold selected. rewrite length_map. exact Hcl. }
  assert (Hself : length selected_fitness = tournament_size config).
  { unfold selected_fitness. rewrite length_map. exact Hcl. }
  rewrite Heq, Hs.
  rewrite sample_population_by_rank by congruence.
  eexists. split; [reflexivity|]. split.
  - rewrite length_map, length_firstn, argsort_length, Hself. reflexivity.
  - intros x Hx. apply (@nth_In_map_positions string population EmptyString
                          contestants Hrange).
    revert x Hx. apply (@nth_In_map_positions string selected EmptyString).
    apply Forall_firstn_of. rewrite Hsel, <- Hself.
    apply ascending_ranking_range, argsort_ascending.
Qed.

(** X5: a tournament larger than the population is a [ValueError].
    Otherwise the prompts returned are contestants, hence members of the
    population; without sampling there are min(n, tournament_size) of
    them, so fewer than the [n] asked for when the tournament is smaller,
    while with sampling a tournament smaller than [n] is a [ValueError]
    and a selection that returns has [n] prompts. *)
Theorem tournament_returns_contestants :
  forall (W : World) (config : searchConf) (population : list string)
         (fitness : list score) (n : nat) (st : St),
    rng_ok W ->
    length fitness = length population ->
    (length population < tournament_size config ->
     tournament_selection W config population fitness (Z.of_nat n) st
     = Raise ValueError)
    /\ (tournament_size config <= length population ->
        (sample config = false ->
         exists r,
           tournament_selection W config population fitness (Z.of_nat n) st
           = Ok (r, drawn st)
           /\ length r = Nat.min n (tournament_size config)
           /\ incl r population)
        /\ (sample config = true -> tournament_size config < n ->
            tournament_selection W config population fitness (Z.of_nat n) st
            = Raise ValueError)
        /\ (sample config = true -> n <= tournament_size config ->
            forall r st',
              tournament_selection W config population fitness (Z.of_nat n) st
              = Ok (r, st') ->
              length r = n /\ incl r population)).
Proof.
  intros W config population fitness n st Hrng Hlen. split.
  - apply tournament_too_large.
  - intros Hsize.
    destruct (@tournament_contestants W config population fitness (Z.of_nat n) st
                Hrng Hlen Hsize) as (Heq & Hcl & Hrange).
    set (contestants := firstn (tournament_size config)
                          (perm_of W (draws st) (length population))) in *.
    set (selected := map (fun i => nth i population EmptyString) contestants) in *.
    set (selected_fitness := map (fun i => nth i fitness None) contestants) in *.
    assert (Hsel : length selected = tournament_size config).
    { unfold selected. rewrite length_map. exact Hcl. }
    assert (Hself : length selected_fitness = tournament_size config).
    { unfold selected_fitness. rewrite length_map. exact Hcl. }
    assert (Hincl : incl selected population).
    { apply nth_In_map_positions. exact Hrange. }
    rewrite Heq. split; [|split].
    + intros Hs. rewrite <- Heq.
      apply tournament_without_sampling; trivial.
    + intros Hs Hlt. rewrite Hs. unfold sample_population.
      destruct (Z.eqb_spec (Z.of_nat n) 0); [lia|].
      destruct (Z.ltb_spec (Z.of_nat n) 0); [lia|].
      rewrite Hself, Hsel, Nat.eqb_refl. cbn [negb].
      destruct (negb (weights_ok _ _ _ _)); [reflexivity|].
      apply choice_too_large. rewrite Nat2Z.id. lia.
    + intros Hs Hle r0 st0. rewrite Hs. unfold sample_population.
      destruct (Z.eqb_spec (Z.of_nat n) 0) as [E|E].
      * assert (n = 0) as -> by lia. intros Hret.
        apply ret_Ok in Hret as [-> _].
        split; [reflexivity|]. intros x [].
      * destruct (Z.ltb_spec (Z.of_nat n) 0); [lia|].
        rewrite Hself, Hsel, Nat.eqb_refl. cbn [negb]. rewrite Nat2Z.id.
        destruct (negb (weights_ok _ _ _ _)); [discriminate|].
        rewrite (@choice_ok string W selected EmptyString n (drawn st) Hrng)
          by lia.
        intros Hret. injection Hret as <- _. split.
        -- rewrite length_map.
           apply (firstn_shuffle_distinct (draws (drawn st)) Hrng). lia.
        -- intros x Hx. apply Hincl. revert x Hx. apply nth_In_map_positions.
           apply (firstn_shuffle_distinct (draws (drawn st)) Hrng). lia.
Qed.

Lemma tournament_returns_contestants_witness :
  rng_ok demo_world
  /\ length (map evals demo_population) = length (map values demo_population)
  /\ tournament_size demo_search <= length (map values demo_population)
  /\ sample demo_search = false
  /\ returned (tournament_selection demo_world demo_search
                 (map values demo_population) (map evals demo_population)
                 (Z.of_nat 4) init_St)
     = Ok ["d"; "b"; "c"]
  /\ exists r,
       tournament_selection demo_world demo_search
         (map values demo_population) (map evals demo_population)
         (Z.of_nat 4) init_St = Ok (r, drawn init_St)
       /\ length r = Nat.min 4 (tournament_size demo_search)
       /\ incl r (map values demo_population).
Proof.
  assert (Hsize : tournament_size demo_search
                  <= length (map values demo_population)) by (simpl; lia).
  split; [exact demo_world_rng_ok|]. split; [reflexivity|].
  split; [exact Hsize|]. split; [reflexivity|]. split; [reflexivity|].
  apply (proj1 (proj2 (@tournament_returns_contestants demo_world demo_search
                         (map values demo_population) (map evals demo_population)
                         4 init_St demo_world_rng_ok eq_refl) Hsize)).
  reflexivity.
Defined.

(** ** The evolution step *)

Lemma evolve_loop_eq W config fuel old_population old_pop_evals new_population :
  evolve_loop W config fuel old_population old_pop_evals new_population =
  if Nat.ltb (length new_population) (population_size config) then
    match fuel with
    | O => fun _ => OutOfFuel
    | S fuel' =>
        bind (lift (getitem (LLM_genetic_operators config) 0)) (fun first =>
        bind (tournament_selection W config old_population old_pop_evals
                (Z.of_nat (input first))) (fun selected =>
        bind (apply_all W fuel (LLM_genetic_operators config) selected)
          (fun selected =>
             evolve_loop W config fuel' old_population old_pop_evals
               (new_population
                  ++ firstn (population_size config - length new_population)
                       selected))))
    end
  else ret new_population.
Proof. destruct fuel; reflexivity. Qed.

(** X6: when the evolution step still needs prompts, a configuration
    without operators is an [IndexError]; and without sampling, a
    tournament smaller than the input arity of the first stage hands that
    stage too few prompts, which is an [AssertionError]. *)
Theorem evolution_needs_operators_and_a_large_enough_tournament :
  forall (W : World) (config : searchConf) (fuel : nat)
         (old_population : list string) (old_pop_evals : list score)
         (new_population : list string) (st : St),
    length new_population < population_size config ->
    (LLM_genetic_operators config = [] ->
     evolve_loop W config (S fuel) old_population old_pop_evals new_population st
     = Raise IndexError)
    /\ (forall first rest,
           LLM_genetic_operators config = first :: rest ->
           rng_ok W -> sample config = false ->
           length old_pop_evals = length old_population ->
           tournament_size config <= length old_population ->
           tournament_size config < input first ->
           evolve_loop W config (S fuel) old_population old_pop_evals
             new_population st
           = Raise AssertionError).
Proof.
  intros W config fuel old_population old_pop_evals new_population st Hshort.
  split.
  - intros Hnone. rewrite evolve_loop_eq.
    destruct (Nat.ltb_spec (length new_population) (population_size config));
      [|lia].
    rewrite Hnone. reflexivity.
  - intros first rest Hops Hrng Hs Hlen Hsize Hsmall. rewrite evolve_loop_eq.
    destruct (Nat.ltb_spec (length new_population) (population_size config));
      [|lia].
    rewrite Hops. unfold bind at 1. simpl.
    destruct (@tournament_without_sampling W config old_population old_pop_evals
                (input first) st Hrng Hlen Hsize Hs) as (r & Hr & Hrlen & _).
    rewrite (bind_intro _ Hr). cbn [apply_all]. unfold bind.
    rewrite apply_wrong_size; [reflexivity|]. lia.
Qed.

Lemma evolution_needs_operators_and_a_large_enough_tournament_witness :
  length ["d"; "b"] < population_size demo_narrow_search
  /\ rng_ok demo_world
  /\ sample demo_narrow_search = false
  /\ tournament_size demo_narrow_search < input demo_stage
  /\ evolve_loop demo_world demo_narrow_search 5 (map values demo_population)
       (map evals demo_population) ["d"; "b"] init_St
     = Raise AssertionError.
Proof.
  assert (Hshort : length ["d"; "b"] < population_size demo_narrow_search)
    by (simpl; lia).
  assert (Hsmall : tournament_size demo_narrow_search < input demo_stage)
    by (simpl; lia).
  split; [exact Hshort|]. split; [exact demo_world_rng_ok|].
  split; [reflexivity|]. split; [exact Hsmall|].
  apply (proj2 (@evolution_needs_operators_and_a_large_enough_tournament
                  demo_world demo_narrow_search 4 (map values demo_population)
                  (map evals demo_population) ["d"; "b"] init_St Hshort)
           demo_stage [] eq_refl demo_world_rng_ok eq_refl eq_refl).
  - simpl. lia.
  - exact Hsmall.
Defined.

(** ** Elites *)

Lemma NoDup_firstn {A} k (l : list A) : NoDup l -> NoDup (firstn k l).
Proof.
  intros H. rewrite <- (firstn_skipn k l) in H.
  exact (NoDup_app_remove_r _ _ H).
Qed.

Lemma NoDup_slice_to {A} n (l : list A) : NoDup l -> NoDup (slice_to n l).
Proof. unfold slice_to. destruct (0 <=? n)%Z; apply NoDup_firstn. Qed.

Lemma slice_to_incl {A} n (l : list A) x : In x (slice_to n l) -> In x l.
Proof. unfold slice_to. destruct (0 <=? n)%Z; apply In_firstn. Qed.

(** X7: the elites are members of the population, taken as they are at
    pairwise distinct positions, whether they are sampled or taken by
    rank: no member is kept twice and no prompt is made up. *)
Theorem elites_are_distinct_members :
  forall (W : World) (population_argsort : list score -> list nat)
         (config : searchConf) (population : SolutionBatch) (st : St)
         (r : list string) (st' : St),
    rng_ok W ->
    Permutation (population_argsort (map evals population))
      (seq 0 (length population)) ->
    get_elites W population_argsort config population st = Ok (r, st') ->
    exists positions,
      NoDup positions
      /\ Forall (fun i => i < length population) positions
      /\ r = map (fun i => values (nth i population unset)) positions.
Proof.
  intros W population_argsort config population st r st' Hrng Hrank.
  unfold get_elites.
  destruct (float_is_zero (elites config)).
  { intros H. inv_run. exists []. repeat constructor. }
  intros H. apply bind_Ok in H as (count & st0 & Hcount & H).
  apply lift_Ok in Hcount as [_ ->]. revert H.
  destruct (sample config).
  - unfold sample_population.
    destruct (count =? 0)%Z.
    { intros H. inv_run. exists []. repeat constructor. }
    destruct (count <? 0)%Z; [discriminate|].
    destruct (negb (Nat.eqb _ _)); [discriminate|].
    destruct (negb (weights_ok _ _ _ _)); [discriminate|].
    intros H. unfold choice in H.
    apply bind_Ok in H as (idx & st1 & Hidx & Hsel).
    apply choice_index_Ok in Hidx as (Hsize & -> & _).
    rewrite length_map in *.
    destruct (firstn_shuffle_distinct (draws st) Hrng Hsize) as (_ & Hnd & Hr).
    apply (select_Ok _ _ EmptyString) in Hsel as (_ & _ & ->).
    eexists. split; [exact Hnd|]. split; [exact Hr|].
    apply map_ext. intros i. exact (map_nth values population unset i).
  - intros H. apply (select_Ok _ _ unset) in H as (_ & Hr & ->).
    eexists. split; [|split; [exact Hr|reflexivity]].
    apply NoDup_slice_to.
    eapply Permutation_NoDup; [symmetry; exact Hrank|apply seq_NoDup].
Qed.

Lemma elites_are_distinct_members_witness :
  rng_ok demo_world
  /\ Permutation (argsort (map evals demo_population))
       (seq 0 (length demo_population))
  /\ get_elites demo_world argsort demo_search demo_population init_St
     = Ok (["d"; "b"], init_St)
  /\ exists positions,
       NoDup positions
       /\ Forall (fun i => i < length demo_population) positions
       /\ ["d"; "b"]
          = map (fun i => values (nth i demo_population unset)) positions.
Proof.
  assert (Hrank : Permutation (argsort (map evals demo_population))
                    (seq 0 (length demo_population))).
  { rewrite <- (length_map evals). apply argsort_ascending. }
  split; [exact demo_world_rng_ok|]. split; [exact Hrank|].
  split; [reflexivity|].
  exact (@elites_are_distinct_members demo_world argsort demo_search
           demo_population init_St ["d"; "b"] init_St demo_world_rng_ok Hrank
           eq_refl).
Defined.

(** ** What a step hands over to the next population *)

Lemma mapM_state {A B} (f : A -> M B) (l : list A) :
  (forall a st r st', f a st = Ok (r, st') -> st' = st) ->
  forall st r st', mapM f l st = Ok (r, st') -> st' = st.
Proof.
  intros Hf. induction l as [|a l IH]; intros st r st' H; cbn [mapM] in H.
  - apply ret_Ok in H. tauto.
  - apply bind_Ok in H as (b & st1 & Hb & H).
    apply bind_Ok in H as (bs & st2 & Hbs & H).
    apply ret_Ok in H as [_ ->].
    apply Hf in Hb. apply IH in Hbs. congruence.
Qed.

Lemma regenerate_loop_extends W config ranking : forall fuel new_prompts st r st',
  regenerate_loop W config fuel ranking new_prompts st = Ok (r, st') ->
  (exists rest, r = new_prompts ++ rest)
  /\ length r = Nat.max (population_size config) (length new_prompts).
Proof.
  induction fuel as [|fuel IH]; intros new_prompts st r st';
    rewrite regenerate_loop_eq;
    destruct (Nat.ltb_spec (length new_prompts) (population_size config))
      as [Hlt|Hge]; intros H.
  - discriminate.
  - inv_run. split; [exists []; symmetry; apply app_nil_r|lia].
  - apply bind_Ok in H as (LLM_prompt & st0 & _ & H).
    apply bind_Ok in H as (answers & st1 & _ & H).
    apply IH in H as ((rest & ->) & Hlen).
    split; [eexists; symmetry; apply app_assoc|].
    rewrite Hlen, length_app, length_firstn. lia.
  - inv_run. split; [exists []; symmetry; apply app_nil_r|lia].
Qed.

Lemma evolve_loop_extends W config old_population old_pop_evals :
  forall fuel new_population st r st',
    evolve_loop W config fuel old_population old_pop_evals new_population st
    = Ok (r, st') ->
    (exists rest, r = new_population ++ rest)
    /\ length r = Nat.max (population_size config) (length new_population).
Proof.
  induction fuel as [|fuel IH]; intros new_population st r st';
    rewrite evolve_loop_eq;
    destruct (Nat.ltb_spec (length new_population) (population_size config))
      as [Hlt|Hge]; intros H.
  - discriminate.
  - inv_run. split; [exists []; symmetry; apply app_nil_r|lia].
  - apply bind_Ok in H as (first & st1 & _ & H).
    apply bind_Ok in H as (selected & st2 & _ & H).
    apply bind_Ok in H as (selected' & st3 & _ & H).
    apply IH in H as ((rest & ->) & Hlen).
    split; [eexists; symmetry; apply app_assoc|].
    rewrite Hlen, length_app, length_firstn. lia.
  - inv_run. split; [exists []; symmetry; apply app_nil_r|lia].
Qed.

Lemma set_values_unset batch new_values batch' :
  set_values batch new_values = Ok batch' ->
  Forall (fun s => evals s = None) batch'.
Proof.
  unfold set_values. destruct (Nat.eqb _ _); [|discriminate].
  intros H. injection H as <-. apply Forall_forall. intros s Hin.
  apply in_map_iff in Hin as (v & <- & _). reflexivity.
Qed.

(** X8: a step of either mode that completes hands the elites over
    unchanged: the new population starts with the elites chosen from the
    old one, followed by the novel prompts, followed by what the oracle
    produced; it has the size of the old population, which is the larger
    of [population_size] and the number of elites and novel prompts, and
    none of its members has a score. *)
Theorem step_hands_over_elites_then_novel_prompts :
  forall (W : World) (population_argsort : list score -> list nat)
         (config : searchConf) (fuel : nat) (population : SolutionBatch)
         (st : St) (batch : SolutionBatch) (st' : St),
    full_LLM_step W population_argsort config fuel population st
    = Ok (batch, st')
    \/ LLM_evolve_step W population_argsort config fuel population st
       = Ok (batch, st') ->
    exists elite novel produced st1 st2,
      get_elites W population_argsort config population st = Ok (elite, st1)
      /\ get_novel_prompts W config fuel st1 = Ok (novel, st2)
      /\ map values batch = elite ++ novel ++ produced
      /\ length batch = length population
      /\ length batch
         = Nat.max (population_size config) (length (elite ++ novel))
      /\ Forall (fun s => evals s = None) batch.
Proof.
  intros W population_argsort config fuel population st batch st' [H|H].
  - unfold full_LLM_step in H.
    apply bind_Ok in H as (best_idx & s1 & Hbest & H).
    apply lift_Ok in Hbest as [_ ->].
    apply bind_Ok in H as (pop_evals & s2 & Hevals & H).
    apply select_state in Hevals as ->.
    apply bind_Ok in H as (ranking & s3 & Hranking & H).
    apply (@mapM_state nat (nat * string * score)) in Hranking as ->.
    2:{ intros a s r s' Hf. inv_run. reflexivity. }
    apply bind_Ok in H as (best & s4 & Hb & H).
    apply lift_Ok in Hb as [_ ->].
    apply bind_Ok in H as (elite & st1 & Helite & H).
    apply bind_Ok in H as (novel & st2 & Hnovel & H).
    apply bind_Ok in H as (new_prompts & st3 & Hloop & H).
    apply lift_Ok in H as [Hset _].
    apply regenerate_loop_extends in Hloop as ((produced & ->) & Hlen).
    pose proof (set_values_unset _ _ Hset) as Hunset.
    apply set_values_Ok in Hset as (Hsame & Hfit & Hvals).
    exists elite, novel, produced, st1, st2.
    split; [exact Helite|]. split; [exact Hnovel|].
    split; [rewrite Hvals; symmetry; apply app_assoc|].
    split; [exact Hsame|]. split; [|exact Hunset].
    rewrite Hsame, <- Hfit. exact Hlen.
  - unfold LLM_evolve_step in H.
    apply bind_Ok in H as (elite & st1 & Helite & H).
    apply bind_Ok in H as (novel & st2 & Hnovel & H).
    apply bind_Ok in H as (new_prompts & st3 & Hloop & H).
    apply lift_Ok in H as [Hset _].
    apply evolve_loop_extends in Hloop as ((produced & ->) & Hlen).
    pose proof (set_values_unset _ _ Hset) as Hunset.
    apply set_values_Ok in Hset as (Hsame & Hfit & Hvals).
    exists elite, novel, produced, st1, st2.
    split; [exact Helite|]. split; [exact Hnovel|].
    split; [rewrite Hvals; symmetry; apply app_assoc|].
    split; [exact Hsame|]. split; [|exact Hunset].
    rewrite Hsame, <- Hfit. exact Hlen.
Qed.

Lemma step_hands_over_elites_then_novel_prompts_witness :
  get_elites demo_world argsort demo_search demo_population init_St
  = Ok (["d"; "b"], init_St)
  /\ returned (full_LLM_step demo_world argsort demo_search 5 demo_population
                 init_St)
     = Ok [ {| values := "d"; evals := None |};
            {| values := "b"; evals := None |};
            {| values := "slow jazz"; evals := None |};
            {| values := "slow jazz"; evals := None |} ]
  /\ exists elite novel produced st1 st2,
       get_elites demo_world argsort demo_search demo_population init_St
       = Ok (elite, st1)
       /\ get_novel_prompts demo_world demo_search 5 st1 = Ok (novel, st2)
       /\ ["d"; "b"; "slow jazz"; "slow jazz"] = elite ++ novel ++ produced
       /\ 4 = length demo_population
       /\ 4 = Nat.max (population_size demo_search) (length (elite ++ novel))
       /\ Forall (fun s => evals s = None)
            [ {| values := "d"; evals := None |};
              {| values := "b"; evals := None |};
              {| values := "slow jazz"; evals := None |};
              {| values := "slow jazz"; evals := None |} ].
Proof.
  split; [reflexivity|]. split; [reflexivity|].
  exact (@step_hands_over_elites_then_novel_prompts demo_world argsort
           demo_search 5 demo_population init_St _ _ (or_introl eq_refl)).
Defined.

(** ** The bookkeeping over a whole batch *)

Lemma evaluate_progress W evo_config batch : forall st r st',
  evaluate W evo_config batch st = Ok (r, st') ->
  evaluated st' = evaluated st + length batch
  /\ draws st' = draws st
  /\ progress st'
     = ticks (population_size (search evo_config))
         (map (duration_of W) (seq (evaluated st) (length batch))) (progress st).
Proof.
  unfold evaluate. induction batch as [|s batch IH]; cbn [mapM]; intros st r st' H.
  - inv_run. simpl. repeat split. lia.
  - apply bind_Ok in H as (s' & st1 & H1 & H2).
    apply bind_Ok in H2 as (r' & st2 & H2 & H3). inv_run.
    destruct (IH _ _ _ H2) as (He & Hd & Hp).
    unfold _evaluate in H1.
    destruct (fitness_of W (evaluated st) (values s)); try discriminate.
    destruct (Nat.eqb (population_size (search evo_config)) 0);
      [discriminate|].
    injection H1 as <- <-. cbn [evaluated draws progress] in *.
    split; [cbn [length]; lia|]. split; [exact Hd|].
    rewrite Hp. reflexivity.
Qed.

Lemma ticks_counters P gs : forall p,
  1 <= P -> generated p < P ->
  generated (ticks P gs p) = (generated p + length gs) mod P
  /\ total_generated (ticks P gs p)
     = total_generated p + P * ((generated p + length gs) / P).
Proof.
  induction gs as [|g gs IH]; intros p HP Hlt.
  - cbn [ticks fold_left length]. rewrite Nat.add_0_r.
    rewrite Nat.mod_small, Nat.div_small by lia. lia.
  - change (ticks P (g :: gs) p) with (ticks P gs (tick P g p)).
    cbn [length].
    destruct (Nat.lt_ge_cases (generated p + 1) P) as [Hin|Hout].
    + destruct (@tick_within P g p Hin) as (Hg & _ & Ht).
      destruct (IH (tick P g p) HP) as (Hg' & Ht'); [lia|].
      rewrite Hg', Ht', Hg, Ht.
      replace (generated p + 1 + length gs) with (generated p + S (length gs))
        by lia.
      split; reflexivity.
    + destruct (@tick_reset P g p Hout) as (Hg & _ & Ht).
      destruct (IH (tick P g p) HP) as (Hg' & Ht'); [lia|].
      rewrite Hg', Ht', Hg, Ht.
      replace (generated p + S (length gs)) with (length gs + 1 * P) by lia.
      rewrite Nat.Div0.mod_add, Nat.div_add by lia.
      cbn [Nat.add]. split; [reflexivity|lia].
Qed.

(** X9: the counters account for every evaluation.  Over a batch that is
    evaluated, from a counter below a positive [population_size], the
    evaluation counter ends at the number of evaluations since the last
    reset modulo [population_size], [total_generated] grows by
    [population_size] for each pass completed, and the two together grow
    by the size of the batch; no request is sent and no random number
    drawn. *)
Theorem evaluation_counters_account_for_every_evaluation :
  forall (W : World) (evo_config : evoConf) (batch : SolutionBatch)
         (st : St) (r : SolutionBatch) (st' : St),
    1 <= population_size (search evo_config) ->
    generated (progress st) < population_size (search evo_config) ->
    evaluate W evo_config batch st = Ok (r, st') ->
    generated (progress st')
    = (generated (progress st) + length batch)
        mod population_size (search evo_config)
    /\ total_generated (progress st')
       = total_generated (progress st)
         + population_size (search evo_config)
           * ((generated (progress st) + length batch)
                / population_size (search evo_config))
    /\ total_generated (progress st') + generated (progress st')
       = total_generated (progress st) + generated (progress st) + length batch
    /\ evaluated st' = evaluated st + length batch
    /\ calls st' = calls st /\ draws st' = draws st.
Proof.
  intros W evo_config batch st r st' HP Hlt H.
  destruct (evaluate_progress _ _ _ _ H) as (He & Hd & Hp).
  destruct (evaluate_values _ _ _ _ H) as (_ & _ & Hc).
  destruct (@ticks_counters (population_size (search evo_config))
              (map (duration_of W) (seq (evaluated st) (length batch)))
              (progress st) HP Hlt) as (Hg & Ht).
  rewrite length_map, length_seq in Hg, Ht. rewrite <- Hp in Hg, Ht.
  split; [exact Hg|]. split; [exact Ht|].
  split; [|split; [exact He|split; [exact Hc|exact Hd]]].
  rewrite Hg, Ht.
  pose proof (Nat.div_mod_eq (generated (progress st) + length batch)
                (population_size (search evo_config))).
  lia.
Qed.

Lemma evaluation_counters_account_for_every_evaluation_witness :
  1 <= population_size (search demo_evo)
  /\ generated (progress init_St) < population_size (search demo_evo)
  /\ exists r st',
       evaluate demo_world demo_evo
         (demo_population ++ firstn 2 demo_population) init_St
       = Ok (r, st')
       /\ generated (progress st') = 2
       /\ total_generated (progress st') = 4
       /\ evaluated st' = 6.
Proof.
  assert (HP : 1 <= population_size (search demo_evo)) by (simpl; lia).
  assert (Hlt : generated (progress init_St) < population_size (search demo_evo))
    by (simpl; lia).
  split; [exact HP|]. split; [exact Hlt|].
  eexists. eexists. split; [reflexivity|].
  pose proof (@evaluation_counters_account_for_every_evaluation
                demo_world demo_evo
                (demo_population ++ firstn 2 demo_population) init_St _ _
                HP Hlt eq_refl) as (Hg & Ht & _ & He & _).
  split; [exact Hg|]. split; [exact Ht|exact He].
Defined.

(** ** What the client returns of an answer *)

Lemma try_request_completion status body text :
  completion body text ->
  try_request (Response status (Some body))
  = if error_status status then Raise HTTPError else Ok (PyStr.strip text).
Proof.
  intros (fields & first_fields & rest & message_fields & -> & Hc & Hm & Ht).
  unfold try_request, raise_for_status, error_status.
  destruct (Nat.leb 400 status && Nat.ltb status 600); [reflexivity|].
  cbn [rbind getitem_key]. rewrite Hc. cbn [rbind getitem_0 getitem_key].
  rewrite Hm. cbn [rbind getitem_key]. rewrite Ht. reflexivity.
Qed.

Lemma try_request_Ok t r :
  try_request t = Ok r ->
  exists status body text,
    t = Response status (Some body)
    /\ error_status status = false
    /\ completion body text /\ r = PyStr.strip text.
Proof.
  destruct t as [|status [body|]]; [discriminate| |].
  - unfold try_request, raise_for_status. fold (error_status status).
    destruct (error_status status) eqn:Es; [discriminate|].
    cbn [rbind]. intros H.
    destruct body as [| | | |items|fields]; try discriminate H.
    cbn [getitem_key] in H.
    destruct (assoc "choices" fields) as [choices|] eqn:Hc; [|discriminate H].
    cbn [rbind] in H.
    destruct choices as [| | |s|[|first rest]|cfields]; try discriminate H.
    + destruct s; discriminate H.
    + cbn [getitem_0 rbind] in H.
      destruct first as [| | | | |first_fields]; try discriminate H.
      cbn [getitem_key] in H.
      destruct (assoc "message" first_fields) as [message|] eqn:Hm;
        [|discriminate H].
      cbn [rbind] in H.
      destruct message as [| | | | |message_fields]; try discriminate H.
      cbn [getitem_key] in H.
      destruct (assoc "content" message_fields) as [content|] eqn:Ht;
        [|discriminate H].
      cbn [rbind] in H.
      destruct content as [| | |text| |]; try discriminate H.
      cbn [json_strip] in H. injection H as <-.
      exists status, (JObj fields), text.
      split; [reflexivity|]. split; [exact Es|]. split; [|reflexivity].
      exists fields, first_fields, rest, message_fields. auto.
  - unfold try_request, raise_for_status.
    destruct (Nat.leb 400 status && Nat.ltb status 600); discriminate.
Qed.

(** X11: [query_llm] always returns a text without white space at either
    end.  On a chat completion it returns the content of the first
    choice, stripped, unless the status is an error status (400 to 599),
    in which case the content is dropped for the fallback text; and a
    text other than the fallback is returned only for a chat completion
    with a status that is no error status. *)
Theorem query_llm_returns_stripped_content_of_completions :
  forall (post : string -> transport) (instruction : string),
    (exists r, query_llm post instruction = Ok r /\ trimmed r)
    /\ (forall status body text,
           post instruction = Response status (Some body) ->
           completion body text ->
           query_llm post instruction
           = Ok (if error_status status then fallback else PyStr.strip text))
    /\ (forall r,
           query_llm post instruction = Ok r -> r <> fallback ->
           exists status body text,
             post instruction = Response status (Some body)
             /\ error_status status = false
             /\ completion body text /\ r = PyStr.strip text).
Proof.
  intros post instruction.
  assert (Hfb : trimmed fallback) by (split; reflexivity).
  split; [|split].
  - unfold query_llm.
    destruct (try_request (post instruction)) as [r| |] eqn:E.
    + exists r. split; [reflexivity|].
      apply try_request_Ok in E as (_ & _ & text & _ & _ & _ & ->).
      split; [apply strip_trimmed|apply strip_trimmed].
    + exists fallback. auto.
    + exfalso. exact (try_request_returns_or_raises _ E).
  - intros status body text Hpost Hbody. unfold query_llm.
    rewrite Hpost, (try_request_completion status Hbody).
    destruct (error_status status); reflexivity.
  - intros r H Hne. unfold query_llm in H.
    destruct (try_request (post instruction)) as [r'| |] eqn:E.
    + injection H as <-. apply try_request_Ok, E.
    + injection H as <-. congruence.
    + discriminate.
Qed.

(** ** Filling the first population *)

Lemma set_items_written {A} (xs : list A) : forall pre old,
  length xs <= length old ->
  set_items (pre ++ old) (length pre) xs
  = Ok (pre ++ xs ++ skipn (length xs) old).
Proof.
  induction xs as [|x xs IH]; intros pre old Hlen.
  - reflexivity.
  - destruct old as [|o old]; [simpl in Hlen; lia|].
    cbn [set_items length] in *. unfold set_item.
    rewrite length_app. cbn [length].
    destruct (Nat.ltb_spec (length pre) (length pre + S (length old)));
      [|lia].
    cbn [rbind].
    replace (firstn (length pre) (pre ++ o :: old)) with pre.
    2:{ rewrite firstn_app, firstn_all, Nat.sub_diag. simpl.
        symmetry. apply app_nil_r. }
    replace (skipn (S (length pre)) (pre ++ o :: old)) with old.
    2:{ rewrite skipn_app, skipn_all2 by lia.
        replace (S (length pre) - length pre) with 1 by lia. reflexivity. }
    replace (pre ++ x :: old) with ((pre ++ [x]) ++ old)
      by (rewrite <- app_assoc; reflexivity).
    replace (S (length pre)) with (length (pre ++ [x]))
      by (rewrite length_app; simpl; lia).
    rewrite IH by lia. rewrite <- app_assoc. reflexivity.
Qed.

Lemma set_items_fills (xs : list string) :
  set_items (repeat EmptyString (length xs)) 0 xs = Ok xs.
Proof.
  pose proof (@set_items_written string xs [] (repeat EmptyString (length xs)))
    as H.
  cbn [app length] in H. rewrite H by (rewrite repeat_length; lia).
  rewrite skipn_all2 by (rewrite repeat_length; lia).
  rewrite app_nil_r. reflexivity.
Qed.

(** X12: in text mode the fill of a new population is one call of
    [generate_prompts]: the slots receive, in order, the prompts of a
    single generation of [population] prompts, with the same requests to
    the oracle, and the fill is still running exactly when the
    generation is; [generate_batch] returns these prompts as members
    without a score. *)
Theorem text_fill_is_a_single_generation :
  forall (W : World) (fuel population : nat) (st : St),
    _fill_text W fuel population st
    = generate_prompts W fuel (Z.of_nat population) st
    /\ generate_batch W fuel population st
       = bind (generate_prompts W fuel (Z.of_nat population))
           (fun prompts =>
              ret (map (fun v => {| values := v; evals := None |}) prompts)) st.
Proof.
  intros W fuel population st.
  assert (Hfill : _fill_text W fuel population st
                  = generate_prompts W fuel (Z.of_nat population) st).
  { unfold _fill_text. unfold bind at 1. rewrite fill_loop_eq.
    cbn [length].
    destruct (Nat.ltb_spec 0 population) as [Hpos|Hzero].
    - destruct fuel as [|fuel].
      + unfold generate_prompts. rewrite generate_loop_eq. cbn [length].
        destruct (Z.ltb_spec (Z.of_nat 0) (Z.of_nat population)); [reflexivity|lia].
      + pose proof (@generate_loop_outcome W (Z.of_nat population) (S fuel) [] st
                      (Forall_nil _)) as Hout.
        unfold bind at 1. fold (generate_prompts W (S fuel) (Z.of_nat population)) in Hout.
        destruct (generate_prompts W (S fuel) (Z.of_nat population) st)
          as [[r st1]|e|]; [|reflexivity|reflexivity].
        destruct Hout as (Hlen & _); [simpl; lia|].
        apply Nat2Z.inj in Hlen.
        rewrite fill_loop_eq. cbn [app length]. rewrite Nat.sub_0_r.
        rewrite firstn_all2 by lia.
        destruct (Nat.ltb_spec (length r) population); [lia|].
        unfold ret, lift. cbn [fst]. rewrite <- Hlen, set_items_fills.
        reflexivity.
    - assert (population = 0) by lia. subst population.
      unfold ret, lift. cbn [fst repeat set_items].
      unfold generate_prompts. rewrite generate_loop_eq. reflexivity. }
  split; [exact Hfill|].
  unfold generate_batch, bind. rewrite Hfill. reflexivity.
Qed.

Lemma fill_loop_starves {X} W (process : list string -> list X) fuel_inner
      population :
  (forall prompts, process prompts = []) ->
  0 < population ->
  forall fuel prompts st,
    fill_loop W process fuel fuel_inner population prompts [] st = OutOfFuel.
Proof.
  intros Hnone Hpos. induction fuel as [|fuel IH]; intros prompts st;
    rewrite fill_loop_eq; cbn [length];
    destruct (Nat.ltb_spec 0 population); try lia; trivial.
  pose proof (@generate_loop_outcome W (Z.of_nat population) fuel_inner [] st
                (Forall_nil _)) as Hout.
  unfold bind. fold (generate_prompts W fuel_inner (Z.of_nat population)) in Hout.
  destruct (generate_prompts W fuel_inner (Z.of_nat population) st)
    as [[r st1]|e|]; [| |reflexivity].
  - rewrite Hnone, firstn_nil. cbn [app]. apply IH.
  - exfalso. apply Hout. simpl. lia.
Qed.

(** X13: in vector mode the fill waits for conversions of full length.
    If the converter gives no tensor of [max_seq_len] rows, the fill of a
    population that is not empty neither returns nor raises: it asks for
    new prompts for ever, whatever the oracle answers.  The fill of an
    empty population raises a [RuntimeError] (there is nothing to stack)
    without a request. *)
Theorem vector_fill_waits_for_full_length_conversions :
  forall (W : World) (evo_config : evoConf)
         (preprocess_text : list string -> nat -> list tensor)
         (embedding_size : nat),
    (forall prompts,
        valid_length evo_config (preprocess_text prompts (max_seq_len evo_config))
        = []) ->
    (forall fuel population st,
        0 < population ->
        still_running
          (_fill_vector W evo_config preprocess_text embedding_size fuel
             population st))
    /\ (forall fuel st,
           _fill_vector W evo_config preprocess_text embedding_size fuel 0 st
           = Raise RuntimeError).
Proof.
  intros W evo_config preprocess_text embedding_size Hnone. split.
  - intros fuel population st Hpos.
    unfold still_running, _fill_vector, fill_candidates, bind.
    rewrite (@fill_loop_starves tensor W _ fuel population Hnone Hpos).
    reflexivity.
  - intros fuel st. unfold _fill_vector, fill_candidates, bind.
    rewrite fill_loop_eq. reflexivity.
Qed.

Lemma vector_fill_waits_for_full_length_conversions_witness :
  (forall prompts,
      valid_length demo_evo (demo_empty_preprocess prompts (max_seq_len demo_evo))
      = [])
  /\ still_running (_fill_vector demo_world demo_evo demo_empty_preprocess 2 5 3
                      init_St)
  /\ _fill_vector demo_world demo_evo demo_empty_preprocess 2 5 0 init_St
     = Raise RuntimeError.
Proof.
  assert (Hnone : forall prompts,
             valid_length demo_evo
               (demo_empty_preprocess prompts (max_seq_len demo_evo)) = []).
  { intros prompts. unfold valid_length, demo_empty_preprocess.
    induction prompts as [|p prompts IH]; [reflexivity|exact IH]. }
  pose proof (@vector_fill_waits_for_full_length_conversions demo_world demo_evo
                demo_empty_preprocess 2 Hnone) as [Hwait Hzero].
  split; [exact Hnone|]. split.
  - apply Hwait. lia.
  - apply Hzero.
Defined.

(** ** Who evaluates *)

Lemma quiet_refl st : quiet st st.
Proof. unfold quiet. auto. Qed.

Lemma quiet_trans st1 st2 st3 : quiet st1 st2 -> quiet st2 st3 -> quiet st1 st3.
Proof. unfold quiet. intuition (try congruence; try lia). Qed.

Lemma quiet_ret {A} (a : A) : quiet_run (ret a).
Proof. intros st r st' H. apply ret_Ok in H as [_ ->]. apply quiet_refl. Qed.

Lemma quiet_raise {A} e : quiet_run (@raise A e).
Proof. intros st r st' H. discriminate H. Qed.

Lemma quiet_lift {A} (x : result A) : quiet_run (lift x).
Proof. intros st r st' H. apply lift_Ok in H as [_ ->]. apply quiet_refl. Qed.

Lemma quiet_stuck {A} : quiet_run (fun _ : St => @OutOfFuel (A * St)).
Proof. intros st r st' H. discriminate H. Qed.

Lemma quiet_bind {A B} (m : M A) (k : A -> M B) :
  quiet_run m -> (forall a, quiet_run (k a)) -> quiet_run (bind m k).
Proof.
  intros Hm Hk st r st' H. apply bind_Ok in H as (a & st1 & H1 & H2).
  eapply quiet_trans; [eapply Hm, H1|eapply Hk, H2].
Qed.

Lemma quiet_mapM {A B} (f : A -> M B) (l : list A) :
  (forall a, quiet_run (f a)) -> quiet_run (mapM f l).
Proof.
  intros Hf. induction l as [|a l IH]; cbn [mapM].
  - apply quiet_ret.
  - apply quiet_bind; [apply Hf|]. intros b.
    apply quiet_bind; [exact IH|]. intros bs. apply quiet_ret.
Qed.

Lemma quiet_select {A B} (g : A -> B) (l : list A) idx : quiet_run (select g l idx).
Proof.
  apply quiet_mapM. intros i.
  apply quiet_bind; [apply quiet_lift|]. intros x. apply quiet_ret.
Qed.

Lemma quiet_ask W instruction : quiet_run (ask W instruction).
Proof.
  intros st r st' H. apply ask_Ok in H as [-> _].
  unfold quiet, called. simpl. auto.
Qed.

Lemma quiet_np_rand W : quiet_run (np_rand W).
Proof.
  intros st r st' H. unfold np_rand in H. injection H as _ <-.
  unfold quiet. simpl. auto.
Qed.

Lemma quiet_choice_index W n size : quiet_run (choice_index W n size).
Proof.
  intros st r st' H. unfold choice_index in H.
  destruct (Nat.ltb n size); [discriminate|]. injection H as _ <-.
  unfold quiet. simpl. auto.
Qed.

Lemma quiet_choice {A} W (a : list A) size : quiet_run (choice W a size).
Proof.
  apply quiet_bind; [apply quiet_choice_index|]. intros idx. apply quiet_select.
Qed.

Lemma quiet_generate_loop W num : forall fuel prompts,
  quiet_run (generate_loop W fuel num prompts).
Proof.
  induction fuel as [|fuel IH]; intros prompts; rewrite generate_loop_eq;
    destruct (_ <? _)%Z; try apply quiet_ret; try apply quiet_stuck.
  apply quiet_bind; [apply quiet_ask|]. intros answers.
  destruct (negb _); apply IH.
Qed.

Lemma quiet_apply_loop W config inputs : forall fuel out,
  quiet_run (apply_loop W fuel config inputs out).
Proof.
  induction fuel as [|fuel IH]; intros out; rewrite apply_loop_eq;
    destruct (Nat.ltb _ _); try apply quiet_ret; try apply quiet_stuck.
  apply quiet_bind; [apply quiet_lift|]. intros LLM_prompt.
  apply quiet_bind; [apply quiet_ask|]. intros answers. apply IH.
Qed.

Lemma quiet_apply W fuel config inputs : quiet_run (apply W fuel config inputs).
Proof.
  unfold apply. destruct (negb (Nat.eqb _ _)); [apply quiet_raise|].
  apply quiet_bind; [apply quiet_np_rand|]. intros u.
  destruct (negb (negb _)); [apply quiet_choice|apply quiet_apply_loop].
Qed.

Lemma quiet_apply_all W fuel operators : forall selected,
  quiet_run (apply_all W fuel operators selected).
Proof.
  induction operators as [|operator rest IH]; intros selected; cbn [apply_all].
  - apply quiet_ret.
  - apply quiet_bind; [apply quiet_apply|exact IH].
Qed.

Lemma quiet_sample_population W config population fitness n sample :
  quiet_run (sample_population W config population fitness n sample).
Proof.
  unfold sample_population. destruct (n =? 0)%Z; [apply quiet_ret|].
  destruct sample; [|apply quiet_select].
  destruct (n <? 0)%Z; [apply quiet_raise|].
  destruct (negb (Nat.eqb _ _)); [apply quiet_raise|].
  destruct (negb (weights_ok _ _ _ _)); [apply quiet_raise|apply quiet_choice].
Qed.

Lemma quiet_get_elites W population_argsort config population :
  quiet_run (get_elites W population_argsort config population).
Proof.
  unfold get_elites. destruct (float_is_zero _); [apply quiet_ret|].
  apply quiet_bind; [apply quiet_lift|]. intros count.
  destruct (sample config); [apply quiet_sample_population|apply quiet_select].
Qed.

Lemma quiet_get_novel_prompts W config fuel :
  quiet_run (get_novel_prompts W config fuel).
Proof.
  unfold get_novel_prompts. destruct (float_is_zero _); [apply quiet_ret|].
  apply quiet_bind; [apply quiet_lift|]. intros count.
  apply quiet_generate_loop.
Qed.

Lemma quiet_regenerate_loop W config ranking : forall fuel new_prompts,
  quiet_run (regenerate_loop W config fuel ranking new_prompts).
Proof.
  induction fuel as [|fuel IH]; intros new_prompts; rewrite regenerate_loop_eq;
    destruct (Nat.ltb _ _); try apply quiet_ret; try apply quiet_stuck.
  apply quiet_bind; [apply quiet_lift|]. intros LLM_prompt.
  apply quiet_bind; [apply quiet_ask|]. intros answers. apply IH.
Qed.

Lemma quiet_tournament_selection W config population fitness n :
  quiet_run (tournament_selection W config population fitness n).
Proof.
  unfold tournament_selection.
  apply quiet_bind; [apply quiet_choice_index|]. intros idx.
  apply quiet_bind; [apply quiet_select|]. intros sp.
  apply quiet_bind; [apply quiet_select|]. intros sf.
  apply quiet_sample_population.
Qed.

Lemma quiet_evolve_loop W config old_population old_pop_evals :
  forall fuel new_population,
    quiet_run (evolve_loop W config fuel old_population old_pop_evals
                 new_population).
Proof.
  induction fuel as [|fuel IH]; intros new_population; rewrite evolve_loop_eq;
    destruct (Nat.ltb _ _); try apply quiet_ret; try apply quiet_stuck.
  apply quiet_bind; [apply quiet_lift|]. intros first.
  apply quiet_bind; [apply quiet_tournament_selection|]. intros selected.
  apply quiet_bind; [apply quiet_apply_all|]. intros selected'. apply IH.
Qed.

Lemma quiet_full_LLM_step W population_argsort config fuel population :
  quiet_run (full_LLM_step W population_argsort config fuel population).
Proof.
  unfold full_LLM_step.
  apply quiet_bind; [apply quiet_lift|]. intros best_idx.
  apply quiet_bind; [apply quiet_select|]. intros pop_evals.
  apply quiet_bind.
  { apply quiet_mapM. intros i.
    apply quiet_bind; [apply quiet_lift|]. intros v.
    apply quiet_bind; [apply quiet_lift|]. intros e. apply quiet_ret. }
  intros ranking.
  apply quiet_bind; [apply quiet_lift|]. intros best.
  apply quiet_bind; [apply quiet_get_elites|]. intros elite.
  apply quiet_bind; [apply quiet_get_novel_prompts|]. intros novel.
  apply quiet_bind; [apply quiet_regenerate_loop|]. intros new_prompts.
  apply quiet_lift.
Qed.

Lemma quiet_LLM_evolve_step W population_argsort config fuel population :
  quiet_run (LLM_evolve_step W population_argsort config fuel population).
Proof.
  unfold LLM_evolve_step.
  apply quiet_bind; [apply quiet_get_elites|]. intros elite.
  apply quiet_bind; [apply quiet_get_novel_prompts|]. intros novel.
  apply quiet_bind; [apply quiet_evolve_loop|]. intros new_population.
  apply quiet_lift.
Qed.

Lemma quiet_fill_loop {X} W (process : list string -> list X) fuel_inner population :
  forall fuel prompts processed_prompts,
    quiet_run (fill_loop W process fuel fuel_inner population prompts
                 processed_prompts).
Proof.
  induction fuel as [|fuel IH]; intros prompts processed_prompts;
    rewrite fill_loop_eq;
    destruct (Nat.ltb _ _); try apply quiet_ret; try apply quiet_stuck.
  apply quiet_bind; [apply quiet_generate_loop|]. intros prompts'. apply IH.
Qed.

Lemma quiet_generate_batch W fuel popsize : quiet_run (generate_batch W fuel popsize).
Proof.
  unfold generate_batch, _fill_text.
  apply quiet_bind; [|intros vs; apply quiet_ret].
  apply quiet_bind; [apply quiet_fill_loop|]. intros r. apply quiet_lift.
Qed.

Lemma _step_counters W evo_config population_argsort fuel population st batch st' :
  1 <= population_size (search evo_config) ->
  generated (progress st) = 0 ->
  match population with
  | Some old => length old = population_size (search evo_config)
  | None => True
  end ->
  _step W evo_config population_argsort fuel population st = Ok (batch, st') ->
  length batch = population_size (search evo_config)
  /\ evaluated st' = evaluated st + population_size (search evo_config)
  /\ total_generated (progress st')
     = total_generated (progress st) + population_size (search evo_config)
  /\ generated (progress st') = 0
  /\ calls st <= calls st' /\ draws st <= draws st'.
Proof.
  intros HP Hg Hold H.
  destruct (_step_Ok _ _ _ _ _ _ H) as (_ & Hlen).
  assert (Hsize : length batch = population_size (search evo_config)).
  { destruct population; congruence. }
  unfold _step in H. apply bind_Ok in H as (b & st1 & Hb & He).
  assert (Hq : quiet st st1).
  { destruct population as [old|].
    - destruct (String.eqb (mode (search evo_config)) "full LLM").
      + eapply quiet_full_LLM_step, Hb.
      + destruct (String.eqb (mode (search evo_config)) "LLM evolve").
        * eapply quiet_LLM_evolve_step, Hb.
        * discriminate.
    - eapply quiet_generate_batch, Hb. }
  destruct Hq as (Hqe & Hqp & Hqc & Hqd).
  destruct (evaluate_values _ _ _ _ He) as (Hv & _ & Hc).
  assert (Hb_len : length b = population_size (search evo_config)).
  { rewrite <- Hsize, <- (length_map values b), <- Hv. apply length_map. }
  destruct (evaluate_progress _ _ _ _ He) as (He' & Hd & Hp).
  destruct (@ticks_counters (population_size (search evo_config))
              (map (duration_of W) (seq (evaluated st1) (length b)))
              (progress st1) HP) as (Hg' & Ht'); [rewrite Hqp; lia|].
  rewrite <- Hp, length_map, length_seq, Hqp, Hg, Hb_len in Hg', Ht'.
  cbn [Nat.add] in Hg', Ht'.
  rewrite Nat.Div0.mod_same in Hg'. rewrite Nat.div_same in Ht' by lia.
  split; [exact Hsize|]. split; [lia|]. split; [lia|]. split; [exact Hg'|].
  split; lia.
Qed.

Lemma run_counters W evo_config population_argsort fuel :
  1 <= population_size (search evo_config) ->
  forall n population st r st',
    match population with
    | Some old => length old = population_size (search evo_config)
    | None => True
    end ->
    generated (progress st) = 0 ->
    run W evo_config population_argsort fuel n population st = Ok (r, st') ->
    evaluated st' = evaluated st + n * population_size (search evo_config)
    /\ total_generated (progress st')
       = total_generated (progress st) + n * population_size (search evo_config)
    /\ generated (progress st') = 0.
Proof.
  intros HP. induction n as [|n IH]; intros population st r st' Hold Hg H;
    cbn [run] in H.
  - apply ret_Ok in H as [_ ->]. cbn [Nat.mul]. lia.
  - apply bind_Ok in H as (batch & st1 & Hstep & Hrun).
    destruct (@_step_counters W evo_config population_argsort fuel
                population st batch st1 HP Hg Hold Hstep)
      as (Hsize & He & Ht & Hg1 & _).
    destruct (IH (Some batch) st1 r st' Hsize Hg1 Hrun) as (He' & Ht' & Hg').
    cbn [Nat.mul]. lia.
Qed.

(** X14: only the evaluation of a batch touches the evaluation counter
    and the progress bookkeeping: the search engine and the fill send
    requests and draw random numbers, nothing else.  So, with a positive
    [population_size] and the counter at zero, every completed step
    evaluates exactly [population_size] members and leaves the counter at
    zero, and after [n] completed steps of a run [n * population_size]
    evaluations have been made and counted in [total_generated]. *)
Theorem every_step_evaluates_one_population :
  forall (W : World) (evo_config : evoConf)
         (population_argsort : list score -> list nat) (fuel : nat),
    1 <= population_size (search evo_config) ->
    (forall population st batch st',
        full_LLM_step W population_argsort (search evo_config) fuel population st
        = Ok (batch, st')
        \/ LLM_evolve_step W population_argsort (search evo_config) fuel
             population st
           = Ok (batch, st')
        \/ generate_batch W fuel (length population) st = Ok (batch, st') ->
        evaluated st' = evaluated st /\ progress st' = progress st)
    /\ (forall population st batch st',
           generated (progress st) = 0 ->
           length population = population_size (search evo_config) ->
           _step W evo_config population_argsort fuel (Some population) st
           = Ok (batch, st') ->
           evaluated st' = evaluated st + population_size (search evo_config)
           /\ total_generated (progress st')
              = total_generated (progress st)
                + population_size (search evo_config)
           /\ generated (progress st') = 0)
    /\ (forall n st r st',
           generated (progress st) = 0 ->
           run W evo_config population_argsort fuel n None st = Ok (r, st') ->
           evaluated st' = evaluated st + n * population_size (search evo_config)
           /\ total_generated (progress st')
              = total_generated (progress st)
                + n * population_size (search evo_config)
           /\ generated (progress st') = 0).
Proof.
  intros W evo_config population_argsort fuel HP.
  split; [|split].
  - intros population st batch st' [H|[H|H]].
    + apply quiet_full_LLM_step in H. unfold quiet in H. tauto.
    + apply quiet_LLM_evolve_step in H. unfold quiet in H. tauto.
    + apply quiet_generate_batch in H. unfold quiet in H. tauto.
  - intros population st batch st' Hg Hlen H.
    pose proof (@_step_counters W evo_config population_argsort fuel
                  (Some population) st batch st' HP Hg Hlen H). tauto.
  - intros n st r st' Hg H.
    exact (@run_counters W evo_config population_argsort fuel HP n None st r st'
             I Hg H).
Qed.

Lemma every_step_evaluates_one_population_witness :
  1 <= population_size (search demo_evo)
  /\ exists r st',
       run demo_world demo_evo argsort 5 2 None init_St = Ok (r, st')
       /\ evaluated st' = 8
       /\ total_generated (progress st') = 8
       /\ generated (progress st') = 0.
Proof.
  assert (HP : 1 <= population_size (search demo_evo)) by (simpl; lia).
  split; [exact HP|].
  do 2 eexists. split.
  - vm_compute. reflexivity.
  - eapply (proj2 (proj2 (@every_step_evaluates_one_population demo_world
                            demo_evo argsort 5 HP)) 2 init_St).
    + reflexivity.
    + vm_compute. reflexivity.
Defined.

(** ** The parser inside [generate_prompts] *)

Lemma collect_is_parse num : forall answers prompts,
  (Z.of_nat (length prompts) < num)%Z ->
  collect num prompts answers
  = prompts ++ firstn (Z.to_nat num - length prompts) (extract_all answers).
Proof.
  induction answers as [|a rest IH]; intros prompts Hlt; cbn [collect extract_all].
  - rewrite firstn_nil. symmetry. apply app_nil_r.
  - destruct (extract a) as [p|].
    + rewrite length_app. cbn [length].
      replace (Z.to_nat num - length prompts)
        with (S (Z.to_nat num - (length prompts + 1))) by lia.
      cbn [firstn].
      destruct (Z.leb_spec num (Z.of_nat (length prompts + 1))) as [Hfull|Hmore].
      * replace (Z.to_nat num - (length prompts + 1)) with 0 by lia.
        reflexivity.
      * rewrite IH by (rewrite length_app; cbn [length]; lia).
        rewrite length_app. cbn [length]. rewrite <- app_assoc. reflexivity.
    + destruct (Z.leb_spec num (Z.of_nat (length prompts))); [lia|].
      apply IH, Hlt.
Qed.

(** X15: the parser written out inside [generate_prompts] is
    [parse_llm_response]: a turn of its loop that still misses prompts
    sends one request and adds the first missing ones of the prompts
    [parse_llm_response] finds in the answer (none when the tags are
    unbalanced), as the loops of [apply] and [full_LLM_step] do. *)
Theorem generate_prompts_loop_parses_like_parse_llm_response :
  forall (W : World) (fuel : nat) (num_prompts : Z) (prompts : list string)
         (st : St),
    (Z.of_nat (length prompts) < num_prompts)%Z ->
    generate_loop W (S fuel) num_prompts prompts st
    = bind (ask W (generate_instruction
                     (num_prompts - Z.of_nat (length prompts))))
        (fun answers =>
           generate_loop W fuel num_prompts
             (prompts
                ++ firstn (Z.to_nat num_prompts - length prompts)
                     (parse_llm_response answers))) st.
Proof.
  intros W fuel num_prompts prompts st Hlt. rewrite generate_loop_eq.
  destruct (Z.ltb_spec (Z.of_nat (length prompts)) num_prompts); [|lia].
  unfold bind. destruct (ask W _ st) as [[answers st1]| |]; trivial.
  unfold parse_llm_response.
  destruct (negb (Nat.eqb (PyStr.count open_tag answers)
                          (PyStr.count close_tag answers))).
  - rewrite firstn_nil, app_nil_r. reflexivity.
  - rewrite collect_is_parse by exact Hlt. reflexivity.
Qed.

Lemma generate_prompts_loop_parses_like_parse_llm_response_witness :
  (Z.of_nat (length ["x"]) < 2)%Z
  /\ generate_loop demo_world 1 2 ["x"] init_St
     = Ok (["x"; "slow jazz"], called init_St).
Proof.
  assert (Hlt : (Z.of_nat (length ["x"]) < 2)%Z) by (simpl; lia).
  split; [exact Hlt|].
  rewrite (@generate_prompts_loop_parses_like_parse_llm_response
             demo_world 0 2 ["x"] init_St Hlt).
  reflexivity.
Defined.

(** ** How many requests a step sends *)

Lemma get_elites_calls W population_argsort config population st r st' :
  get_elites W population_argsort config population st = Ok (r, st') ->
  calls st' = calls st.
Proof.
  unfold get_elites. destruct (float_is_zero _).
  { intros H. apply ret_Ok in H as [_ ->]. reflexivity. }
  intros H. apply bind_Ok in H as (count & st0 & Hcount & H).
  apply lift_Ok in Hcount as [_ ->]. revert H.
  destruct (sample config).
  - unfold sample_population. destruct (_ =? _)%Z.
    { intros H. apply ret_Ok in H as [_ ->]. reflexivity. }
    destruct (_ <? _)%Z; [discriminate|].
    destruct (negb (Nat.eqb _ _)); [discriminate|].
    destruct (negb (weights_ok _ _ _ _)); [discriminate|].
    unfold choice. intros H. apply bind_Ok in H as (idx & st1 & Hidx & Hsel).
    apply choice_index_Ok in Hidx as (_ & _ & Hc & _).
    apply select_state in Hsel as ->. exact Hc.
  - intros H. apply select_state in H as ->. reflexivity.
Qed.

Lemma get_novel_prompts_requests W config fuel st r st' :
  responsive W ->
  get_novel_prompts W config fuel st = Ok (r, st') ->
  calls st' <= calls st + length r.
Proof.
  intros Hresp. unfold get_novel_prompts. destruct (float_is_zero _).
  { intros H. apply ret_Ok in H as [_ ->]. lia. }
  intros H. apply bind_Ok in H as (count & st0 & Hcount & H).
  apply lift_Ok in Hcount as [_ ->].
  unfold generate_prompts in H.
  destruct (Z.lt_ge_cases count 0) as [Hneg|Hpos].
  - rewrite generate_loop_eq in H. cbn [length] in H.
    destruct (Z.ltb_spec (Z.of_nat 0) count); [lia|].
    apply ret_Ok in H as [_ ->]. lia.
  - pose proof (@generate_loop_outcome W count fuel [] st
                  (Forall_nil _)) as Hout.
    rewrite H in Hout. destruct Hout as (Hlen & _); [simpl; lia|].
    pose proof (@generate_loop_requests W count Hresp fuel [] st r st')
      as Hreq.
    cbn [length] in Hreq. specialize (Hreq ltac:(lia) H). lia.
Qed.

Lemma regenerate_loop_requests W config ranking :
  responsive W ->
  forall fuel new_prompts st r st',
    regenerate_loop W config fuel ranking new_prompts st = Ok (r, st') ->
    calls st' + length new_prompts
    <= calls st + Nat.max (population_size config) (length new_prompts).
Proof.
  intros Hresp. induction fuel as [|fuel IH]; intros new_prompts st r st';
    rewrite regenerate_loop_eq;
    destruct (Nat.ltb_spec (length new_prompts) (population_size config))
      as [Hlt|Hge]; intros H.
  - discriminate.
  - apply ret_Ok in H as [_ ->]. lia.
  - apply bind_Ok in H as (LLM_prompt & st0 & Hformat & H).
    apply lift_Ok in Hformat as [_ ->].
    apply bind_Ok in H as (answers & st1 & Hask & H).
    apply ask_Ok in Hask as [-> Hq].
    pose proof (@responsive_parse W (calls st) _ answers Hresp Hq) as Hone.
    apply IH in H. rewrite length_app, length_firstn in H.
    unfold called in H. cbn [calls] in H. lia.
  - apply ret_Ok in H as [_ ->]. lia.
Qed.

(** X16: the requests of a step are bounded when every answer of the
    oracle carries a prompt.  A completed step of the full-LLM mode has
    sent at most as many requests as the population has members that
    are no elites, and the fill of a first population of [popsize]
    members at most [popsize]; the elites themselves cost no request. *)
Theorem regeneration_step_request_budget :
  forall (W : World) (population_argsort : list score -> list nat)
         (config : searchConf) (fuel : nat),
    responsive W ->
    (forall population st batch st',
        full_LLM_step W population_argsort config fuel population st
        = Ok (batch, st') ->
        exists elite st1,
          get_elites W population_argsort config population st = Ok (elite, st1)
          /\ calls st1 = calls st
          /\ length elite <= length population
          /\ calls st' <= calls st + (length population - length elite))
    /\ (forall popsize st batch st',
           generate_batch W fuel popsize st = Ok (batch, st') ->
           calls st' <= calls st + popsize).
Proof.
  intros W population_argsort config fuel Hresp. split.
  - intros population st batch st' H. unfold full_LLM_step in H.
    apply bind_Ok in H as (best_idx & s1 & Hbest & H).
    apply lift_Ok in Hbest as [_ ->].
    apply bind_Ok in H as (pop_evals & s2 & Hevals & H).
    apply select_state in Hevals as ->.
    apply bind_Ok in H as (ranking & s3 & Hranking & H).
    apply (@mapM_state nat (nat * string * score)) in Hranking as ->.
    2:{ intros a s r s' Hf. inv_run. reflexivity. }
    apply bind_Ok in H as (best & s4 & Hb & H).
    apply lift_Ok in Hb as [_ ->].
    apply bind_Ok in H as (elite & st1 & Helite & H).
    apply bind_Ok in H as (novel & st2 & Hnovel & H).
    apply bind_Ok in H as (new_prompts & st3 & Hloop & H).
    apply lift_Ok in H as [Hset ->].
    pose proof (@get_elites_calls W population_argsort config population st
                  elite st1 Helite) as Hc1.
    pose proof (@get_novel_prompts_requests W config fuel st1 novel st2 Hresp
                  Hnovel) as Hc2.
    pose proof (@regenerate_loop_requests W config ranking Hresp fuel
                  (elite ++ novel) st2 new_prompts st3 Hloop) as Hc3.
    apply regenerate_loop_extends in Hloop as ((produced & ->) & Hlen).
    apply set_values_Ok in Hset as (_ & Hfit & _).
    rewrite Hfit in Hlen. rewrite <- Hlen in Hc3.
    rewrite length_app in Hc3. rewrite !length_app in Hfit.
    exists elite, st1. split; [exact Helite|]. split; [exact Hc1|].
    split; lia.
  - intros popsize st batch st' H. unfold generate_batch, _fill_text in H.
    apply bind_Ok in H as (vs & st1 & H & Hret).
    apply ret_Ok in Hret as [_ ->].
    apply bind_Ok in H as (r & st2 & Hfill & H).
    apply lift_Ok in H as [_ ->].
    rewrite fill_loop_eq in Hfill. cbn [length] in Hfill.
    destruct (Nat.ltb_spec 0 popsize) as [Hpos|Hzero].
    + destruct fuel as [|fuel']; [discriminate|].
      apply bind_Ok in Hfill as (prompts & st3 & Hgen & Hfill).
      pose proof (@generate_loop_outcome W (Z.of_nat popsize) (S fuel') [] st
                    (Forall_nil _)) as Hout.
      unfold generate_prompts in Hgen. rewrite Hgen in Hout.
      destruct Hout as (Hlen & _); [simpl; lia|].
      pose proof (@generate_loop_requests W (Z.of_nat popsize) Hresp (S fuel') []
                    st prompts st3) as Hreq.
      cbn [length] in Hreq. specialize (Hreq ltac:(lia) Hgen).
      apply Nat2Z.inj in Hlen.
      rewrite fill_loop_eq in Hfill. cbn [app length] in Hfill.
      rewrite Nat.sub_0_r, firstn_all2 in Hfill by lia.
      destruct (Nat.ltb_spec (length prompts) popsize); [lia|].
      apply ret_Ok in Hfill as [_ ->]. lia.
    + apply ret_Ok in Hfill as [_ ->]. lia.
Qed.

Lemma regeneration_step_request_budget_witness :
  responsive demo_world
  /\ exists batch st',
       full_LLM_step demo_world argsort demo_search 5 demo_population init_St
       = Ok (batch, st')
       /\ calls st' = 2
       /\ exists elite st1,
            get_elites demo_world argsort demo_search demo_population init_St
            = Ok (elite, st1)
            /\ calls st1 = calls init_St
            /\ length elite <= length demo_population
            /\ calls st'
               <= calls init_St + (length demo_population - length elite).
Proof.
  split; [exact demo_world_responsive|].
  do 2 eexists. split; [vm_compute; reflexivity|]. split; [reflexivity|].
  exact (proj1 (@regeneration_step_request_budget demo_world argsort demo_search
                  5 demo_world_responsive)
           demo_population init_St _ _ eq_refl).
Defined.

(** ** What the parser leaves in a prompt *)

Lemma startswith_nil p : PyStr.startswith p EmptyString = true -> p = EmptyString.
Proof. destruct p; [reflexivity|discriminate]. Qed.

Lemma startswith_append p : forall s t,
  PyStr.startswith p s = true -> PyStr.startswith p (s ++ t)%string = true.
Proof.
  induction p as [|a p IH]; intros s t H; [reflexivity|].
  destruct s as [|b s]; [discriminate|]. cbn [PyStr.startswith String.append] in *.
  apply andb_true_iff in H as [Hab Hp]. rewrite Hab, (IH _ _ Hp). reflexivity.
Qed.

Lemma drop_nil k : PyStr.drop k EmptyString = EmptyString.
Proof. destruct k; reflexivity. Qed.

Lemma drop_drop n : forall k s,
  PyStr.drop k (PyStr.drop n s) = PyStr.drop (n + k) s.
Proof.
  induction n as [|n IH]; intros k s; [reflexivity|].
  destruct s as [|c s]; cbn [PyStr.drop Nat.add]; [apply drop_nil|apply IH].
Qed.

Lemma occurs_append p : p <> EmptyString -> forall k s t,
  PyStr.startswith p (PyStr.drop k s) = true ->
  PyStr.startswith p (PyStr.drop k (s ++ t)%string) = true.
Proof.
  intros Hp. induction k as [|k IH]; intros s t H.
  - apply startswith_append, H.
  - destruct s as [|c s]; cbn [PyStr.drop String.append] in *.
    + apply startswith_nil in H. contradiction.
    + apply IH, H.
Qed.

Lemma drop_append_length cur s :
  PyStr.drop (String.length cur) (cur ++ s)%string = s.
Proof. induction cur as [|c cur IH]; [reflexivity|exact IH]. Qed.

Lemma drop_past k : forall s, String.length s <= k -> PyStr.drop k s = EmptyString.
Proof.
  induction k as [|k IH]; intros [|c s] H; try reflexivity.
  - simpl in H. lia.
  - cbn [PyStr.drop]. apply IH. simpl in H. lia.
Qed.

Lemma append_snoc cur c s :
  ((cur ++ String c EmptyString) ++ s)%string = (cur ++ String c s)%string.
Proof. induction cur as [|a cur IH]; [reflexivity|]. simpl. rewrite IH. reflexivity. Qed.

Lemma length_snoc cur c :
  String.length (cur ++ String c EmptyString)%string = S (String.length cur).
Proof. induction cur as [|a cur IH]; [reflexivity|]. simpl. rewrite IH. reflexivity. Qed.

Lemma find_Some sub : forall s n,
  PyStr.find sub s = Some n -> PyStr.startswith sub (PyStr.drop n s) = true.
Proof.
  induction s as [|c s IH]; intros n; cbn [PyStr.find].
  - destruct (PyStr.startswith sub EmptyString) eqn:E; [|discriminate].
    intros [= <-]. exact E.
  - destruct (PyStr.startswith sub (String c s)) eqn:E.
    + intros [= <-]. exact E.
    + destruct (PyStr.find sub s) as [m|]; [|discriminate].
      intros [= <-]. cbn [PyStr.drop]. apply IH. reflexivity.
Qed.

Lemma lstrip_is_drop s : exists m, PyStr.lstrip s = PyStr.drop m s.
Proof.
  induction s as [|c s [m IH]]; [exists 0; reflexivity|].
  cbn [PyStr.lstrip]. destruct (PyStr.is_space c).
  - exists (S m). exact IH.
  - exists 0. reflexivity.
Qed.

Lemma rstrip_is_prefix s : exists t, s = (PyStr.rstrip s ++ t)%string.
Proof.
  induction s as [|c s [t IH]]; [exists EmptyString; reflexivity|].
  cbn [PyStr.rstrip]. destruct (PyStr.rstrip s) as [|b r].
  - destruct (PyStr.is_space c).
    + exists (String c s). reflexivity.
    + exists s. reflexivity.
  - exists t. simpl. rewrite IH at 1. reflexivity.
Qed.

(** A piece between two separators holds no separator. *)
Lemma split_from_pieces sep : sep <> EmptyString ->
  forall s skip cur piece,
    (skip = 0 \/ cur = EmptyString) ->
    (forall k, k < String.length cur ->
               PyStr.startswith sep (PyStr.drop k (cur ++ s)%string) = false) ->
    In piece (PyStr.split_from sep skip cur s) ->
    forall k, PyStr.startswith sep (PyStr.drop k piece) = false.
Proof.
  intros Hsep. induction s as [|c s IH]; intros skip cur piece Hskip Hinv Hin k.
  - destruct Hin as [<-|[]].
    destruct (Nat.lt_ge_cases k (String.length cur)) as [Hk|Hk].
    + specialize (Hinv k Hk).
      destruct (PyStr.startswith sep (PyStr.drop k cur)) eqn:E; [|reflexivity].
      rewrite (occurs_append Hsep k cur EmptyString E) in Hinv. discriminate.
    + rewrite drop_past by exact Hk.
      destruct sep; [contradiction|reflexivity].
  - cbn [PyStr.split_from] in Hin. destruct skip as [|skip].
    + destruct (PyStr.startswith sep (String c s)) eqn:E.
      * destruct Hin as [<-|Hin].
        -- destruct (Nat.lt_ge_cases k (String.length cur)) as [Hk|Hk].
           ++ specialize (Hinv k Hk).
              destruct (PyStr.startswith sep (PyStr.drop k cur)) eqn:E';
                [|reflexivity].
              rewrite (occurs_append Hsep k cur (String c s) E') in Hinv.
              discriminate.
           ++ rewrite drop_past by exact Hk.
              destruct sep; [contradiction|reflexivity].
        -- apply (IH (String.length sep - 1) EmptyString piece
                     (or_intror eq_refl)); trivial.
           intros j Hj. simpl in Hj. lia.
      * apply (IH 0 (cur ++ String c EmptyString)%string piece (or_introl eq_refl));
          trivial.
        intros j Hj. rewrite length_snoc in Hj. rewrite append_snoc.
        destruct (Nat.eq_dec j (String.length cur)) as [->|Hne].
        -- rewrite drop_append_length. exact E.
        -- apply Hinv. lia.
    + destruct Hskip as [Hskip| ->]; [discriminate|].
      apply (IH skip EmptyString piece (or_intror eq_refl)); trivial.
      intros j Hj. simpl in Hj. lia.
Qed.

Lemma contains_occurs sub s :
  PyStr.contains sub s = true ->
  exists k, PyStr.startswith sub (PyStr.drop k s) = true.
Proof.
  unfold PyStr.contains. destruct (PyStr.find sub s) as [n|] eqn:E; [|discriminate].
  intros _. exists n. apply find_Some, E.
Qed.

(** X17: no prompt that [parse_llm_response] returns contains a closing
    tag, whatever the response: the text is cut at every closing tag.  An
    opening tag can stay in a prompt: only the first one of a piece is
    removed. *)
Theorem parsed_prompts_hold_no_closing_tag :
  (forall (response p : string),
      In p (parse_llm_response response) ->
      PyStr.contains close_tag p = false)
  /\ parse_llm_response "<prompt> a <prompt> b </prompt></prompt>"
     = ["a <prompt> b"].
Proof.
  split; [|reflexivity].
  intros response p Hin.
  destruct (PyStr.contains close_tag p) eqn:E; [exfalso|reflexivity].
  apply contains_occurs in E as (k & Hk).
  apply parse_In in Hin as (a & Ha & Hex).
  assert (Hclose : close_tag <> EmptyString) by discriminate.
  unfold extract in Hex.
  destruct (PyStr.contains open_tag a); [|discriminate].
  destruct (PyStr.find open_tag a) as [index|]; [|discriminate].
  injection Hex as <-. unfold PyStr.strip in Hk.
  destruct (rstrip_is_prefix (PyStr.lstrip (PyStr.drop (index + 8) a)))
    as (t & Ht).
  apply (occurs_append Hclose k _ t) in Hk. rewrite <- Ht in Hk.
  destruct (lstrip_is_drop (PyStr.drop (index + 8) a)) as (m & Hm).
  rewrite Hm, !drop_drop in Hk.
  unfold PyStr.split in Ha.
  rewrite (@split_from_pieces close_tag Hclose response 0 EmptyString a
             (or_introl eq_refl)) in Hk; trivial; [discriminate|].
  intros j Hj. simpl in Hj. lia.
Qed.
